(** * gemini-cli-wrapper: a shallow embedding of [client.go]

    The Go package [geminicli] wraps the [gemini] command-line tool: it
    builds the argument vector, runs the tool under a timeout, cleans the
    captured output and rewrites relative paths mentioned in a prompt.

    Part I embeds the code: Go strings are byte sequences, the functions
    of the Go standard library that [client.go] calls are modelled on
    bytes (UTF-8 aware where Go is), and the functions of [client.go] are
    translated one by one.  Part II states and proves the properties. *)

From Stdlib Require Import String Ascii List ZArith NArith Bool Arith Lia.
Import ListNotations.
Open Scope Z_scope.
Open Scope list_scope.

(* ===================================================================== *)
(** * Part I: the embedding                                               *)
(* ===================================================================== *)

(** ** Go strings and byte slices

    A Go [string] and a [[]byte] are both finite sequences of bytes; the
    conversions [string(b)] and [[]byte(s)] are the identity on them. *)

Definition bytes := list ascii.

Definition str (s : string) : bytes := list_ascii_of_string s.
Arguments str s%_string.

(** Numeric value of a byte, 0..255. *)
Definition b2z (c : ascii) : Z := Z.of_N (N_of_ascii c).

(** The byte with a given value (values are taken modulo 256). *)
Definition z2b (n : Z) : ascii := ascii_of_N (Z.to_N (n mod 256)).

Fixpoint bytes_eqb (a b : bytes) : bool :=
  match a, b with
  | [], [] => true
  | x :: a', y :: b' => Ascii.eqb x y && bytes_eqb a' b'
  | _, _ => false
  end.

(** [strings.HasPrefix]; on success the remainder after the prefix. *)
Fixpoint CutPrefix (s prefix : bytes) {struct prefix} : option bytes :=
  match prefix with
  | [] => Some s
  | p :: prefix' =>
      match s with
      | [] => None
      | c :: s' => if Ascii.eqb c p then CutPrefix s' prefix' else None
      end
  end.

Definition HasPrefix (s prefix : bytes) : bool :=
  match CutPrefix s prefix with Some _ => true | None => false end.

(** [strings.Contains(s, substr)]: [substr] occurs at some offset of [s]. *)
Fixpoint Contains (s substr : bytes) : bool :=
  HasPrefix s substr ||
  match s with
  | [] => false
  | _ :: s' => Contains s' substr
  end.

(** [strings.Split(s, sep)] for a one-byte separator, the only way the
    package calls it ([sep] is the newline).  The result has one more
    element than [s] has separators; in particular [Split "" sep] is the
    one-element list holding the empty string. *)
Fixpoint Split (s : bytes) (sep : ascii) : list bytes :=
  match s with
  | [] => [[]]
  | c :: s' =>
      if Ascii.eqb c sep then [] :: Split s' sep
      else match Split s' sep with
           | l :: ls => (c :: l) :: ls
           | [] => [[c]]
           end
  end.

(** [strings.Join(elems, sep)]. *)
Fixpoint Join (elems : list bytes) (sep : bytes) : bytes :=
  match elems with
  | [] => []
  | [e] => e
  | e :: rest => e ++ sep ++ Join rest sep
  end.

Definition newline : ascii := "010"%char.

(** ** UTF-8 ([unicode/utf8])

    Runes are code points, held in [Z] (Go's [rune] is an [int32]). *)

Definition RuneError : Z := 0xFFFD.
Definition RuneSelf : Z := 0x80.
Definition MaxRune : Z := 0x10FFFF.

(** Continuation bytes are [locb..hicb] = [0x80..0xBF]. *)
Definition inRange (lo hi : Z) (c : ascii) : bool :=
  (lo <=? b2z c) && (b2z c <=? hi).

(** The entry of [utf8.first] and [utf8.acceptRanges] for a leading byte:
    [None] for a byte that cannot start a multi-byte sequence (ASCII is
    decided before), otherwise the size of the sequence and the range the
    second byte must lie in. *)
Definition leadInfo (x : Z) : option (nat * (Z * Z)) :=
  if x <? 0xC2 then None
  else if x <? 0xE0 then Some (2%nat, (0x80, 0xBF))
  else if x =? 0xE0 then Some (3%nat, (0xA0, 0xBF))
  else if x <? 0xED then Some (3%nat, (0x80, 0xBF))
  else if x =? 0xED then Some (3%nat, (0x80, 0x9F))
  else if x <? 0xF0 then Some (3%nat, (0x80, 0xBF))
  else if x =? 0xF0 then Some (4%nat, (0x90, 0xBF))
  else if x <? 0xF4 then Some (4%nat, (0x80, 0xBF))
  else if x =? 0xF4 then Some (4%nat, (0x80, 0x8F))
  else None.

(** [utf8.DecodeRuneInString]: the first rune of [s] and its width in
    bytes; [(RuneError, 0)] on the empty string and [(RuneError, 1)] on
    an invalid or incomplete encoding. *)
Definition DecodeRune (s : bytes) : Z * nat :=
  match s with
  | [] => (RuneError, 0%nat)
  | s0 :: t0 =>
      let x := b2z s0 in
      if x <? RuneSelf then (x, 1%nat)
      else
        match leadInfo x with
        | None => (RuneError, 1%nat)
        | Some (sz, (lo, hi)) =>
            match t0 with
            | [] => (RuneError, 1%nat)
            | s1 :: t1 =>
                if negb (inRange lo hi s1) then (RuneError, 1%nat)
                else if (sz <=? 2)%nat then
                  (Z.lor (Z.shiftl (Z.land x 0x1F) 6) (Z.land (b2z s1) 0x3F), 2%nat)
                else
                  match t1 with
                  | [] => (RuneError, 1%nat)
                  | s2 :: t2 =>
                      if negb (inRange 0x80 0xBF s2) then (RuneError, 1%nat)
                      else if (sz <=? 3)%nat then
                        (Z.lor (Z.shiftl (Z.land x 0x0F) 12)
                           (Z.lor (Z.shiftl (Z.land (b2z s1) 0x3F) 6)
                                  (Z.land (b2z s2) 0x3F)), 3%nat)
                      else
                        match t2 with
                        | [] => (RuneError, 1%nat)
                        | s3 :: _ =>
                            if negb (inRange 0x80 0xBF s3) then (RuneError, 1%nat)
                            else
                              (Z.lor (Z.shiftl (Z.land x 0x07) 18)
                                 (Z.lor (Z.shiftl (Z.land (b2z s1) 0x3F) 12)
                                    (Z.lor (Z.shiftl (Z.land (b2z s2) 0x3F) 6)
                                           (Z.land (b2z s3) 0x3F))), 4%nat)
                        end
                  end
            end
        end
  end.

(** [utf8.AppendRune]: the UTF-8 encoding of a rune; surrogates and
    values outside [0..MaxRune] are encoded as [RuneError]. *)
Definition encode3 (r : Z) : bytes :=
  [z2b (Z.lor 0xE0 (Z.shiftr r 12));
   z2b (Z.lor 0x80 (Z.land (Z.shiftr r 6) 0x3F));
   z2b (Z.lor 0x80 (Z.land r 0x3F))].

Definition EncodeRune (r : Z) : bytes :=
  if (0 <=? r) && (r <=? 0x7F) then [z2b r]
  else if (0 <=? r) && (r <=? 0x7FF) then
    [z2b (Z.lor 0xC0 (Z.shiftr r 6)); z2b (Z.lor 0x80 (Z.land r 0x3F))]
  else if (r <? 0) || (MaxRune <? r) || ((0xD800 <=? r) && (r <=? 0xDFFF)) then
    encode3 RuneError
  else if r <=? 0xFFFF then encode3 r
  else
    [z2b (Z.lor 0xF0 (Z.shiftr r 18));
     z2b (Z.lor 0x80 (Z.land (Z.shiftr r 12) 0x3F));
     z2b (Z.lor 0x80 (Z.land (Z.shiftr r 6) 0x3F));
     z2b (Z.lor 0x80 (Z.land r 0x3F))].

(** ** White space ([unicode.IsSpace], [strings.TrimSpace])

    The code points with Unicode's White_Space property, as
    [unicode.IsSpace] lists them. *)
Definition whiteSpace : list Z :=
  [0x09; 0x0A; 0x0B; 0x0C; 0x0D; 0x20; 0x85; 0xA0; 0x1680;
   0x2000; 0x2001; 0x2002; 0x2003; 0x2004; 0x2005; 0x2006; 0x2007;
   0x2008; 0x2009; 0x200A; 0x2028; 0x2029; 0x202F; 0x205F; 0x3000].

Definition IsSpace (r : Z) : bool := existsb (Z.eqb r) whiteSpace.

(** Their UTF-8 encodings.  [strings.TrimSpace] removes white-space runes
    from both ends, reading runes forwards at the front and backwards at
    the end.  UTF-8 is self-synchronizing, so either way a string starts
    (ends) with a white-space rune exactly when it starts (ends) with one
    of these byte sequences; trimming is therefore modelled as stripping
    them.  (The ASCII fast paths of [TrimSpace] compute the same.) *)
Definition spaceEncodings : list bytes := map EncodeRune whiteSpace.

(** Remove one leading occurrence of the first pattern that matches. *)
Fixpoint cutAny (pats : list bytes) (s : bytes) : option bytes :=
  match pats with
  | [] => None
  | p :: pats' =>
      match CutPrefix s p with
      | Some rest => Some rest
      | None => cutAny pats' s
      end
  end.

(** Remove leading occurrences of the patterns until none matches. *)
Fixpoint trimLoop (pats : list bytes) (fuel : nat) (s : bytes) : bytes :=
  match fuel with
  | O => s
  | S fuel' =>
      match cutAny pats s with
      | Some rest => trimLoop pats fuel' rest
      | None => s
      end
  end.

Definition trimPrefixes (pats : list bytes) (s : bytes) : bytes :=
  trimLoop pats (length s) s.

(** [strings.TrimLeftFunc(s, unicode.IsSpace)]. *)
Definition TrimLeft (s : bytes) : bytes := trimPrefixes spaceEncodings s.

(** [strings.TrimRightFunc(s, unicode.IsSpace)]: the same from the end. *)
Definition TrimRight (s : bytes) : bytes :=
  rev (trimPrefixes (map (@rev ascii) spaceEncodings) (rev s)).

(** [strings.TrimSpace]: leading white space goes first, then trailing. *)
Definition TrimSpace (s : bytes) : bytes := TrimRight (TrimLeft s).

(** A concatenation of patterns: what [trimLoop] removes. *)
Inductive blank (P : list bytes) : bytes -> Prop :=
| blank_nil : blank P []
| blank_cons p a : In p P -> blank P a -> blank P (p ++ a).

(** Decidable side conditions on a pattern set, checked by evaluation for
    the white-space encodings: no pattern is empty, none is a prefix of
    another, none overlaps another (a proper non-empty suffix of one is
    never a prefix of one), and the separator byte occurs only as a
    pattern by itself. *)
Definition pats_nonempty (P : list bytes) : bool :=
  forallb (fun p => negb (bytes_eqb p [])) P.

Definition pats_prefix_free (P : list bytes) : bool :=
  forallb (fun p => forallb (fun q => negb (HasPrefix q p) || bytes_eqb q p) P) P.

Definition pats_no_overlap (P : list bytes) : bool :=
  forallb (fun p =>
    forallb (fun q =>
      forallb (fun i => negb (HasPrefix q (skipn i p)))
              (seq 1 (length p - 1))) P) P.

Definition pats_sep (sep : ascii) (P : list bytes) : bool :=
  forallb (fun p => bytes_eqb p [sep] || negb (existsb (Ascii.eqb sep) p)) P.

(** ** Constants of [client.go] *)

Definition GeminiCommand : bytes := str "gemini".
Definition GeminiPromptFlag : bytes := str "-p".
Definition GeminiModelFlag : bytes := str "-m".
Definition Second : Z := 1000000000.
Definition DefaultTimeout : Z := 30 * Second.
Definition DefaultModel : bytes := str "gemini-2.5-flash".
Definition MaxRetries : Z := 3.

Definition ErrEmptyPrompt : bytes := str "prompt cannot be empty".
Definition ErrCommandNotFound : bytes := str "Gemini command not found in PATH".
Definition ErrCommandFailed : bytes := str "failed to execute Gemini command".
Definition ErrCommandTimeout : bytes := str "command timed out".
Definition ErrCommandStart : bytes := str "failed to start command".
Definition ErrParseOutput : bytes := str "failed to parse Gemini output".
Definition ErrEmptyOutput : bytes := str "empty output from Gemini command".
Definition ErrAuthFailed : bytes :=
  str "authentication error: please check your Gemini API credentials".

(** ** Errors

    A Go [error] as [fmt.Errorf] builds it: a message, and for the [%w]
    verb the error it wraps. *)
Inductive error : Type :=
| errorString (msg : bytes)
| wrapError (msg : bytes) (cause : error).

Definition errorText (e : error) : bytes :=
  match e with
  | errorString msg => msg
  | wrapError msg _ => msg
  end.

(** [fmt.Errorf(msg)] for a message without verbs. *)
Definition Errorf (msg : bytes) : error := errorString msg.

(** [fmt.Errorf("%s: %w", prefix, err)]. *)
Definition Errorf_wrap (prefix : bytes) (err : error) : error :=
  wrapError (prefix ++ str ": " ++ errorText err) err.

(** ** Output sanitizing *)

Definition filterPatterns : list bytes :=
  [ str "Loaded cached credentials.";
    str "Loading cached credentials";
    str "Authenticating";
    str "Authentication successful";
    str "Connected to Gemini API";
    str "Using cached token";
    str "Token refreshed" ].

(** The inner loop of [filterGeminiOutput]: does the trimmed line hold one
    of the patterns?  The loop stops at the first hit. *)
Fixpoint matchesFilter (patterns : list bytes) (trimmedLine : bytes) : bool :=
  match patterns with
  | [] => false
  | pattern :: patterns' =>
      if Contains trimmedLine pattern then true
      else matchesFilter patterns' trimmedLine
  end.

(** The outer loop: [filteredLines] grows by [append]. *)
Fixpoint filterLines (lines filteredLines : list bytes) : list bytes :=
  match lines with
  | [] => filteredLines
  | line :: lines' =>
      let trimmedLine := TrimSpace line in
      let shouldFilter := matchesFilter filterPatterns trimmedLine in
      if negb shouldFilter && negb (bytes_eqb trimmedLine [])
      then filterLines lines' (filteredLines ++ [line])
      else filterLines lines' filteredLines
  end.

Definition filterGeminiOutput (output : bytes) : bytes :=
  let lines := Split output newline in
  let filteredLines := filterLines lines [] in
  let result := Join filteredLines [newline] in
  TrimSpace result.

(** [parseGeminiOutput]: the receiver is not used. *)
Definition parseGeminiOutput (output : bytes) : bytes * option error :=
  if (length output =? 0)%nat then ([], Some (Errorf ErrEmptyOutput))
  else
    let result := TrimSpace output in
    let result := filterGeminiOutput result in
    if bytes_eqb result [] then ([], Some (Errorf ErrEmptyOutput))
    else (result, None).

(** ** Lower case ([unicode.ToLower], [strings.Map], [strings.ToLower])

    Go lowers ASCII letters by arithmetic and every other rune through the
    case tables of package [unicode].  Those tables are data of the Go
    distribution, not of this repository: the embedding takes the table
    lookup [To(LowerCase, r)] for runes above [MaxASCII] as the parameter
    [caseTable]. *)

Definition MaxASCII : Z := 0x7F.

Definition isUpperASCII (r : Z) : bool := (65 <=? r) && (r <=? 90).

Definition unicode_ToLower (caseTable : Z -> Z) (r : Z) : Z :=
  if r <=? MaxASCII then (if isUpperASCII r then r + 32 else r)
  else caseTable r.

(** The second loop of [strings.Map]: every rune is mapped and written
    back in UTF-8; an invalid byte reads as [RuneError]; a negative result
    drops the rune. *)
Fixpoint mapRest (mapping : Z -> Z) (fuel : nat) (s : bytes) : bytes :=
  match fuel with
  | O => []
  | S fuel' =>
      match s with
      | [] => []
      | _ :: _ =>
          let '(c, width) := DecodeRune s in
          let r := mapping c in
          (if 0 <=? r then EncodeRune r else [])
            ++ mapRest mapping fuel' (skipn width s)
      end
  end.

(** The first loop of [strings.Map]: runes the mapping leaves alone are
    passed over; at the first rune that changes (an invalid byte counts as
    changed) the bytes before it are copied as they are and the second
    loop takes over.  [None]: nothing changed. *)
Fixpoint mapScan (mapping : Z -> Z) (fuel : nat) (s : bytes) : option bytes :=
  match fuel with
  | O => None
  | S fuel' =>
      match s with
      | [] => None
      | _ :: _ =>
          let '(c, width) := DecodeRune s in
          let r := mapping c in
          if (r =? c) && (negb (c =? RuneError) || negb (width =? 1)%nat) then
            match mapScan mapping fuel' (skipn width s) with
            | None => None
            | Some out => Some (firstn width s ++ out)
            end
          else
            Some ((if 0 <=? r then EncodeRune r else [])
                    ++ mapRest mapping fuel' (skipn width s))
      end
  end.

Definition Map (mapping : Z -> Z) (s : bytes) : bytes :=
  match mapScan mapping (length s) s with
  | Some out => out
  | None => s
  end.

Definition isASCII (s : bytes) : bool := forallb (fun c => b2z c <? RuneSelf) s.

Definition lowerByte (c : ascii) : ascii :=
  if isUpperASCII (b2z c) then z2b (b2z c + 32) else c.

(** [strings.ToLower]: a fast path for ASCII-only strings, [Map] otherwise. *)
Definition ToLower (caseTable : Z -> Z) (s : bytes) : bytes :=
  if isASCII s then
    (if existsb (fun c => isUpperASCII (b2z c)) s then map lowerByte s else s)
  else Map (unicode_ToLower caseTable) s.

(** *** Vocabulary for reasoning about lowering

    [strings.Map] works rune by rune.  The image of a rune is one ASCII
    byte, or a run of bytes none of which is ASCII. *)
Definition nonASCII (c : ascii) : Prop := 0x80 <= b2z c.

Definition isCont (c : ascii) : bool := inRange 0x80 0xBF c.

Definition asciiText (k : bytes) : Prop := Forall (fun c => b2z c < 0x80) k.

(** The ASCII byte the first rune of [s] is mapped to, if it is mapped to
    one, and the width of that rune. *)
Definition asciiImage (mapping : Z -> Z) (s : bytes) : option ascii :=
  let r := mapping (fst (DecodeRune s)) in
  if (0 <=? r) && (r <=? MaxASCII) then Some (z2b r) else None.

Definition width (s : bytes) : nat := snd (DecodeRune s).

(** [Lowered mapping s t]: [t] is [s] with every rune replaced by an image
    of that shape. *)
Inductive Lowered (mapping : Z -> Z) : bytes -> bytes -> Prop :=
| Lowered_nil : Lowered mapping [] []
| Lowered_ascii s c t :
    s <> [] -> asciiImage mapping s = Some c ->
    Lowered mapping (skipn (width s) s) t -> Lowered mapping s (c :: t)
| Lowered_other s o t :
    s <> [] -> asciiImage mapping s = None -> o <> [] -> Forall nonASCII o ->
    Lowered mapping (skipn (width s) s) t -> Lowered mapping s (o ++ t).

(** An excerpt of Go's table of lower-case mappings, for examples: the
    Latin-1 capitals, the dotted capital I and the Kelvin sign. *)
Definition sampleCaseTable (r : Z) : Z :=
  if r =? 0x130 then 0x69
  else if r =? 0x212A then 0x6B
  else if (0xC0 <=? r) && (r <=? 0xDE) && negb (r =? 0xD7) then r + 32
  else r.

(** ** Authentication errors *)

Definition getAuthErrorKeywords : list bytes :=
  [ str "authentication failed";
    str "invalid api key";
    str "permission denied";
    str "unauthorized";
    str "access denied" ].

(** The loop of [containsAnyKeyword] over the keywords, on the lowered text. *)
Fixpoint anyKeyword (lowerText : bytes) (keywords : list bytes) : bool :=
  match keywords with
  | [] => false
  | keyword :: keywords' =>
      if Contains lowerText keyword then true else anyKeyword lowerText keywords'
  end.

Definition containsAnyKeyword (caseTable : Z -> Z) (text : bytes)
    (keywords : list bytes) : bool :=
  let lowerText := ToLower caseTable text in
  anyKeyword lowerText keywords.

Definition detectAuthError (caseTable : Z -> Z) (output : bytes) : bool :=
  containsAnyKeyword caseTable output getAuthErrorKeywords.

(** Equality up to case, and containment up to case: some substring of
    the text equals the phrase when both are lowered. *)
Definition EqualIgnoringCase (caseTable : Z -> Z) (u v : bytes) : Prop :=
  ToLower caseTable u = ToLower caseTable v.

Definition ContainsIgnoringCase (caseTable : Z -> Z) (text phrase : bytes) : Prop :=
  exists a u b, text = a ++ u ++ b /\ EqualIgnoringCase caseTable u phrase.

(** ** Clients *)

(** The [Logger] interface: the no-op logger of the package, or one the
    caller supplies. *)
Inductive Logger : Type :=
| NoOpLogger
| UserLogger (id : nat).

Definition NewNoOpLogger : Logger := NoOpLogger.

(** [time.Duration]: nanoseconds. *)
Definition Duration := Z.

Record Config : Type := mkConfig {
  ConfigLogger : option Logger;      (* Logger; [None] is the nil interface *)
  Timeout : Duration;
  Model : bytes;
  WorkingDirectory : bytes
}.

Record Client : Type := mkClient {
  logger : Logger;
  timeout : Duration;
  model : bytes;
  workingDirectory : bytes
}.

Definition NewClient : Client :=
  {| logger := NewNoOpLogger;
     timeout := DefaultTimeout;
     model := DefaultModel;
     workingDirectory := [] |}.

Definition set_logger (c : Client) (l : Logger) : Client :=
  {| logger := l; timeout := timeout c; model := model c;
     workingDirectory := workingDirectory c |}.

Definition set_timeout (c : Client) (t : Duration) : Client :=
  {| logger := logger c; timeout := t; model := model c;
     workingDirectory := workingDirectory c |}.

Definition set_model (c : Client) (m : bytes) : Client :=
  {| logger := logger c; timeout := timeout c; model := m;
     workingDirectory := workingDirectory c |}.

Definition set_workingDirectory (c : Client) (d : bytes) : Client :=
  {| logger := logger c; timeout := timeout c; model := model c;
     workingDirectory := d |}.

(** The struct literal leaves [logger] unset (nil); both branches of the
    first [if] assign it, so the placeholder below is never seen. *)
Definition NewClientWithConfig (config : Config) : Client :=
  let client :=
    {| logger := NoOpLogger;
       timeout := DefaultTimeout;
       model := DefaultModel;
       workingDirectory := [] |} in
  let client :=
    match ConfigLogger config with
    | Some l => set_logger client l
    | None => set_logger client NewNoOpLogger
    end in
  let client :=
    if 0 <? Timeout config then set_timeout client (Timeout config) else client in
  let client :=
    if negb (bytes_eqb (Model config) []) then set_model client (Model config)
    else client in
  let client :=
    if negb (bytes_eqb (WorkingDirectory config) [])
    then set_workingDirectory client (WorkingDirectory config)
    else client in
  client.

Definition buildGeminiCommand (c : Client) (prompt : bytes) : list bytes :=
  [GeminiCommand; GeminiPromptFlag; prompt].

Definition buildGeminiCommandWithModel (c : Client) (prompt : bytes) : list bytes :=
  [GeminiCommand; GeminiModelFlag; model c; GeminiPromptFlag; prompt].

(** ** Paths ([path/filepath], Unix) *)

Definition Separator : ascii := "/"%char.
Definition dot : ascii := "."%char.

Definition IsPathSeparator (c : ascii) : bool := Ascii.eqb c Separator.

(** [filepath.IsAbs]. *)
Definition IsAbs (path : bytes) : bool := HasPrefix path [Separator].

(** The [..] case of [Clean] when it can backtrack: [out.w--], then back
    to the previous separator but not below [dotdot].  The buffer is held
    reversed, its last byte first. *)
Fixpoint backtrack (out : bytes) (dotdot : nat) : bytes :=
  match out with
  | [] => []
  | c :: out' =>
      if (dotdot <? length out')%nat && negb (IsPathSeparator c)
      then backtrack out' dotdot
      else out'
  end.

(** The bytes of [path] up to the next separator, and what follows. *)
Fixpoint element (path : bytes) : bytes * bytes :=
  match path with
  | [] => ([], [])
  | c :: path' =>
      if IsPathSeparator c then ([], path)
      else let '(e, rest) := element path' in (c :: e, rest)
  end.

(** The main loop of [filepath.Clean]: [path] is what is left to read,
    [out] the buffer written so far (reversed). *)
Fixpoint cleanLoop (fuel : nat) (rooted : bool) (path out : bytes)
    (dotdot : nat) : bytes :=
  match fuel with
  | O => out
  | S fuel' =>
      match path with
      | [] => out
      | c :: p1 =>
          if IsPathSeparator c then
            (* empty path element *)
            cleanLoop fuel' rooted p1 out dotdot
          else if Ascii.eqb c dot
                  && match p1 with [] => true | d :: _ => IsPathSeparator d end then
            (* . element *)
            cleanLoop fuel' rooted p1 out dotdot
          else if Ascii.eqb c dot
                  && match p1 with
                     | d :: p2 =>
                         Ascii.eqb d dot
                         && match p2 with [] => true | e :: _ => IsPathSeparator e end
                     | [] => false
                     end then
            (* .. element: remove to last separator *)
            let p2 := tl p1 in
            if (dotdot <? length out)%nat then
              cleanLoop fuel' rooted p2 (backtrack out dotdot) dotdot
            else if negb rooted then
              let out1 := if (0 <? length out)%nat then Separator :: out else out in
              let out2 := dot :: dot :: out1 in
              cleanLoop fuel' rooted p2 out2 (length out2)
            else cleanLoop fuel' rooted p2 out dotdot
          else
            (* real path element: add slash if needed, copy element *)
            let out1 :=
              if (rooted && negb (length out =? 1)%nat)
                 || (negb rooted && negb (length out =? 0)%nat)
              then Separator :: out else out in
            let '(e, rest) := element path in
            cleanLoop fuel' rooted rest (rev e ++ out1) dotdot
      end
  end.

(** [filepath.Clean]. *)
Definition Clean (path : bytes) : bytes :=
  match path with
  | [] => [dot]
  | c :: p1 =>
      let rooted := IsPathSeparator c in
      let out :=
        if rooted then cleanLoop (length path) rooted p1 [Separator] 1
        else cleanLoop (length path) rooted path [] 0 in
      match out with
      | [] => [dot]
      | _ :: _ => rev out
      end
  end.

(** [filepath.Join]: empty leading elements are skipped, the rest is
    joined with the separator and cleaned. *)
Fixpoint filepath_Join (elem : list bytes) : bytes :=
  match elem with
  | [] => []
  | e :: elem' =>
      if negb (bytes_eqb e []) then Clean (Join elem [Separator])
      else filepath_Join elem'
  end.

(** ** Regular expressions ([regexp])

    The fragment of the syntax that [pathPattern] uses.  Matching is
    leftmost-first, as in Go: of the matches that start at the leftmost
    possible place, the one a backtracking search finds first (left
    alternative before right, repetition greedy).  The classes and the
    word boundary of the pattern are ASCII, so matching byte by byte
    agrees with Go's matching rune by rune. *)
Inductive regex : Type :=
| Lit (s : bytes)
| Concat (r1 r2 : regex)
| Alternate (r1 r2 : regex)
| StarClass (cls : ascii -> bool)
| PlusClass (cls : ascii -> bool)
| WordBoundary.

Definition isWordChar (c : ascii) : bool :=
  let n := b2z c in
  ((48 <=? n) && (n <=? 57)) || ((65 <=? n) && (n <=? 90))
  || ((97 <=? n) && (n <=? 122)) || (n =? 95).

Definition isWordBefore (prev : option ascii) : bool :=
  match prev with Some c => isWordChar c | None => false end.

Definition isWordAfter (s : bytes) : bool :=
  match s with c :: _ => isWordChar c | [] => false end.

Fixpoint last_byte (prev : option ascii) (s : bytes) : option ascii :=
  match s with
  | [] => prev
  | c :: s' => last_byte (Some c) s'
  end.

(** A continuation receives the byte before the current position and the
    input from it on, and answers with the input left after the whole
    match. *)
Definition cont := option ascii -> bytes -> option bytes.

Fixpoint matchStar (cls : ascii -> bool) (prev : option ascii) (s : bytes)
    (k : cont) : option bytes :=
  match s with
  | c :: s' =>
      if cls c then
        match matchStar cls (Some c) s' k with
        | Some e => Some e
        | None => k prev s
        end
      else k prev s
  | [] => k prev []
  end.

Fixpoint matchRe (r : regex) (prev : option ascii) (s : bytes) (k : cont)
    : option bytes :=
  match r with
  | Lit l =>
      match CutPrefix s l with
      | Some s' => k (last_byte prev l) s'
      | None => None
      end
  | Concat r1 r2 => matchRe r1 prev s (fun prev' s' => matchRe r2 prev' s' k)
  | Alternate r1 r2 =>
      match matchRe r1 prev s k with
      | Some e => Some e
      | None => matchRe r2 prev s k
      end
  | StarClass cls => matchStar cls prev s k
  | PlusClass cls =>
      match s with
      | c :: s' => if cls c then matchStar cls (Some c) s' k else None
      | [] => None
      end
  | WordBoundary =>
      if xorb (isWordBefore prev) (isWordAfter s) then k prev s else None
  end.

(** The match starting at the current position, if any: the matched
    bytes and the rest of the input. *)
Definition matchHere (re : regex) (prev : option ascii) (s : bytes)
    : option (bytes * bytes) :=
  match matchRe re prev s (fun _ rest => Some rest) with
  | Some rest => Some (firstn (length s - length rest) s, rest)
  | None => None
  end.

(** The leftmost match at or after the current position: the bytes
    skipped, the matched bytes and the rest. *)
Fixpoint findMatch (re : regex) (prev : option ascii) (s : bytes)
    : option (bytes * bytes * bytes) :=
  match matchHere re prev s with
  | Some (m, rest) => Some ([], m, rest)
  | None =>
      match s with
      | [] => None
      | c :: s' =>
          match findMatch re (Some c) s' with
          | Some (skipped, m, rest) => Some (c :: skipped, m, rest)
          | None => None
          end
      end
  end.

(** The pattern of [resolveRelativePaths]. *)
Definition pathChar (c : ascii) : bool :=
  isWordChar c || Ascii.eqb c "-"%char || Ascii.eqb c dot || Ascii.eqb c Separator.

Definition extensions : list bytes :=
  map str
    [ "txt"; "md"; "go"; "js"; "py"; "json"; "yaml"; "yml"; "xml"; "html";
      "css"; "sh"; "conf"; "cfg"; "ini"; "log"; "out"; "err"; "csv"; "tsv";
      "sql"; "db"; "lock"; "mod"; "sum"; "env"; "toml"; "proto"; "pb"; "rs";
      "c"; "cpp"; "h"; "hpp"; "java"; "kt"; "php"; "rb"; "swift"; "dart";
      "scala"; "clj"; "hs"; "elm"; "ml"; "fs"; "pl"; "r"; "m"; "mm"; "vue";
      "jsx"; "tsx"; "svelte"; "astro"; "wasm"; "zip"; "tar"; "gz"; "bz2";
      "xz"; "7z"; "rar"; "pdf"; "doc"; "docx"; "xls"; "xlsx"; "ppt"; "pptx";
      "png"; "jpg"; "jpeg"; "gif"; "bmp"; "svg"; "webp"; "ico"; "mp3"; "mp4";
      "avi"; "mov"; "wmv"; "flv"; "mkv"; "webm"; "wav"; "ogg"; "flac"; "aac";
      "m4a"; "ttf"; "otf"; "woff"; "woff2"; "eot" ]%string.

(** [e1|e2|...|en]; the empty alternation matches nothing. *)
Fixpoint alternatives (l : list bytes) : regex :=
  match l with
  | [] => PlusClass (fun _ => false)
  | [e] => Lit e
  | e :: l' => Alternate (Lit e) (alternatives l')
  end.

(** [(?:\./|\.\./)[\w\-\.\/]+|[\w\-\.\/]*\.(?:txt|md|...|eot)\b] *)
Definition pathPattern : regex :=
  Alternate
    (Concat (Alternate (Lit (str "./")) (Lit (str "../"))) (PlusClass pathChar))
    (Concat (StarClass pathChar)
       (Concat (Lit [dot]) (Concat (alternatives extensions) WordBoundary))).

(** ** Effects

    What [client.go] does to the world goes through the operating system
    and through the logger.  A program is a finite tree of such calls;
    running it against an oracle for the world gives the calls made, in
    order, and the result. *)

(** [exec.Cmd], the fields the package sets. *)
Record Cmd : Type := mkCmd {
  Path : bytes;
  Args : list bytes;
  Dir : bytes
}.

(** [exec.Command(name, arg...)]. *)
Definition exec_Command (name : bytes) (arg : list bytes) : Cmd :=
  {| Path := name; Args := name :: arg; Dir := [] |}.

Definition set_Dir (cmd : Cmd) (dir : bytes) : Cmd :=
  {| Path := Path cmd; Args := Args cmd; Dir := dir |}.

Inductive logLevel : Type := LevelDebug | LevelInfo | LevelWarn | LevelError.

(** The values the package hands to the logger. *)
Inductive logValue : Type :=
| vString (s : bytes)
| vStrings (l : list bytes)
| vInt (n : Z)
| vError (e : error)
| vDuration (d : Duration).

(** How the race of [runCommandWithTimeout] ended: the process finished
    first, with the error of [cmd.Wait] and what it wrote, or the timer
    fired first. *)
Inductive raceResult : Type :=
| Completed (waitErr : option error) (stdout stderr : bytes)
| TimerFired.

Inductive Event : Type -> Type :=
| Log (id : nat) (level : logLevel) (msg : bytes)
      (keysAndValues : list (bytes * logValue)) : Event unit
| Getwd : Event (bytes * option error)
| LookPath (file : bytes) : Event (bytes * option error)
| Getenv (key : bytes) : Event bytes
| UserCurrentHomeDir : Event (bytes * option error)
| Start (cmd : Cmd) : Event (option error)
| WaitOrTimeout (timeout : Duration) : Event raceResult
| Kill : Event unit.

Inductive Prog (A : Type) : Type :=
| Ret (a : A)
| Vis (X : Type) (e : Event X) (k : X -> Prog A).

Arguments Ret {A} a.
Arguments Vis {A X} e k.

Fixpoint bind {A B : Type} (p : Prog A) (f : A -> Prog B) : Prog B :=
  match p with
  | Ret a => f a
  | Vis e k => Vis e (fun x => bind (k x) f)
  end.

Definition trigger {X : Type} (e : Event X) : Prog X := Vis e (fun x => Ret x).

Declare Scope prog_scope.
Delimit Scope prog_scope with prog.
Notation "x <- p ;; q" := (bind p (fun x => q))
  (at level 61, p at next level, right associativity) : prog_scope.
Notation "' pat <- p ;; q" := (bind p (fun x => let pat := x in q))
  (at level 61, pat pattern, p at next level, right associativity) : prog_scope.
Notation "p ;; q" := (bind p (fun _ => q))
  (at level 61, right associativity) : prog_scope.
Open Scope prog_scope.

(** One call and its answer. *)
Inductive Call : Type :=
| call (X : Type) (e : Event X) (x : X).

Arguments call {X} e x.

(** The world: it answers a call knowing the calls made so far. *)
Definition Oracle : Type := forall X : Type, list Call -> Event X -> X.

Fixpoint run {A : Type} (world : Oracle) (history : list Call) (p : Prog A)
    : list Call * A :=
  match p with
  | Ret a => (history, a)
  | Vis e k =>
      let x := world _ history e in
      run world (history ++ [call e x]) (k x)
  end.

(** A world for examples: every lookup fails to find anything, and the
    timer wins every race. *)
Definition quietWorld : Oracle :=
  fun X _ e =>
    match e in Event T return T with
    | Log _ _ _ _ => tt
    | Getwd => ([], None)
    | LookPath _ => ([], None)
    | Getenv _ => []
    | UserCurrentHomeDir => ([], None)
    | Start _ => None
    | WaitOrTimeout _ => TimerFired
    | Kill => tt
    end.

(** The methods of the [Logger] interface; those of [NoOpLogger] have
    empty bodies. *)
Definition logWith (l : Logger) (level : logLevel) (msg : bytes)
    (keysAndValues : list (bytes * logValue)) : Prog unit :=
  match l with
  | NoOpLogger => Ret tt
  | UserLogger id => trigger (Log id level msg keysAndValues)
  end.

Definition DebugWith (l : Logger) := logWith l LevelDebug.
Definition InfoWith (l : Logger) := logWith l LevelInfo.
Definition WarnWith (l : Logger) := logWith l LevelWarn.
Definition ErrorWith (l : Logger) := logWith l LevelError.

(** [regexp.ReplaceAllStringFunc]: the text between matches is copied,
    each match is replaced by what [repl] returns for it, and the search
    goes on behind the match.  [pathPattern] has no empty match; were
    there one, this loop would step over one byte. *)
Fixpoint replaceLoop (re : regex) (repl : bytes -> Prog bytes) (fuel : nat)
    (prev : option ascii) (src : bytes) : Prog bytes :=
  match fuel with
  | O => Ret src
  | S fuel' =>
      match findMatch re prev src with
      | None => Ret src
      | Some (skipped, m, rest) =>
          replacement <- repl m ;;
          match m, rest with
          | [], [] => Ret (skipped ++ replacement)
          | [], c :: rest' =>
              tail <- replaceLoop re repl fuel' (Some c) rest' ;;
              Ret (skipped ++ replacement ++ c :: tail)
          | _ :: _, _ =>
              tail <- replaceLoop re repl fuel' (last_byte prev (skipped ++ m)) rest ;;
              Ret (skipped ++ replacement ++ tail)
          end
      end
  end.

Definition ReplaceAllStringFunc (re : regex) (src : bytes)
    (repl : bytes -> Prog bytes) : Prog bytes :=
  replaceLoop re repl (S (length src)) None src.

(** ** The client's operations *)

Definition resolveRelativePaths (c : Client) (prompt baseDir : bytes)
    : Prog (bytes * option error) :=
  result <- ReplaceAllStringFunc pathPattern prompt (fun match_ =>
    let match_ := TrimSpace match_ in
    if bytes_eqb match_ [] then Ret match_
    else if IsAbs match_ then Ret match_     (* skip if already absolute *)
    else
      let resolvedPath := filepath_Join [baseDir; match_] in
      let cleanPath := Clean resolvedPath in
      DebugWith (logger c) (str "Resolved relative path")
        [(str "original", vString match_); (str "resolved", vString cleanPath)] ;;
      Ret cleanPath) ;;
  Ret (result, None).

Section Library.

(** [unicode.To(LowerCase, r)] for [r > MaxASCII], and
    [time.Duration.String]: parts of the Go distribution. *)
Variable caseTable : Z -> Z.
Variable durationString : Duration -> bytes.

Definition runCommandWithTimeout (c : Client) (cmd : Cmd) (timeout : Duration)
    : Prog (bytes * option error) :=
  err <- trigger (Start cmd) ;;
  match err with
  | Some err => Ret ([], Some (Errorf_wrap ErrCommandStart err))
  | None =>
      (* wait for completion or timeout *)
      outcome <- trigger (WaitOrTimeout timeout) ;;
      match outcome with
      | Completed (Some err) stdout stderr =>
          let stdoutStr := TrimSpace stdout in
          let stderrStr := TrimSpace stderr in
          let combined := stdout ++ stderr in
          if detectAuthError caseTable combined then
            Ret ([], Some (Errorf ErrAuthFailed))
          else
            let errorMsg := str "command failed: " ++ errorText err in
            let errorMsg :=
              if negb (bytes_eqb stderrStr [])
              then errorMsg ++ str " | stderr: " ++ stderrStr else errorMsg in
            let errorMsg :=
              if negb (bytes_eqb stdoutStr [])
              then errorMsg ++ str " | stdout: " ++ stdoutStr else errorMsg in
            Ret ([], Some (Errorf errorMsg))
      | Completed None stdout _ => Ret (stdout, None)
      | TimerFired =>
          (* kill the process; the error of Kill is dropped *)
          trigger Kill ;;
          Ret ([], Some (Errorf (ErrCommandTimeout ++ str " after "
                                   ++ durationString timeout)))
      end
  end.

(** The first block of [Execute]: resolve relative paths if a working
    directory is set. *)
Definition resolvePrompt (c : Client) (prompt : bytes) : Prog bytes :=
  if negb (bytes_eqb (workingDirectory c) []) then
    '(currentDir, err) <- trigger Getwd ;;
    match err with
    | Some err =>
        WarnWith (logger c)
          (str "Failed to get current directory for path resolution")
          [(str "error", vError err)] ;;
        Ret prompt
    | None =>
        '(resolvedPrompt, err) <- resolveRelativePaths c prompt currentDir ;;
        match err with
        | Some err =>
            WarnWith (logger c) (str "Failed to resolve relative paths")
              [(str "error", vError err)] ;;
            Ret prompt
        | None => Ret resolvedPrompt
        end
    end
  else Ret prompt.

(** The block that sets [cmd.Dir]. *)
Definition setWorkingDirectory (c : Client) (cmd : Cmd) : Prog Cmd :=
  if negb (bytes_eqb (workingDirectory c) []) then
    let cmd := set_Dir cmd (workingDirectory c) in
    DebugWith (logger c) (str "Using configured working directory")
      [(str "dir", vString (Dir cmd))] ;;
    Ret cmd
  else
    '(dir, err) <- trigger Getwd ;;
    dir <- (match err, dir with
            | None, _ :: _ => Ret dir
            | _, _ =>
                home <- trigger (Getenv (str "HOME")) ;;
                match home with
                | [] =>
                    '(homeDir, err) <- trigger UserCurrentHomeDir ;;
                    match err with
                    | None => Ret homeDir
                    | Some _ => Ret home
                    end
                | _ :: _ => Ret home
                end
            end) ;;
    let cmd := set_Dir cmd dir in
    DebugWith (logger c) (str "Using current/default directory")
      [(str "dir", vString (Dir cmd))] ;;
    Ret cmd.

(** From the executable lookup to the end; [Execute] and
    [ExecuteWithTimeout] share these lines word for word. *)
Definition lookupRunParse (c : Client) (cmdArgs : list bytes) (timeout : Duration)
    : Prog (bytes * option error) :=
  '(geminiPath, err) <- trigger (LookPath (hd [] cmdArgs)) ;;
  match err with
  | Some err =>
      ErrorWith (logger c) (str "Failed to find gemini command")
        [(str "error", vError err)] ;;
      Ret ([], Some (Errorf_wrap (str "gemini command not found") err))
  | None =>
      DebugWith (logger c) (str "Using gemini path") [(str "path", vString geminiPath)] ;;
      let cmd := exec_Command geminiPath (tl cmdArgs) in
      cmd <- setWorkingDirectory c cmd ;;
      '(output, err) <- runCommandWithTimeout c cmd timeout ;;
      match err with
      | Some err =>
          ErrorWith (logger c) (str "Gemini command execution failed")
            [(str "error", vError err)] ;;
          Ret ([], Some (Errorf_wrap ErrCommandFailed err))
      | None =>
          let '(result, err) := parseGeminiOutput output in
          match err with
          | Some err =>
              ErrorWith (logger c) (str "Failed to parse Gemini output")
                [(str "error", vError err);
                 (str "output_length", vInt (Z.of_nat (length output)))] ;;
              Ret ([], Some (Errorf_wrap ErrParseOutput err))
          | None =>
              DebugWith (logger c) (str "Gemini command completed successfully")
                [(str "response_length", vInt (Z.of_nat (length result)))] ;;
              Ret (result, None)
          end
      end
  end.

Definition Execute (c : Client) (prompt : bytes) : Prog (bytes * option error) :=
  if bytes_eqb prompt [] then Ret ([], Some (Errorf ErrEmptyPrompt))
  else
    resolvedPrompt <- resolvePrompt c prompt ;;
    let cmdArgs := buildGeminiCommandWithModel c resolvedPrompt in
    DebugWith (logger c) (str "Executing Gemini command")
      [(str "command", vString (hd [] cmdArgs)); (str "args", vStrings (tl cmdArgs))] ;;
    lookupRunParse c cmdArgs (timeout c).

Definition ExecuteWithTimeout (c : Client) (prompt : bytes) (timeout : Duration)
    : Prog (bytes * option error) :=
  if bytes_eqb prompt [] then Ret ([], Some (Errorf ErrEmptyPrompt))
  else
    resolvedPrompt <- resolvePrompt c prompt ;;
    let cmdArgs := buildGeminiCommandWithModel c resolvedPrompt in
    DebugWith (logger c) (str "Executing Gemini command with timeout")
      [(str "command", vString (hd [] cmdArgs)); (str "args", vStrings (tl cmdArgs));
       (str "timeout", vDuration timeout)] ;;
    lookupRunParse c cmdArgs timeout.

(** [ValidateAvailable]. *)
Definition ValidateAvailable (c : Client) : Prog (option error) :=
  '(_, err) <- trigger (LookPath GeminiCommand) ;;
  match err with
  | Some err => Ret (Some (Errorf_wrap ErrCommandNotFound err))
  | None => Ret None
  end.

(** The package-level convenience functions. *)
Definition Execute_ (prompt : bytes) := Execute NewClient prompt.

Definition ExecuteWithTimeout_ (prompt : bytes) (timeout : Duration) :=
  ExecuteWithTimeout NewClient prompt timeout.

Definition DetectAuthError (output : bytes) : bool := detectAuthError caseTable output.

Definition ExecuteWithModel (prompt model : bytes) :=
  Execute (NewClientWithConfig
             {| ConfigLogger := None; Timeout := 0; Model := model;
                WorkingDirectory := [] |}) prompt.

Definition ExecuteWithModelAndTimeout (prompt model : bytes) (timeout : Duration) :=
  Execute (NewClientWithConfig
             {| ConfigLogger := None; Timeout := timeout; Model := model;
                WorkingDirectory := [] |}) prompt.

Definition ExecuteWithWorkingDirectory (prompt workingDirectory : bytes) :=
  Execute (NewClientWithConfig
             {| ConfigLogger := None; Timeout := 0; Model := [];
                WorkingDirectory := workingDirectory |}) prompt.

Definition ExecuteWithFullConfig (prompt model workingDirectory : bytes)
    (timeout : Duration) :=
  Execute (NewClientWithConfig
             {| ConfigLogger := None; Timeout := timeout; Model := model;
                WorkingDirectory := workingDirectory |}) prompt.

Definition ExecuteWithWorkingDirectoryAndTimeout (prompt workingDirectory : bytes)
    (timeout : Duration) :=
  Execute (NewClientWithConfig
             {| ConfigLogger := None; Timeout := timeout; Model := [];
                WorkingDirectory := workingDirectory |}) prompt.

(** *** How the runs of the runner and of [Execute] can go

    Told by what was started, awaited and killed, and by what is
    returned.  The runner: the start fails; or the timer fires and the
    process is killed; or the process ends with an error, which is
    reported as an authentication failure or with what it wrote; or it
    ends well and its standard output is returned. *)
Definition ran (cmd : Cmd) (t : Duration)
    (started : list (Cmd * option error))
    (waited : list (Duration * raceResult)) (killed : nat)
    (res : bytes * option error) : Prop :=
  (exists cause,
     started = [(cmd, Some cause)] /\ waited = [] /\ killed = 0%nat
     /\ res = ([], Some (Errorf_wrap ErrCommandStart cause)))
  \/ (started = [(cmd, None)] /\ waited = [(t, TimerFired)] /\ killed = 1%nat
      /\ res = ([], Some (Errorf (ErrCommandTimeout ++ str " after "
                                    ++ durationString t))))
  \/ (exists exit out errOut,
        started = [(cmd, None)]
        /\ waited = [(t, Completed (Some exit) out errOut)]
        /\ killed = 0%nat /\ fst res = []
        /\ if detectAuthError caseTable (out ++ errOut)
           then snd res = Some (Errorf ErrAuthFailed)
           else exists detail,
                  snd res = Some (Errorf (str "command failed: "
                                            ++ errorText exit ++ detail)))
  \/ (exists out errOut,
        started = [(cmd, None)] /\ waited = [(t, Completed None out errOut)]
        /\ killed = 0%nat /\ res = (out, None)).

(** The last lines of [Execute]: the runner's error is wrapped, its
    output is parsed. *)
Definition finishExecute (rres : bytes * option error) : bytes * option error :=
  match rres with
  | (_, Some err) => ([], Some (Errorf_wrap ErrCommandFailed err))
  | (output, None) =>
      match parseGeminiOutput output with
      | (_, Some err) => ([], Some (Errorf_wrap ErrParseOutput err))
      | (result, None) => (result, None)
      end
  end.

End Library.

(** [ParseGeminiOutput], the exported wrapper. *)
Definition ParseGeminiOutput (output : bytes) : bytes * option error :=
  parseGeminiOutput output.

(** ** Vocabulary of the sanitizer's specification *)

(** The test [filterGeminiOutput] applies to one line: it is kept when its
    trimmed text holds no filter pattern and is not empty. *)
Definition keepLine (line : bytes) : bool :=
  negb (matchesFilter filterPatterns (TrimSpace line))
  && negb (bytes_eqb (TrimSpace line) []).

(** A line is dropped when its trimmed content is empty or has a filter
    phrase as a substring. *)
Definition dropped (line : bytes) : Prop :=
  TrimSpace line = [] \/
  exists phrase a b, In phrase filterPatterns /\ TrimSpace line = a ++ phrase ++ b.

(** The lines of a text that survive filtering, in their order. *)
Definition survivors (text : bytes) : list bytes :=
  filter keepLine (Split text newline).

(** What the closing [TrimSpace] does to the surviving lines: the first
    one loses its leading white space and the last one its trailing white
    space. *)
Fixpoint trimLast (lines : list bytes) : list bytes :=
  match lines with
  | [] => []
  | [l] => [TrimRight l]
  | l :: rest => l :: trimLast rest
  end.

Definition trimEnds (lines : list bytes) : list bytes :=
  match lines with
  | [] => []
  | [l] => [TrimSpace l]
  | l :: rest => TrimLeft l :: trimLast rest
  end.

(** ** Vocabulary of the path resolver's specification *)

(** What a regular expression matches, read off its syntax: [Matches r
    prev m rest] says that [r] matches the bytes [m] when the byte before
    them is [prev] (if any) and [rest] follows. *)
Inductive Matches : regex -> option ascii -> bytes -> bytes -> Prop :=
| Matches_Lit l prev rest : Matches (Lit l) prev l rest
| Matches_Concat r1 r2 prev m1 m2 rest :
    Matches r1 prev m1 (m2 ++ rest) ->
    Matches r2 (last_byte prev m1) m2 rest ->
    Matches (Concat r1 r2) prev (m1 ++ m2) rest
| Matches_Left r1 r2 prev m rest :
    Matches r1 prev m rest -> Matches (Alternate r1 r2) prev m rest
| Matches_Right r1 r2 prev m rest :
    Matches r2 prev m rest -> Matches (Alternate r1 r2) prev m rest
| Matches_Star cls prev m rest :
    Forall (fun c => cls c = true) m -> Matches (StarClass cls) prev m rest
| Matches_Plus cls prev m rest :
    m <> [] -> Forall (fun c => cls c = true) m ->
    Matches (PlusClass cls) prev m rest
| Matches_WordBoundary prev rest :
    xorb (isWordBefore prev) (isWordAfter rest) = true ->
    Matches WordBoundary prev [] rest.

(** A path-like token: [./x] or [../x] with [x] one or more path-safe
    bytes, or path-safe bytes ending in a dot and a recognized extension
    that no word character follows. *)
Definition pathSafe (t : bytes) : Prop := Forall (fun c => pathChar c = true) t.

Definition explicitRelative (m : bytes) : Prop :=
  exists t, (m = str "./" ++ t \/ m = str "../" ++ t) /\ t <> [] /\ pathSafe t.

Definition bareFile (m : bytes) : Prop :=
  exists t e, m = t ++ dot :: e /\ pathSafe t /\ In e extensions.

Definition pathLike (m rest : bytes) : Prop :=
  explicitRelative m \/ (bareFile m /\ isWordAfter rest = false).

(** A prompt cut into stretches of plain text and tokens. *)
Inductive piece : Type :=
| Text (t : bytes)
| Token (m : bytes).

Definition pieceText (p : piece) : bytes :=
  match p with Text t => t | Token m => m end.

(** One left-to-right pass: each token is a path-like token where it
    stands, no path-like token starts in the text before it or in the
    text after the last one, and no longer path-like token starts where
    it starts.  The pass goes on behind the token. *)
Inductive Scanned : bytes -> list piece -> Prop :=
| Scanned_end s :
    (forall a m b, s = a ++ m ++ b -> ~ pathLike m b) ->
    Scanned s [Text s]
| Scanned_token g m rest ps :
    pathLike m rest ->
    (forall a m' b, g ++ m ++ rest = a ++ m' ++ b ->
                    (length a < length g)%nat -> ~ pathLike m' b) ->
    (forall m' b, m ++ rest = m' ++ b -> pathLike m' b ->
                  (length m' <= length m)%nat) ->
    Scanned rest ps ->
    Scanned (g ++ m ++ rest) (Text g :: Token m :: ps).

(** The cut the replacement loop makes with [pathPattern]: the text
    skipped and the match, again and again. *)
Fixpoint cutPieces (fuel : nat) (prev : option ascii) (src : bytes) : list piece :=
  match fuel with
  | O => [Text src]
  | S fuel' =>
      match findMatch pathPattern prev src with
      | None => [Text src]
      | Some (skipped, m, rest) =>
          Text skipped :: Token m
            :: cutPieces fuel' (last_byte prev (skipped ++ m)) rest
      end
  end.

(** What becomes of a piece: text stays, an absolute token stays, any
    other token becomes the cleaned join of the base directory and
    itself. *)
Definition normalizedJoin (baseDir m : bytes) : bytes :=
  Clean (filepath_Join [baseDir; m]).

Definition rewritten (baseDir : bytes) (p : piece) : bytes :=
  match p with
  | Text t => t
  | Token m => if IsAbs m then m else normalizedJoin baseDir m
  end.

(** The value the callback of [resolveRelativePaths] returns. *)
Definition resolveMatch (baseDir match_ : bytes) : bytes :=
  let match_ := TrimSpace match_ in
  if bytes_eqb match_ [] then match_
  else if IsAbs match_ then match_
  else Clean (filepath_Join [baseDir; match_]).

(** [replaceLoop] for a callback without effects. *)
Fixpoint replaceAll (re : regex) (f : bytes -> bytes) (fuel : nat)
    (prev : option ascii) (src : bytes) : bytes :=
  match fuel with
  | O => src
  | S fuel' =>
      match findMatch re prev src with
      | None => src
      | Some (skipped, m, rest) =>
          match m, rest with
          | [], [] => skipped ++ f m
          | [], c :: rest' =>
              skipped ++ f m ++ c :: replaceAll re f fuel' (Some c) rest'
          | _ :: _, _ =>
              skipped ++ f m
                ++ replaceAll re f fuel' (last_byte prev (skipped ++ m)) rest
          end
      end
  end.

(** ** The remaining exported wrappers *)

(** [BuildGeminiCommand]: the command without a model. *)
Definition BuildGeminiCommand (prompt : bytes) : list bytes :=
  buildGeminiCommand NewClient prompt.

(** [ValidateAvailable], the package-level function. *)
Definition ValidateAvailable_ : Prog (option error) := ValidateAvailable NewClient.

(** ** Vocabulary for runs *)

(** The calls a run adds to the history it starts from. *)
Definition calls {A : Type} (world : Oracle) (history : list Call) (p : Prog A)
    : list Call :=
  skipn (length history) (fst (run world history p)).

(** [always p P]: whatever the world answers, the calls [p] makes and the
    value it returns satisfy [P]. *)
Fixpoint always {A : Type} (p : Prog A) (P : list Call -> A -> Prop) : Prop :=
  match p with
  | Ret a => P [] a
  | Vis e k => forall x, always (k x) (fun tr a => P (call e x :: tr) a)
  end.

(** The calls of one kind in a list of calls, with the world's answers. *)
Definition lookupOf (c : Call) : list (bytes * (bytes * option error)) :=
  match c with
  | call e x =>
      match e in Event T return T -> list (bytes * (bytes * option error)) with
      | LookPath file => fun ans => [(file, ans)]
      | _ => fun _ => []
      end x
  end.

Definition getwdOf (c : Call) : list (bytes * option error) :=
  match c with
  | call e x =>
      match e in Event T return T -> list (bytes * option error) with
      | Getwd => fun ans => [ans]
      | _ => fun _ => []
      end x
  end.

Definition getenvOf (c : Call) : list (bytes * bytes) :=
  match c with
  | call e x =>
      match e in Event T return T -> list (bytes * bytes) with
      | Getenv key => fun ans => [(key, ans)]
      | _ => fun _ => []
      end x
  end.

Definition homeDirOf (c : Call) : list (bytes * option error) :=
  match c with
  | call e x =>
      match e in Event T return T -> list (bytes * option error) with
      | UserCurrentHomeDir => fun ans => [ans]
      | _ => fun _ => []
      end x
  end.

Definition startOf (c : Call) : list (Cmd * option error) :=
  match c with
  | call e x =>
      match e in Event T return T -> list (Cmd * option error) with
      | Start cmd => fun err => [(cmd, err)]
      | _ => fun _ => []
      end x
  end.

Definition waitOf (c : Call) : list (Duration * raceResult) :=
  match c with
  | call e x =>
      match e in Event T return T -> list (Duration * raceResult) with
      | WaitOrTimeout t => fun outcome => [(t, outcome)]
      | _ => fun _ => []
      end x
  end.

Definition killOf (c : Call) : list unit :=
  match c with
  | call e _ => match e with Kill => [tt] | _ => [] end
  end.

Definition logOf (c : Call)
    : list (nat * logLevel * bytes * list (bytes * logValue)) :=
  match c with
  | call e _ =>
      match e with
      | Log id level msg kvs => [(id, level, msg, kvs)]
      | _ => []
      end
  end.

Definition lookups (tr : list Call) := flat_map lookupOf tr.
Definition getwds (tr : list Call) := flat_map getwdOf tr.
Definition getenvs (tr : list Call) := flat_map getenvOf tr.
Definition homeDirs (tr : list Call) := flat_map homeDirOf tr.
Definition starts (tr : list Call) := flat_map startOf tr.
Definition waits (tr : list Call) := flat_map waitOf tr.
Definition kills (tr : list Call) : nat := length (flat_map killOf tr).
Definition logs (tr : list Call) := flat_map logOf tr.

(** A call that is not a log line. *)
Definition notLog (c : Call) : bool :=
  match c with
  | call e _ => match e with Log _ _ _ _ => false | _ => true end
  end.

(** Two programs that differ in their log lines only. *)
Inductive upToLogs {A : Type} : Prog A -> Prog A -> Prop :=
| upToLogs_Ret a : upToLogs (Ret a) (Ret a)
| upToLogs_left id level msg kvs k q :
    upToLogs (k tt) q -> upToLogs (Vis (Log id level msg kvs) k) q
| upToLogs_right id level msg kvs p k :
    upToLogs p (k tt) -> upToLogs p (Vis (Log id level msg kvs) k)
| upToLogs_Vis X (e : Event X) k k' :
    (forall x, upToLogs (k x) (k' x)) -> upToLogs (Vis e k) (Vis e k').

(** A world whose answers do not depend on the log lines written so
    far. *)
Definition ignoresLogs (world : Oracle) : Prop :=
  forall X history (e : Event X),
    world X history e = world X (filter notLog history) e.

(** A world for examples: the lookup of the executable and the race end
    as given, the current directory is [/work], the home directory
    [/home/user], and the process starts. *)
Definition scriptedWorld (lookup : bytes * option error) (race : raceResult)
    : Oracle :=
  fun X _ e =>
    match e in Event T return T with
    | Log _ _ _ _ => tt
    | Getwd => (str "/work", None)
    | LookPath _ => lookup
    | Getenv _ => str "/home/user"
    | UserCurrentHomeDir => (str "/home/user", None)
    | Start _ => None
    | WaitOrTimeout _ => race
    | Kill => tt
    end.

(** The prompt with its path-like tokens resolved against [baseDir]: the
    value [resolveRelativePaths] returns. *)
Definition resolved (baseDir prompt : bytes) : bytes :=
  replaceAll pathPattern (resolveMatch baseDir) (S (length prompt)) None prompt.

(** ** Vocabulary for texts *)

(** [Subseq s t]: [s] is [t] with some bytes deleted. *)
Inductive Subseq : bytes -> bytes -> Prop :=
| Subseq_nil : Subseq [] []
| Subseq_skip c s t : Subseq s t -> Subseq s (c :: t)
| Subseq_take c s t : Subseq s t -> Subseq (c :: s) (c :: t).

(** A phrase whose first and last byte occur in no white-space encoding:
    an occurrence of it lies clear of the white space around a line. *)
Definition solidEnds (phrase : bytes) : bool :=
  match phrase with
  | [] => false
  | c :: _ =>
      forallb (fun p => negb (existsb (Ascii.eqb c) p)
                        && negb (existsb (Ascii.eqb (last phrase c)) p))
              spaceEncodings
  end.
(** What the first block of [Execute] leaves behind, with the debug line
    that follows it: calls [pre] and the prompt [rp] handed on.  Nothing
    is looked up, started, awaited or killed; the current directory is
    asked for exactly when a working directory is configured, and then
    the prompt is resolved against the answer, or kept if there is
    none. *)
Definition promptResolved (c : Client) (prompt : bytes) (pre : list Call)
    (rp : bytes) : Prop :=
  lookups pre = [] /\ getenvs pre = [] /\ homeDirs pre = []
  /\ starts pre = [] /\ waits pre = [] /\ kills pre = 0%nat
  /\ (workingDirectory c = [] -> getwds pre = [] /\ rp = prompt)
  /\ (workingDirectory c <> [] ->
      exists cwd err,
        getwds pre = [(cwd, err)]
        /\ rp = match err with
                | None => resolved cwd prompt
                | Some _ => prompt
                end).

(** The one kind of call [resolveRelativePaths] makes: the debug line for
    a token it rewrites, through the client's logger. *)
Definition resolveLogLine (c : Client) (baseDir : bytes) (entry : Call) : Prop :=
  exists id m,
    logger c = UserLogger id /\ IsAbs m = false
    /\ entry = call (Log id LevelDebug (str "Resolved relative path")
                       [(str "original", vString m);
                        (str "resolved", vString (Clean (filepath_Join [baseDir; m])))])
                    tt.

(** The directory the block that sets [cmd.Dir] arrives at, told by the
    questions it asked: the configured one without a question; otherwise
    the current directory, or [$HOME] if that is not to be had, or the
    user's home directory if [$HOME] is empty, or nothing. *)
Definition dirChosen (c : Client) (asked : list (bytes * option error))
    (env : list (bytes * bytes)) (homes : list (bytes * option error))
    (dir : bytes) : Prop :=
  if bytes_eqb (workingDirectory c) [] then
    exists d e,
      asked = [(d, e)]
      /\ ((e = None /\ d <> [] /\ dir = d /\ env = [] /\ homes = [])
          \/ ((e <> None \/ d = [])
              /\ exists home,
                   env = [(str "HOME", home)]
                   /\ ((home <> [] /\ dir = home /\ homes = [])
                       \/ (home = []
                           /\ exists userHome e',
                                homes = [(userHome, e')]
                                /\ dir = match e' with
                                         | None => userHome
                                         | Some _ => []
                                         end))))
  else asked = [] /\ env = [] /\ homes = [] /\ dir = workingDirectory c.

(** [Execute] from the lookup of the executable on: the lookup fails and
    nothing else happens; or the command is built from the path found,
    given its directory and run, and the outcome of the run is wrapped or
    parsed. *)
Definition lookedUpAndRan (caseTable : Z -> Z) (durationString : Duration -> bytes)
    (c : Client) (cmdArgs : list bytes) (t : Duration)
    (tr : list Call) (res : bytes * option error) : Prop :=
  exists path lerr,
    lookups tr = [(hd [] cmdArgs, (path, lerr))]
    /\ match lerr with
       | Some cause =>
           getwds tr = [] /\ getenvs tr = [] /\ homeDirs tr = []
           /\ starts tr = [] /\ waits tr = [] /\ kills tr = 0%nat
           /\ res = ([], Some (Errorf_wrap (str "gemini command not found") cause))
       | None =>
           exists cmd rres,
             Path cmd = path /\ Args cmd = path :: tl cmdArgs
             /\ dirChosen c (getwds tr) (getenvs tr) (homeDirs tr) (Dir cmd)
             /\ ran caseTable durationString cmd t
                    (starts tr) (waits tr) (kills tr) rres
             /\ res = finishExecute rres
       end.

(** ** The buffer of [filepath.Clean] *)

(** The buffer of a rooted path starts with the separator (it is held
    reversed); the buffer of any other path does not. *)
Definition rootedBuffer (rooted : bool) (out : bytes) : Prop :=
  if rooted then exists x, out = x ++ [Separator]
  else out = [] \/ exists x c, out = x ++ [c] /\ IsPathSeparator c = false.

(* ===================================================================== *)
(** * Part II: properties                                                 *)
(* ===================================================================== *)

(** ** Bytes and prefixes *)

Lemma bytes_eqb_eq (a b : bytes) : bytes_eqb a b = true <-> a = b.
Proof.
  revert b; induction a as [|x a IH]; intros [|y b]; simpl.
  - tauto.
  - split; discriminate.
  - split; discriminate.
  - rewrite andb_true_iff, Ascii.eqb_eq, IH. split.
    + intros [-> ->]. reflexivity.
    + intros [= -> ->]. auto.
Qed.

Lemma bytes_eqb_nil (a : bytes) : bytes_eqb a [] = true <-> a = [].
Proof. apply bytes_eqb_eq. Qed.

Lemma bytes_eqb_nil_false (a : bytes) : bytes_eqb a [] = false <-> a <> [].
Proof.
  split; intros H.
  - intros ->. discriminate.
  - destruct a; [congruence | reflexivity].
Qed.

Lemma CutPrefix_Some (s p r : bytes) : CutPrefix s p = Some r <-> s = p ++ r.
Proof.
  revert s; induction p as [|c p IH]; intros s; simpl.
  - split; [intros [= ->] | intros ->]; reflexivity.
  - destruct s as [|d s]; [split; discriminate|].
    destruct (Ascii.eqb_spec d c) as [->|Hne].
    + rewrite IH. split; [intros -> | intros [= ->]]; reflexivity.
    + split; [discriminate | intros [= -> _]; congruence].
Qed.

Lemma CutPrefix_app (p r : bytes) : CutPrefix (p ++ r) p = Some r.
Proof. apply CutPrefix_Some. reflexivity. Qed.

Lemma HasPrefix_true (s p : bytes) : HasPrefix s p = true <-> exists r, s = p ++ r.
Proof.
  unfold HasPrefix. destruct (CutPrefix s p) as [r|] eqn:E.
  - apply CutPrefix_Some in E. split; eauto.
  - split; [discriminate|]. intros [r Hr]. apply CutPrefix_Some in Hr. congruence.
Qed.

(** [Contains] is the substring relation. *)
Lemma Contains_true (s sub : bytes) :
  Contains s sub = true <-> exists a b, s = a ++ sub ++ b.
Proof.
  induction s as [|c s IH].
  - simpl. rewrite orb_false_r, HasPrefix_true. split.
    + intros [r Hr]. exists [], r. exact Hr.
    + intros (a & b & H). destruct a; simpl in H.
      * eauto.
      * discriminate.
  - simpl. rewrite orb_true_iff, HasPrefix_true, IH. split.
    + intros [[r Hr]|(a & b & H)].
      * exists [], r. exact Hr.
      * exists (c :: a), b. simpl. congruence.
    + intros (a & b & H). destruct a as [|d a]; simpl in H.
      * left. eauto.
      * right. injection H as _ H. eauto.
Qed.

Lemma cutAny_Some (P : list bytes) (s r : bytes) :
  cutAny P s = Some r -> exists p, In p P /\ s = p ++ r.
Proof.
  induction P as [|p P IH]; simpl; [discriminate|].
  destruct (CutPrefix s p) as [r'|] eqn:E.
  - intros [= ->]. apply CutPrefix_Some in E. eauto.
  - intros H. destruct (IH H) as (q & Hq & Hs). eauto.
Qed.

Lemma cutAny_None (P : list bytes) (s : bytes) :
  cutAny P s = None -> forall p r, In p P -> s <> p ++ r.
Proof.
  induction P as [|p P IH]; simpl; [tauto|].
  destruct (CutPrefix s p) as [r'|] eqn:E; [discriminate|].
  intros H q r [<-|Hq] Hs.
  - apply CutPrefix_Some in Hs. congruence.
  - exact (IH H q r Hq Hs).
Qed.

(** ** Stripping patterns from the front

    The facts hold for any set of non-empty patterns none of which is a
    prefix of another; they are used for the white-space encodings read
    forwards ([TrimLeft]) and backwards ([TrimRight]). *)

Lemma blank_app (P : list bytes) (a b : bytes) :
  blank P a -> blank P b -> blank P (a ++ b).
Proof.
  induction 1; intros Hb; simpl; [assumption|].
  rewrite <- app_assoc. constructor; auto.
Qed.

Lemma blank_one (P : list bytes) (p : bytes) : In p P -> blank P p.
Proof.
  intros H. rewrite <- (app_nil_r p). constructor; [assumption | constructor].
Qed.

Lemma blank_rev (P : list bytes) (a : bytes) :
  blank P a -> blank (map (@rev ascii) P) (rev a).
Proof.
  induction 1; simpl; [constructor|].
  rewrite rev_app_distr. apply blank_app; [assumption|].
  apply blank_one. apply in_map. assumption.
Qed.

Section Stripping.

Variable P : list bytes.
Hypothesis P_nonempty : forall p, In p P -> p <> [].
Hypothesis P_prefix_free :
  forall p q x, In p P -> In q P -> q = p ++ x -> x = [].

Lemma cutAny_app (p r : bytes) : In p P -> cutAny P (p ++ r) = Some r.
Proof.
  intros Hp. destruct (cutAny P (p ++ r)) as [r'|] eqn:E.
  - apply cutAny_Some in E as (q & Hq & Hs).
    apply app_eq_app in Hs as [m [[Hpq Hr]|[Hqp Hr]]].
    + pose proof (P_prefix_free _ _ _ Hq Hp Hpq) as ->.
      simpl in Hr. congruence.
    + pose proof (P_prefix_free _ _ _ Hp Hq Hqp) as ->.
      simpl in Hr. congruence.
  - exfalso. exact (cutAny_None _ _ E _ _ Hp eq_refl).
Qed.

Lemma cutAny_shorter (s r : bytes) :
  cutAny P s = Some r -> (length r < length s)%nat.
Proof.
  intros H. apply cutAny_Some in H as (p & Hp & ->).
  rewrite length_app. pose proof (P_nonempty _ Hp) as Hne.
  destruct p; [congruence | simpl; lia].
Qed.

Lemma trimLoop_enough (fuel : nat) (s : bytes) :
  (length s <= fuel)%nat -> trimLoop P fuel s = trimPrefixes P s.
Proof.
  unfold trimPrefixes.
  remember (length s) as n eqn:Hn.
  revert s Hn fuel. induction n as [n IH] using lt_wf_ind.
  intros s Hn fuel Hfuel.
  destruct fuel as [|fuel]; destruct n as [|n]; simpl; try lia.
  - reflexivity.
  - destruct s; [|discriminate]. simpl.
    destruct (cutAny P []) as [r|] eqn:E; [|reflexivity].
    apply cutAny_shorter in E. simpl in E. lia.
  - destruct (cutAny P s) as [r|] eqn:E; [|reflexivity].
    pose proof (cutAny_shorter _ _ E) as Hr.
    assert (Hlt : (length r < S n)%nat) by lia.
    rewrite (IH (length r) Hlt r eq_refl fuel) by lia.
    rewrite (IH (length r) Hlt r eq_refl n) by lia.
    reflexivity.
Qed.

(** The loop, unfolded once. *)
Lemma trim_unfold (s : bytes) :
  trimPrefixes P s =
  match cutAny P s with Some r => trimPrefixes P r | None => s end.
Proof.
  unfold trimPrefixes at 1. destruct s as [|c s].
  - simpl. destruct (cutAny P []) as [r|] eqn:E; [|reflexivity].
    apply cutAny_shorter in E. simpl in E. lia.
  - cbn [length trimLoop]. destruct (cutAny P (c :: s)) as [r|] eqn:E; [|reflexivity].
    apply trimLoop_enough. apply cutAny_shorter in E. simpl in E. lia.
Qed.

Lemma trim_cons (p s : bytes) :
  In p P -> trimPrefixes P (p ++ s) = trimPrefixes P s.
Proof. intros Hp. rewrite trim_unfold, cutAny_app by assumption. reflexivity. Qed.

Lemma trim_blank (a s : bytes) :
  blank P a -> trimPrefixes P (a ++ s) = trimPrefixes P s.
Proof.
  induction 1; simpl; [reflexivity|].
  rewrite <- app_assoc, trim_cons by assumption. assumption.
Qed.

Lemma trim_none (s : bytes) : cutAny P s = None -> trimPrefixes P s = s.
Proof. intros H. rewrite trim_unfold, H. reflexivity. Qed.

(** What is stripped is a concatenation of patterns, and no pattern
    starts what is left. *)
Lemma trim_split (s : bytes) :
  exists a, blank P a /\ s = a ++ trimPrefixes P s
            /\ cutAny P (trimPrefixes P s) = None.
Proof.
  remember (length s) as n eqn:Hn.
  revert s Hn. induction n as [n IH] using lt_wf_ind. intros s Hn.
  rewrite trim_unfold. destruct (cutAny P s) as [r|] eqn:E.
  - pose proof (cutAny_shorter _ _ E) as Hr.
    apply cutAny_Some in E as (p & Hp & ->).
    destruct (IH (length r) ltac:(lia) r eq_refl) as (a & Ha & Hs & Hnone).
    exists (p ++ a). split; [constructor; assumption|]. split; [|assumption].
    rewrite <- app_assoc. congruence.
  - exists []. split; [constructor|]. split; [reflexivity | assumption].
Qed.

Lemma trim_stable (s : bytes) : cutAny P (trimPrefixes P s) = None.
Proof. destruct (trim_split s) as (a & _ & _ & H). exact H. Qed.

Lemma trim_idem (s : bytes) : trimPrefixes P (trimPrefixes P s) = trimPrefixes P s.
Proof. apply trim_none, trim_stable. Qed.

Lemma trim_nil : trimPrefixes P [] = [].
Proof. reflexivity. Qed.

(** A string that is left alone stays so when a byte that occurs in no
    pattern (but as a pattern by itself) is put behind it. *)
Lemma trim_app_sep (sep : ascii) (u x : bytes) :
  (forall p, In p P -> p = [sep] \/ ~ In sep p) ->
  trimPrefixes P u <> [] ->
  trimPrefixes P (u ++ sep :: x) = trimPrefixes P u ++ sep :: x.
Proof.
  intros Hsep Hne.
  destruct (trim_split u) as (a & Ha & Hu & Hnone).
  set (v := trimPrefixes P u) in *.
  rewrite Hu at 1. rewrite <- app_assoc, trim_blank by assumption.
  apply trim_none.
  destruct (cutAny P (v ++ sep :: x)) as [r|] eqn:E; [|reflexivity].
  exfalso. apply cutAny_Some in E as (p & Hp & Hs).
  apply app_eq_app in Hs as [m [[Hv Hr]|[Hpv Hr]]].
  - exact (cutAny_None _ _ Hnone _ _ Hp Hv).
  - destruct m as [|c m].
    + rewrite app_nil_r in Hpv. subst p.
      apply (cutAny_None _ _ Hnone v [] Hp). symmetry. apply app_nil_r.
    + injection Hr as <- _.
      destruct (Hsep p Hp) as [Hp1|Hp1].
      * subst p. destruct v as [|d v]; [congruence|].
        destruct v; discriminate.
      * apply Hp1. rewrite Hpv. apply in_or_app. right. left. reflexivity.
Qed.

(** Whatever occurs in the result occurred in the argument. *)
Lemma trim_incl (s : bytes) (c : ascii) : In c (trimPrefixes P s) -> In c s.
Proof.
  destruct (trim_split s) as (a & _ & Hs & _). intros H.
  rewrite Hs. apply in_or_app. auto.
Qed.

End Stripping.

(** ** The side conditions, from their boolean checks *)

Lemma pats_nonempty_ok (P : list bytes) :
  pats_nonempty P = true -> forall p, In p P -> p <> [].
Proof.
  unfold pats_nonempty. rewrite forallb_forall. intros H p Hp.
  specialize (H p Hp). apply negb_true_iff, bytes_eqb_nil_false in H. exact H.
Qed.

Lemma pats_prefix_free_ok (P : list bytes) :
  pats_prefix_free P = true ->
  forall p q x, In p P -> In q P -> q = p ++ x -> x = [].
Proof.
  unfold pats_prefix_free. rewrite forallb_forall. intros H p q x Hp Hq Hx.
  specialize (H p Hp). rewrite forallb_forall in H. specialize (H q Hq).
  apply orb_true_iff in H as [H|H].
  - apply negb_true_iff in H.
    assert (HasPrefix q p = true) by (apply HasPrefix_true; eauto). congruence.
  - apply bytes_eqb_eq in H. subst q.
    apply (app_inv_head p). rewrite app_nil_r. symmetry. exact Hx.
Qed.

Lemma pats_no_overlap_ok (P : list bytes) :
  pats_no_overlap P = true ->
  forall p q a y b, In p P -> In q P ->
    p = a ++ y -> q = y ++ b -> a <> [] -> y <> [] -> False.
Proof.
  unfold pats_no_overlap. rewrite forallb_forall.
  intros H p q a y b Hp Hq Hpa Hqy Ha Hy.
  specialize (H p Hp). rewrite forallb_forall in H. specialize (H q Hq).
  rewrite forallb_forall in H. specialize (H (length a)).
  assert (Hin : In (length a) (seq 1 (length p - 1))).
  { apply in_seq. subst p. rewrite length_app.
    destruct a; [congruence|]. destruct y; [congruence|]. simpl. lia. }
  specialize (H Hin). apply negb_true_iff in H.
  assert (Hpre : HasPrefix q (skipn (length a) p) = true).
  { apply HasPrefix_true. exists b. subst p.
    rewrite skipn_app, Nat.sub_diag, skipn_all. simpl. exact Hqy. }
  congruence.
Qed.

Lemma pats_sep_ok (sep : ascii) (P : list bytes) :
  pats_sep sep P = true -> forall p, In p P -> p = [sep] \/ ~ In sep p.
Proof.
  unfold pats_sep. rewrite forallb_forall. intros H p Hp.
  specialize (H p Hp). apply orb_true_iff in H as [H|H].
  - left. apply bytes_eqb_eq. exact H.
  - right. intros Hin. apply negb_true_iff in H.
    assert (existsb (Ascii.eqb sep) p = true).
    { apply existsb_exists. exists sep. split; [assumption|apply Ascii.eqb_refl]. }
    congruence.
Qed.

(** ** Stripping from both ends *)

Section TwoEnds.

Variable P : list bytes.
Let Q := map (@rev ascii) P.

Hypothesis P_nonempty : forall p, In p P -> p <> [].
Hypothesis P_prefix_free :
  forall p q x, In p P -> In q P -> q = p ++ x -> x = [].
Hypothesis Q_prefix_free :
  forall p q x, In p Q -> In q Q -> q = p ++ x -> x = [].
Hypothesis P_no_overlap :
  forall p q a y b, In p P -> In q P ->
    p = a ++ y -> q = y ++ b -> a <> [] -> y <> [] -> False.

Let L (s : bytes) : bytes := trimPrefixes P s.
Let R (s : bytes) : bytes := rev (trimPrefixes Q (rev s)).

Lemma Q_nonempty : forall q, In q Q -> q <> [].
Proof.
  intros q Hq. apply in_map_iff in Hq as (p & <- & Hp).
  intros H. apply (P_nonempty _ Hp).
  apply (f_equal (@rev ascii)) in H. rewrite rev_involutive in H. exact H.
Qed.

Lemma in_Q (p : bytes) : In p P -> In (rev p) Q.
Proof. apply in_map. Qed.

Lemma R_snoc (s p : bytes) : In p P -> R (s ++ p) = R s.
Proof.
  intros Hp. unfold R. rewrite rev_app_distr.
  rewrite (trim_cons Q Q_nonempty Q_prefix_free) by (apply in_Q; assumption).
  reflexivity.
Qed.

Lemma R_none (s : bytes) : cutAny Q (rev s) = None -> R s = s.
Proof.
  intros H. unfold R. rewrite (trim_none Q Q_nonempty) by assumption.
  apply rev_involutive.
Qed.

Lemma R_split (s : bytes) :
  exists b, blank P b /\ s = R s ++ b /\ cutAny Q (rev (R s)) = None.
Proof.
  destruct (trim_split Q Q_nonempty (rev s)) as (a & Ha & Hs & Hnone).
  exists (rev a). split; [|split].
  - apply blank_rev in Ha. unfold Q in Ha. rewrite map_map in Ha.
    rewrite (map_ext _ (fun x => x)) in Ha by (intros; apply rev_involutive).
    rewrite map_id in Ha. exact Ha.
  - unfold R. rewrite <- rev_app_distr, <- Hs. symmetry. apply rev_involutive.
  - unfold R. rewrite rev_involutive. exact Hnone.
Qed.

Lemma cutAny_Q_Some (s t : bytes) :
  cutAny Q (rev s) = Some t -> exists q, In q P /\ s = rev t ++ q.
Proof.
  intros H. apply cutAny_Some in H as (q' & Hq' & Hs).
  apply in_map_iff in Hq' as (q & <- & Hq).
  exists q. split; [assumption|].
  apply (f_equal (@rev ascii)) in Hs.
  rewrite rev_involutive, rev_app_distr, rev_involutive in Hs. exact Hs.
Qed.

Lemma cutAny_Q_None (s : bytes) :
  cutAny Q (rev s) = None -> forall q x, In q P -> s <> x ++ q.
Proof.
  intros H q x Hq Hs.
  apply (cutAny_None _ _ H (rev q) (rev x) (in_Q _ Hq)).
  rewrite Hs. apply rev_app_distr.
Qed.

(** Stripping the front and stripping the back commute. *)
Lemma L_R_comm (s : bytes) : L (R s) = R (L s).
Proof.
  remember (length s) as n eqn:Hn.
  revert s Hn. induction n as [n IH] using lt_wf_ind. intros s Hn.
  destruct (cutAny P s) as [s1|] eqn:E1.
  - apply cutAny_Some in E1 as (p & Hp & Hs1).
    destruct (cutAny Q (rev s)) as [t|] eqn:E2.
    + apply cutAny_Q_Some in E2 as (q & Hq & Hs2).
      set (s2 := rev t) in *.
      assert (Hmid : (exists m, s = p ++ m ++ q) \/ (s1 = [] /\ s2 = [])).
      { rewrite Hs1 in Hs2. apply app_eq_app in Hs2 as [m [[Hpm Hqm]|[Hsm Hsq]]].
        - destruct m as [|c m].
          + left. exists []. rewrite app_nil_r in Hpm. simpl in Hqm. subst. reflexivity.
          + destruct s2 as [|d s2].
            * right. simpl in Hpm.
              pose proof (P_prefix_free _ _ _ Hp Hq (eq_trans Hqm (f_equal (fun z => z ++ s1) (eq_sym Hpm)))) as H1.
              auto.
            * exfalso. apply (P_no_overlap p q (d :: s2) (c :: m) s1 Hp Hq Hpm Hqm);
                discriminate.
        - left. exists m. subst. reflexivity. }
      destruct Hmid as [[m Hm]|[H1 H2]].
      * assert (Hq0 : q <> []) by (apply P_nonempty; assumption).
        assert (Hp0 : p <> []) by (apply P_nonempty; assumption).
        assert (HRs : R s = R (p ++ m)).
        { rewrite Hm, app_assoc. apply R_snoc. assumption. }
        assert (HLs : L s = L (m ++ q)).
        { rewrite Hm. apply trim_cons; assumption. }
        rewrite HRs, HLs.
        assert (Hl1 : (length (p ++ m) < n)%nat).
        { subst n. rewrite Hm, !length_app. destruct q; [congruence | simpl; lia]. }
        assert (Hl2 : (length (m ++ q) < n)%nat).
        { subst n. rewrite Hm, !length_app. destruct p; [congruence | simpl; lia]. }
        assert (Hl3 : (length m < n)%nat).
        { rewrite length_app in Hl2. lia. }
        rewrite (IH _ Hl1 (p ++ m) eq_refl).
        rewrite <- (IH _ Hl2 (m ++ q) eq_refl).
        unfold L at 1. rewrite trim_cons by assumption. fold (L m).
        rewrite R_snoc by assumption.
        symmetry. apply (IH _ Hl3 m eq_refl).
      * subst s1. rewrite app_nil_r in Hs1. rewrite H2 in Hs2. simpl in Hs2.
        assert (HL : L s = []).
        { rewrite Hs1, <- (app_nil_r p). unfold L. rewrite trim_cons by assumption.
          reflexivity. }
        assert (HR : R s = []).
        { rewrite Hs2. change q with ([] ++ q). rewrite R_snoc by assumption.
          reflexivity. }
        rewrite HL, HR. reflexivity.
    + rewrite (R_none _ E2).
      destruct (trim_split P P_nonempty s) as (a & Ha & Hs & _).
      fold (L s) in Hs. symmetry. apply R_none.
      destruct (cutAny Q (rev (L s))) as [t|] eqn:E3; [|reflexivity].
      exfalso. apply cutAny_Q_Some in E3 as (q & Hq & Hq').
      apply (cutAny_Q_None _ E2 q (a ++ rev t) Hq).
      rewrite <- app_assoc, <- Hq'. exact Hs.
  - unfold L at 2. rewrite (trim_none P P_nonempty s E1).
    apply (trim_none P P_nonempty).
    destruct (R_split s) as (b & Hb & Hs & _).
    destruct (cutAny P (R s)) as [r|] eqn:E3; [|reflexivity].
    exfalso. apply cutAny_Some in E3 as (p & Hp & Hp').
    apply (cutAny_None _ _ E1 p (r ++ b) Hp).
    rewrite app_assoc, <- Hp'. exact Hs.
Qed.

End TwoEnds.

(** ** White space *)

Lemma space_nonempty : forall p, In p spaceEncodings -> p <> [].
Proof. apply pats_nonempty_ok. vm_compute. reflexivity. Qed.

Lemma space_prefix_free :
  forall p q x, In p spaceEncodings -> In q spaceEncodings -> q = p ++ x -> x = [].
Proof. apply pats_prefix_free_ok. vm_compute. reflexivity. Qed.

Lemma space_suffix_free :
  forall p q x, In p (map (@rev ascii) spaceEncodings) ->
    In q (map (@rev ascii) spaceEncodings) -> q = p ++ x -> x = [].
Proof. apply pats_prefix_free_ok. vm_compute. reflexivity. Qed.

Lemma space_no_overlap :
  forall p q a y b, In p spaceEncodings -> In q spaceEncodings ->
    p = a ++ y -> q = y ++ b -> a <> [] -> y <> [] -> False.
Proof. apply pats_no_overlap_ok. vm_compute. reflexivity. Qed.

Lemma space_newline :
  forall p, In p spaceEncodings -> p = [newline] \/ ~ In newline p.
Proof. apply pats_sep_ok. vm_compute. reflexivity. Qed.

Lemma space_newline_rev :
  forall p, In p (map (@rev ascii) spaceEncodings) -> p = [newline] \/ ~ In newline p.
Proof. apply pats_sep_ok. vm_compute. reflexivity. Qed.

Lemma space_rev_nonempty : forall p, In p (map (@rev ascii) spaceEncodings) -> p <> [].
Proof. apply Q_nonempty, space_nonempty. Qed.

Lemma newline_is_space : In [newline] spaceEncodings.
Proof. vm_compute. tauto. Qed.

(** Each pattern reads, in front of anything, as one white-space rune of
    the pattern's length. *)
Lemma space_encoding_decodes (p x : bytes) :
  In p spaceEncodings ->
  IsSpace (fst (DecodeRune (p ++ x))) = true
  /\ snd (DecodeRune (p ++ x)) = length p.
Proof.
  intros H. vm_compute in H.
  repeat (destruct H as [<-|H]; [split; vm_compute; reflexivity|]).
  destruct H.
Qed.

Lemma TrimLeft_nil : TrimLeft [] = [].
Proof. reflexivity. Qed.

Lemma TrimRight_nil : TrimRight [] = [].
Proof. reflexivity. Qed.

Lemma TrimSpace_nil : TrimSpace [] = [].
Proof. reflexivity. Qed.

Lemma TrimLeft_cons (p s : bytes) :
  In p spaceEncodings -> TrimLeft (p ++ s) = TrimLeft s.
Proof. apply trim_cons; [apply space_nonempty | apply space_prefix_free]. Qed.

Lemma TrimRight_snoc (s p : bytes) :
  In p spaceEncodings -> TrimRight (s ++ p) = TrimRight s.
Proof. apply R_snoc; [apply space_nonempty | apply space_suffix_free]. Qed.

Lemma TrimLeft_idem (s : bytes) : TrimLeft (TrimLeft s) = TrimLeft s.
Proof. apply trim_idem. apply space_nonempty. Qed.

Lemma TrimRight_idem (s : bytes) : TrimRight (TrimRight s) = TrimRight s.
Proof.
  unfold TrimRight. rewrite rev_involutive.
  rewrite trim_idem by apply space_rev_nonempty. reflexivity.
Qed.

Lemma Trim_comm (s : bytes) : TrimLeft (TrimRight s) = TrimRight (TrimLeft s).
Proof.
  apply L_R_comm.
  - apply space_nonempty.
  - apply space_prefix_free.
  - apply space_suffix_free.
  - apply space_no_overlap.
Qed.

Lemma TrimLeft_split (s : bytes) :
  exists a, blank spaceEncodings a /\ s = a ++ TrimLeft s.
Proof.
  destruct (trim_split spaceEncodings space_nonempty s) as (a & Ha & Hs & _).
  eauto.
Qed.

Lemma TrimRight_split (s : bytes) :
  exists b, blank spaceEncodings b /\ s = TrimRight s ++ b.
Proof.
  destruct (R_split spaceEncodings space_nonempty s) as (b & Hb & Hs & _).
  eauto.
Qed.

Lemma TrimSpace_cons (p s : bytes) :
  In p spaceEncodings -> TrimSpace (p ++ s) = TrimSpace s.
Proof. intros H. unfold TrimSpace. rewrite TrimLeft_cons by assumption. reflexivity. Qed.

Lemma TrimSpace_snoc (s p : bytes) :
  In p spaceEncodings -> TrimSpace (s ++ p) = TrimSpace s.
Proof.
  intros H. unfold TrimSpace. rewrite <- !Trim_comm.
  rewrite TrimRight_snoc by assumption. reflexivity.
Qed.

Lemma TrimSpace_TrimLeft (s : bytes) : TrimSpace (TrimLeft s) = TrimSpace s.
Proof. unfold TrimSpace. rewrite TrimLeft_idem. reflexivity. Qed.

Lemma TrimSpace_TrimRight (s : bytes) : TrimSpace (TrimRight s) = TrimSpace s.
Proof. unfold TrimSpace. rewrite <- !Trim_comm, TrimRight_idem. reflexivity. Qed.

Lemma TrimSpace_idem (s : bytes) : TrimSpace (TrimSpace s) = TrimSpace s.
Proof.
  unfold TrimSpace at 2. rewrite TrimSpace_TrimRight, TrimSpace_TrimLeft.
  reflexivity.
Qed.

Lemma TrimSpace_left_nonempty (s : bytes) : TrimSpace s <> [] -> TrimLeft s <> [].
Proof. unfold TrimSpace. intros H E. rewrite E in H. apply H. reflexivity. Qed.

Lemma TrimSpace_right_nonempty (s : bytes) : TrimSpace s <> [] -> TrimRight s <> [].
Proof.
  unfold TrimSpace. rewrite <- Trim_comm. intros H E. rewrite E in H.
  apply H. reflexivity.
Qed.

(** A line that is not blank shields what follows a newline behind it, and
    what precedes a newline before it. *)
Lemma TrimLeft_line (u x : bytes) :
  TrimLeft u <> [] -> TrimLeft (u ++ newline :: x) = TrimLeft u ++ newline :: x.
Proof.
  apply trim_app_sep; [apply space_nonempty | apply space_prefix_free |
                       apply space_newline].
Qed.

Lemma TrimRight_line (x u : bytes) :
  TrimRight u <> [] -> TrimRight (x ++ newline :: u) = x ++ newline :: TrimRight u.
Proof.
  intros H. unfold TrimRight in *.
  assert (E : rev (x ++ newline :: u) = rev u ++ newline :: rev x).
  { rewrite rev_app_distr. simpl. rewrite <- app_assoc. reflexivity. }
  rewrite E.
  rewrite (trim_app_sep (map (@rev ascii) spaceEncodings) space_rev_nonempty
             space_suffix_free newline (rev u) (rev x) space_newline_rev).
  - rewrite rev_app_distr. simpl. rewrite rev_involutive, <- app_assoc. reflexivity.
  - intros E'. apply H. rewrite E'. reflexivity.
Qed.

Lemma TrimLeft_incl (s : bytes) (c : ascii) : In c (TrimLeft s) -> In c s.
Proof. apply trim_incl. apply space_nonempty. Qed.

Lemma TrimRight_incl (s : bytes) (c : ascii) : In c (TrimRight s) -> In c s.
Proof.
  unfold TrimRight. intros H. apply in_rev in H.
  apply trim_incl in H; [|apply space_rev_nonempty]. apply in_rev. exact H.
Qed.

Lemma TrimSpace_incl (s : bytes) (c : ascii) : In c (TrimSpace s) -> In c s.
Proof. intros H. apply TrimLeft_incl, TrimRight_incl. exact H. Qed.

(** ** Lines *)

Lemma Split_nonempty (s : bytes) (sep : ascii) : Split s sep <> [].
Proof.
  destruct s as [|c s]; simpl; [discriminate|].
  destruct (Ascii.eqb c sep); [discriminate|].
  destruct (Split s sep); discriminate.
Qed.

Lemma Split_sep (s : bytes) (sep : ascii) : Split (sep :: s) sep = [] :: Split s sep.
Proof. simpl. rewrite Ascii.eqb_refl. reflexivity. Qed.

Lemma Split_other (c : ascii) (s : bytes) (sep : ascii) :
  c <> sep ->
  Split (c :: s) sep = (c :: hd [] (Split s sep)) :: tl (Split s sep).
Proof.
  intros H. simpl. destruct (Ascii.eqb_spec c sep) as [->|_]; [congruence|].
  pose proof (Split_nonempty s sep). destruct (Split s sep); [congruence | reflexivity].
Qed.

(** Text without separator in front of [s] lands in front of the first line. *)
Lemma Split_app_line (a s : bytes) (sep : ascii) :
  ~ In sep a ->
  Split (a ++ s) sep = (a ++ hd [] (Split s sep)) :: tl (Split s sep).
Proof.
  induction a as [|c a IH]; intros H; simpl app.
  - pose proof (Split_nonempty s sep). destruct (Split s sep); [congruence | reflexivity].
  - rewrite Split_other by (intros ->; apply H; left; reflexivity).
    rewrite IH by (intros Hin; apply H; right; assumption).
    reflexivity.
Qed.

(** A separator at the end opens a last, empty line. *)
Lemma Split_snoc_sep (s : bytes) (sep : ascii) :
  Split (s ++ [sep]) sep = Split s sep ++ [[]].
Proof.
  induction s as [|c s IH].
  - simpl. rewrite Ascii.eqb_refl. reflexivity.
  - simpl app. destruct (Ascii.eqb_spec c sep) as [->|Hne].
    + rewrite !Split_sep, IH. reflexivity.
    + rewrite !Split_other by assumption. rewrite IH.
      pose proof (Split_nonempty s sep). destruct (Split s sep); [congruence | reflexivity].
Qed.

(** Text without separator behind [s] lands behind the last line. *)
Lemma Split_snoc_line (s a : bytes) (sep : ascii) :
  ~ In sep a ->
  exists front l, Split s sep = front ++ [l] /\ Split (s ++ a) sep = front ++ [l ++ a].
Proof.
  intros Ha. induction s as [|c s (front & l & Hs & Hsa)].
  - exists [], []. split; [reflexivity|]. simpl app.
    rewrite <- (app_nil_r a) at 1. rewrite Split_app_line by assumption.
    simpl. rewrite app_nil_r. reflexivity.
  - simpl app. destruct (Ascii.eqb_spec c sep) as [->|Hne].
    + rewrite !Split_sep. exists ([] :: front), l. rewrite Hs, Hsa. split; reflexivity.
    + rewrite !Split_other by assumption. rewrite Hs, Hsa.
      destruct front as [|f front].
      * exists [], (c :: l). split; reflexivity.
      * exists ((c :: f) :: front), l. split; reflexivity.
Qed.

Lemma Split_no_sep (s : bytes) (sep : ascii) :
  forall l, In l (Split s sep) -> ~ In sep l.
Proof.
  induction s as [|c s IH]; intros l Hl.
  - simpl in Hl. destruct Hl as [<-|[]]. simpl. tauto.
  - destruct (Ascii.eqb_spec c sep) as [->|Hne].
    + rewrite Split_sep in Hl. destruct Hl as [<-|Hl]; [simpl; tauto | auto].
    + rewrite Split_other in Hl by assumption.
      pose proof (Split_nonempty s sep) as Hn.
      destruct (Split s sep) as [|l0 ls]; [congruence|]. simpl in Hl.
      destruct Hl as [<-|Hl].
      * intros [Hc|Hin]; [congruence|]. apply (IH l0); [left; reflexivity | assumption].
      * apply IH. right. assumption.
Qed.

Lemma Join_cons (l : bytes) (ls : list bytes) (sep : bytes) :
  ls <> [] -> Join (l :: ls) sep = l ++ sep ++ Join ls sep.
Proof. destruct ls; [congruence | reflexivity]. Qed.

(** Joining lines and splitting again gives the lines back. *)
Lemma Split_Join (ls : list bytes) (sep : ascii) :
  ls <> [] -> (forall l, In l ls -> ~ In sep l) ->
  Split (Join ls [sep]) sep = ls.
Proof.
  induction ls as [|l ls IH]; intros Hne Hfree; [congruence|].
  destruct ls as [|l2 ls].
  - simpl. rewrite <- (app_nil_r l) at 1.
    rewrite Split_app_line by (apply Hfree; left; reflexivity). simpl.
    rewrite app_nil_r. reflexivity.
  - rewrite Join_cons by discriminate.
    change (l ++ [sep] ++ Join (l2 :: ls) [sep])
      with (l ++ sep :: Join (l2 :: ls) [sep]).
    rewrite Split_app_line by (apply Hfree; left; reflexivity).
    rewrite Split_sep. cbn [hd tl]. rewrite app_nil_r.
    rewrite IH; [reflexivity | discriminate |].
    intros l' Hl'. apply Hfree. right. assumption.
Qed.

(** ** The filter loop *)

Lemma filterLines_cons (line : bytes) (lines acc : list bytes) :
  filterLines (line :: lines) acc =
  if keepLine line then filterLines lines (acc ++ [line]) else filterLines lines acc.
Proof. reflexivity. Qed.

Lemma filterLines_filter (lines acc : list bytes) :
  filterLines lines acc = acc ++ filter keepLine lines.
Proof.
  revert acc. induction lines as [|line lines IH]; intros acc.
  - simpl. symmetry. apply app_nil_r.
  - rewrite filterLines_cons. cbn [filter]. destruct (keepLine line).
    + rewrite IH, <- app_assoc. reflexivity.
    + apply IH.
Qed.

Lemma filterGeminiOutput_survivors (text : bytes) :
  filterGeminiOutput text = TrimSpace (Join (survivors text) [newline]).
Proof. unfold filterGeminiOutput. rewrite filterLines_filter. reflexivity. Qed.

Lemma matchesFilter_true (patterns : list bytes) (t : bytes) :
  matchesFilter patterns t = true <->
  exists phrase a b, In phrase patterns /\ t = a ++ phrase ++ b.
Proof.
  induction patterns as [|p ps IH]; simpl.
  - split; [discriminate | intros (? & ? & ? & [] & _)].
  - destruct (Contains t p) eqn:E.
    + split; [|reflexivity]. intros _. apply Contains_true in E as (a & b & H).
      exists p, a, b. auto.
    + rewrite IH. split.
      * intros (ph & a & b & Hin & H). exists ph, a, b. auto.
      * intros (ph & a & b & [<-|Hin] & H).
        -- assert (Contains t p = true) by (apply Contains_true; eauto). congruence.
        -- exists ph, a, b. auto.
Qed.

(** [keepLine] decides [dropped]. *)
Lemma keepLine_false (line : bytes) : keepLine line = false <-> dropped line.
Proof.
  unfold keepLine, dropped. rewrite andb_false_iff, !negb_false_iff.
  rewrite matchesFilter_true, bytes_eqb_nil. tauto.
Qed.

Lemma keepLine_true (line : bytes) : keepLine line = true <-> ~ dropped line.
Proof.
  rewrite <- keepLine_false. destruct (keepLine line); split; congruence.
Qed.

Lemma keepLine_nonblank (line : bytes) : keepLine line = true -> TrimSpace line <> [].
Proof.
  unfold keepLine. intros H. apply andb_true_iff in H as [_ H].
  apply negb_true_iff, bytes_eqb_nil_false in H. exact H.
Qed.

Lemma keepLine_nil : keepLine [] = false.
Proof. reflexivity. Qed.

(** Whether a line is kept depends on its trimmed text only. *)
Lemma keepLine_trim (l l' : bytes) :
  TrimSpace l = TrimSpace l' -> keepLine l = keepLine l'.
Proof. unfold keepLine. intros ->. reflexivity. Qed.

Lemma survivors_keep (text : bytes) :
  forall l, In l (survivors text) -> keepLine l = true /\ ~ In newline l.
Proof.
  unfold survivors. intros l Hl. apply filter_In in Hl as [Hin Hk].
  split; [assumption|]. exact (Split_no_sep _ _ _ Hin).
Qed.

(** ** The closing [TrimSpace] on the surviving lines *)

Lemma trimLast_cons (l : bytes) (rest : list bytes) :
  rest <> [] -> trimLast (l :: rest) = l :: trimLast rest.
Proof. destruct rest; [congruence | reflexivity]. Qed.

Lemma trimEnds_cons (l : bytes) (rest : list bytes) :
  rest <> [] -> trimEnds (l :: rest) = TrimLeft l :: trimLast rest.
Proof. destruct rest; [congruence | reflexivity]. Qed.

Lemma trimLast_nil_iff (K : list bytes) : trimLast K = [] <-> K = [].
Proof. destruct K as [|k [|k2 K]]; simpl; split; congruence. Qed.

Lemma trimLast_nonempty (K : list bytes) : K <> [] -> trimLast K <> [].
Proof. rewrite trimLast_nil_iff. tauto. Qed.

Lemma snoc_nonempty (K : list bytes) (l : bytes) : K ++ [l] <> [].
Proof. destruct K; discriminate. Qed.

Lemma trimLast_snoc (K : list bytes) (l : bytes) :
  trimLast (K ++ [l]) = K ++ [TrimRight l].
Proof.
  induction K as [|k K IH]; [reflexivity|].
  simpl app. rewrite trimLast_cons by apply snoc_nonempty.
  rewrite IH. reflexivity.
Qed.

Lemma trimEnds_snoc (K : list bytes) (l : bytes) :
  trimEnds (K ++ [l]) =
  match K with
  | [] => [TrimSpace l]
  | k :: K' => TrimLeft k :: K' ++ [TrimRight l]
  end.
Proof.
  destruct K as [|k K]; [reflexivity|].
  simpl app. rewrite trimEnds_cons by apply snoc_nonempty.
  rewrite trimLast_snoc. reflexivity.
Qed.

Lemma trimEnds_nil_iff (K : list bytes) : trimEnds K = [] <-> K = [].
Proof.
  destruct K as [|k [|k2 K]]; simpl; split; congruence.
Qed.

Lemma trimLast_In (K : list bytes) (l' : bytes) :
  In l' (trimLast K) -> exists l, In l K /\ (l' = l \/ l' = TrimRight l).
Proof.
  induction K as [|k K IH]; [intros []|].
  destruct K as [|k2 K].
  - intros [<-|[]]. exists k. split; [left; reflexivity | auto].
  - cbn [trimLast]. intros [<-|H].
    + exists k. split; [left; reflexivity | auto].
    + destruct (IH H) as (l & Hl & Hl'). exists l. split; [right; assumption | assumption].
Qed.

Lemma trimEnds_In (K : list bytes) (l' : bytes) :
  In l' (trimEnds K) ->
  exists l, In l K /\
    (l' = l \/ l' = TrimLeft l \/ l' = TrimRight l \/ l' = TrimSpace l).
Proof.
  destruct K as [|k [|k2 K]]; [intros [] | |].
  - intros [<-|[]]. exists k. split; [left; reflexivity | auto].
  - cbn [trimEnds]. intros [<-|H].
    + exists k. split; [left; reflexivity | auto].
    + apply trimLast_In in H as (l & Hl & [->| ->]);
        exists l; (split; [right; assumption | auto]).
Qed.

Lemma trimLast_idem (K : list bytes) : trimLast (trimLast K) = trimLast K.
Proof.
  induction K as [|k K IH]; [reflexivity|].
  destruct K as [|k2 K].
  - simpl. rewrite TrimRight_idem. reflexivity.
  - rewrite (trimLast_cons k) by discriminate.
    rewrite trimLast_cons by (apply trimLast_nonempty; discriminate).
    rewrite IH. reflexivity.
Qed.

Lemma trimEnds_idem (K : list bytes) : trimEnds (trimEnds K) = trimEnds K.
Proof.
  destruct K as [|k [|k2 K]]; [reflexivity | |].
  - simpl. rewrite TrimSpace_idem. reflexivity.
  - rewrite (trimEnds_cons k) by discriminate.
    rewrite trimEnds_cons by (apply trimLast_nonempty; discriminate).
    rewrite TrimLeft_idem, trimLast_idem. reflexivity.
Qed.

Lemma trimEnds_keep (K : list bytes) :
  (forall l, In l K -> keepLine l = true /\ ~ In newline l) ->
  forall l, In l (trimEnds K) -> keepLine l = true /\ ~ In newline l.
Proof.
  intros HK l' Hl'. apply trimEnds_In in Hl' as (l & Hl & Hcases).
  destruct (HK l Hl) as [Hk Hn].
  destruct Hcases as [->|[->|[->| ->]]]; split; try assumption.
  - rewrite <- Hk. apply keepLine_trim, TrimSpace_TrimLeft.
  - intros H. apply Hn, TrimLeft_incl, H.
  - rewrite <- Hk. apply keepLine_trim, TrimSpace_TrimRight.
  - intros H. apply Hn, TrimRight_incl, H.
  - rewrite <- Hk. apply keepLine_trim, TrimSpace_idem.
  - intros H. apply Hn, TrimSpace_incl, H.
Qed.

(** Trailing white space of a joined text sits in its last line. *)
Lemma TrimRight_Join (rest : list bytes) :
  rest <> [] -> (forall l, In l rest -> TrimSpace l <> []) ->
  forall x, TrimRight (x ++ newline :: Join rest [newline])
            = x ++ newline :: Join (trimLast rest) [newline].
Proof.
  induction rest as [|l rest IH]; intros Hne Hall x; [congruence|].
  destruct rest as [|l2 rest].
  - simpl. apply TrimRight_line, TrimSpace_right_nonempty, Hall. left. reflexivity.
  - rewrite Join_cons by discriminate.
    rewrite trimLast_cons by discriminate.
    rewrite (Join_cons l (trimLast (l2 :: rest)))
      by (apply trimLast_nonempty; discriminate).
    change (x ++ newline :: l ++ [newline] ++ Join (l2 :: rest) [newline])
      with (x ++ (newline :: l) ++ newline :: Join (l2 :: rest) [newline]).
    rewrite app_assoc, IH; [|discriminate|intros l' Hl'; apply Hall; right; assumption].
    rewrite <- app_assoc. reflexivity.
Qed.

(** The closing [TrimSpace] trims the first and the last surviving line
    and nothing else. *)
Lemma TrimSpace_Join (K : list bytes) :
  (forall l, In l K -> TrimSpace l <> []) ->
  TrimSpace (Join K [newline]) = Join (trimEnds K) [newline].
Proof.
  intros Hall. destruct K as [|l [|l2 rest]]; [reflexivity | reflexivity |].
  rewrite Join_cons by discriminate.
  rewrite trimEnds_cons by discriminate.
  rewrite (Join_cons (TrimLeft l) (trimLast (l2 :: rest)))
    by (apply trimLast_nonempty; discriminate).
  change (l ++ [newline] ++ Join (l2 :: rest) [newline])
    with (l ++ newline :: Join (l2 :: rest) [newline]).
  unfold TrimSpace.
  rewrite TrimLeft_line by (apply TrimSpace_left_nonempty, Hall; left; reflexivity).
  rewrite TrimRight_Join; [|discriminate|intros l' Hl'; apply Hall; right; assumption].
  reflexivity.
Qed.

(** ** The opening [TrimSpace] does not change the outcome *)

Lemma survivors_cons_space (p s : bytes) :
  In p spaceEncodings -> trimEnds (survivors (p ++ s)) = trimEnds (survivors s).
Proof.
  intros Hp. unfold survivors. destruct (space_newline p Hp) as [->|Hfree].
  - simpl app. rewrite Split_sep. cbn [filter]. rewrite keepLine_nil. reflexivity.
  - rewrite Split_app_line by assumption.
    pose proof (Split_nonempty s newline) as Hne.
    destruct (Split s newline) as [|l1 rest]; [congruence|]. cbn [hd tl filter].
    rewrite (keepLine_trim (p ++ l1) l1) by (apply TrimSpace_cons; assumption).
    destruct (keepLine l1); [|reflexivity].
    destruct (filter keepLine rest) as [|k K]; cbn [trimEnds].
    + rewrite TrimSpace_cons by assumption. reflexivity.
    + rewrite TrimLeft_cons by assumption. reflexivity.
Qed.

Lemma survivors_snoc_space (s p : bytes) :
  In p spaceEncodings -> trimEnds (survivors (s ++ p)) = trimEnds (survivors s).
Proof.
  intros Hp. unfold survivors. destruct (space_newline p Hp) as [->|Hfree].
  - rewrite Split_snoc_sep, filter_app. cbn [filter]. rewrite keepLine_nil.
    rewrite app_nil_r. reflexivity.
  - destruct (Split_snoc_line s p newline Hfree) as (front & l & Hs & Hsp).
    rewrite Hs, Hsp, !filter_app. cbn [filter].
    rewrite (keepLine_trim (l ++ p) l) by (apply TrimSpace_snoc; assumption).
    destruct (keepLine l); [|reflexivity].
    rewrite !trimEnds_snoc. destruct (filter keepLine front).
    + rewrite TrimSpace_snoc by assumption. reflexivity.
    + rewrite TrimRight_snoc by assumption. reflexivity.
Qed.

Lemma survivors_blank_front (a s : bytes) :
  blank spaceEncodings a -> trimEnds (survivors (a ++ s)) = trimEnds (survivors s).
Proof.
  induction 1 as [|p a Hp Ha IH]; [reflexivity|].
  rewrite <- app_assoc, survivors_cons_space by assumption. exact IH.
Qed.

Lemma survivors_blank_back (b : bytes) :
  blank spaceEncodings b ->
  forall s, trimEnds (survivors (s ++ b)) = trimEnds (survivors s).
Proof.
  induction 1 as [|p b Hp Hb IH]; intros s.
  - rewrite app_nil_r. reflexivity.
  - rewrite app_assoc, IH. apply survivors_snoc_space. assumption.
Qed.

Lemma survivors_TrimSpace (s : bytes) :
  trimEnds (survivors (TrimSpace s)) = trimEnds (survivors s).
Proof.
  destruct (TrimLeft_split s) as (a & Ha & Hs).
  destruct (TrimRight_split (TrimLeft s)) as (b & Hb & Hs').
  fold (TrimSpace s) in Hs'.
  rewrite <- (survivors_blank_back b Hb (TrimSpace s)), <- Hs'.
  rewrite <- (survivors_blank_front a (TrimLeft s) Ha), <- Hs.
  reflexivity.
Qed.

(** ** [parseGeminiOutput], characterised *)

Lemma Join_trimEnds_nonempty (K : list bytes) :
  K <> [] -> (forall l, In l K -> TrimSpace l <> []) ->
  Join (trimEnds K) [newline] <> [].
Proof.
  intros Hne Hall. destruct K as [|l [|l2 rest]]; [congruence | |].
  - simpl. apply Hall. left. reflexivity.
  - rewrite trimEnds_cons by discriminate.
    rewrite Join_cons by (apply trimLast_nonempty; discriminate).
    intros H. apply app_eq_nil in H as [_ H]. discriminate.
Qed.

Lemma parseGeminiOutput_spec (output : bytes) :
  parseGeminiOutput output =
  match survivors output with
  | [] => ([], Some (Errorf ErrEmptyOutput))
  | _ :: _ => (Join (trimEnds (survivors output)) [newline], None)
  end.
Proof.
  unfold parseGeminiOutput. destruct output as [|c output]; [reflexivity|].
  cbn [length Nat.eqb].
  rewrite filterGeminiOutput_survivors.
  rewrite TrimSpace_Join
    by (intros l Hl; apply keepLine_nonblank, (survivors_keep _ _ Hl)).
  rewrite survivors_TrimSpace.
  destruct (survivors (c :: output)) as [|k K] eqn:E; [reflexivity|].
  assert (Hne : Join (trimEnds (k :: K)) [newline] <> []).
  { apply Join_trimEnds_nonempty; [discriminate|].
    intros l Hl. rewrite <- E in Hl.
    apply keepLine_nonblank, (survivors_keep _ _ Hl). }
  apply bytes_eqb_nil_false in Hne. rewrite Hne. reflexivity.
Qed.

(** ** The sanitizer: what survives, when it fails, idempotence *)

Lemma filter_all {A : Type} (f : A -> bool) (l : list A) :
  (forall x, In x l -> f x = true) -> filter f l = l.
Proof.
  induction l as [|x l IH]; intros H; [reflexivity|]. simpl.
  rewrite (H x) by (left; reflexivity). f_equal. apply IH.
  intros y Hy. apply H. right. assumption.
Qed.

Lemma filter_nil_iff {A : Type} (f : A -> bool) (l : list A) :
  filter f l = [] <-> Forall (fun x => f x = false) l.
Proof.
  induction l as [|x l IH]; simpl.
  - split; [constructor | reflexivity].
  - destruct (f x) eqn:E.
    + split; [discriminate|]. intros H. inversion H. congruence.
    + rewrite IH. split; [constructor; assumption|]. intros H. inversion H. assumption.
Qed.

Lemma survivors_nil_iff (output : bytes) :
  survivors output = [] <-> Forall dropped (Split output newline).
Proof.
  unfold survivors. rewrite filter_nil_iff. split; intros H;
    (eapply Forall_impl; [|exact H]); intros l; apply keepLine_false.
Qed.

(** What a successful run returns; shared by the theorems below. *)
Lemma successful_parse_shape (output r : bytes) :
  parseGeminiOutput output = (r, None) ->
  survivors output <> []
  /\ Split r newline = trimEnds (survivors output)
  /\ r = Join (trimEnds (survivors output)) [newline]
  /\ (forall l, In l (trimEnds (survivors output)) -> keepLine l = true).
Proof.
  intros H. rewrite parseGeminiOutput_spec in H.
  destruct (survivors output) as [|k K] eqn:E; [discriminate|].
  injection H as <-.
  assert (Hkeep : forall l, In l (trimEnds (k :: K)) ->
                            keepLine l = true /\ ~ In newline l).
  { apply trimEnds_keep. intros l' Hl'. rewrite <- E in Hl'.
    exact (survivors_keep _ _ Hl'). }
  split; [discriminate|]. split; [|split; [reflexivity|]].
  - apply Split_Join.
    + rewrite trimEnds_nil_iff. discriminate.
    + intros l Hl. apply (Hkeep l Hl).
  - intros l Hl. apply (Hkeep l Hl).
Qed.

(** The cases of [TestParseGeminiOutput]. *)
Example parse_test_ValidOutput :
  ParseGeminiOutput (str "This is a valid Gemini response")
  = (str "This is a valid Gemini response", None).
Proof. vm_compute. reflexivity. Qed.

Example parse_test_EmptyOutput :
  ParseGeminiOutput [] = ([], Some (errorString (str "empty output from Gemini command"))).
Proof. vm_compute. reflexivity. Qed.

Example parse_test_OutputWithMultipleSystemMessages :
  ParseGeminiOutput
    (str "Loading cached credentials" ++ newline ::
     str "Authentication successful" ++ newline ::
     str "Hello, world!" ++ newline :: str "This is a response.")
  = (str "Hello, world!" ++ newline :: str "This is a response.", None).
Proof. vm_compute. reflexivity. Qed.

Example parse_test_OnlySystemMessages :
  ParseGeminiOutput
    (str "Loaded cached credentials." ++ newline ::
     str "Authenticating" ++ newline :: str "Connected to Gemini API")
  = ([], Some (errorString (str "empty output from Gemini command"))).
Proof. vm_compute. reflexivity. Qed.

(** White space beyond ASCII: an EM SPACE in front, a no-break space and
    an ideographic space behind. *)
Example TrimSpace_unicode :
  TrimSpace ([z2b 0xE2; z2b 0x80; z2b 0x83] ++ str " a b "
             ++ [z2b 0xC2; z2b 0xA0; z2b 0xE3; z2b 0x80; z2b 0x80])
  = str "a b".
Proof. vm_compute. reflexivity. Qed.

(** The patterns are the encodings [DecodeRune] reads as white space. *)
Example spaceEncodings_decode :
  forallb (fun r => let '(r', w) := DecodeRune (EncodeRune r) in
                    Z.eqb r r' && Nat.eqb w (length (EncodeRune r)) && IsSpace r')
          whiteSpace = true.
Proof. vm_compute. reflexivity. Qed.

(** C1, as the claim words it, read on the lines of the result: the
    result's lines would be exactly the surviving input lines, each
    verbatim.  On the input [Authenticating / "  item" / "end"] the line
    ["  item"] survives, but the result holds ["item"]: the closing
    [TrimSpace] of [filterGeminiOutput] removed its indentation. *)
Lemma sanitize_kept_line_not_verbatim :
  parseGeminiOutput (str "Authenticating" ++ newline :: str "  item" ++ newline :: str "end")
    = (str "item" ++ newline :: str "end", None)
  /\ survivors (str "Authenticating" ++ newline :: str "  item" ++ newline :: str "end")
    = [str "  item"; str "end"]
  /\ Split (str "item" ++ newline :: str "end") newline
     <> survivors (str "Authenticating" ++ newline :: str "  item" ++ newline :: str "end").
Proof.
  split; [vm_compute; reflexivity|]. split; [vm_compute; reflexivity|].
  vm_compute. discriminate.
Qed.

(** C1, amended: when sanitizing succeeds, the lines of the result are
    exactly the input's lines that survive filtering, in their original
    order and verbatim except that the first survivor has lost its leading
    white space and the last survivor its trailing white space; a line
    survives if and only if it is not dropped, that is, its trimmed
    content is neither empty nor holds one of the seven filter phrases as
    a substring. *)
Theorem sanitize_keeps_surviving_lines (output r : bytes) :
  parseGeminiOutput output = (r, None) ->
  survivors output = filter keepLine (Split output newline)
  /\ (forall line, keepLine line = true <-> ~ dropped line)
  /\ survivors output <> []
  /\ Split r newline = trimEnds (survivors output)
  /\ r = Join (trimEnds (survivors output)) [newline].
Proof.
  intros H. split; [reflexivity|]. split; [apply keepLine_true|].
  destruct (successful_parse_shape output r H) as (Hne & Hsplit & Hr & _).
  auto.
Qed.

Lemma sanitize_keeps_surviving_lines_witness :
  survivors (str " a" ++ newline :: str "Authenticating" ++ newline :: str "b ")
    = filter keepLine (Split (str " a" ++ newline :: str "Authenticating" ++ newline :: str "b ") newline)
  /\ (forall line, keepLine line = true <-> ~ dropped line)
  /\ survivors (str " a" ++ newline :: str "Authenticating" ++ newline :: str "b ") <> []
  /\ Split (str "a" ++ newline :: str "b") newline
     = trimEnds (survivors (str " a" ++ newline :: str "Authenticating" ++ newline :: str "b "))
  /\ str "a" ++ newline :: str "b"
     = Join (trimEnds (survivors (str " a" ++ newline :: str "Authenticating" ++ newline :: str "b "))) [newline].
Proof.
  apply (sanitize_keeps_surviving_lines
           (str " a" ++ newline :: str "Authenticating" ++ newline :: str "b ")
           (str "a" ++ newline :: str "b")).
  vm_compute. reflexivity.
Defined.

(** C2: [parseGeminiOutput] fails exactly when the input is empty or every
    line of it is dropped by the filter; every failure is the one
    empty-output error, whichever of the two caused it; in particular an
    input all of whose lines hold a filter phrase fails with it. *)
Theorem parse_fails_iff_all_dropped (output : bytes) :
  (snd (parseGeminiOutput output) <> None
     <-> output = [] \/ Forall dropped (Split output newline))
  /\ (snd (parseGeminiOutput output) <> None
     -> parseGeminiOutput output = ([], Some (Errorf ErrEmptyOutput)))
  /\ (Forall (fun line => exists phrase a b,
                In phrase filterPatterns /\ TrimSpace line = a ++ phrase ++ b)
             (Split output newline)
     -> parseGeminiOutput output = ([], Some (Errorf ErrEmptyOutput))).
Proof.
  rewrite parseGeminiOutput_spec.
  pose proof (survivors_nil_iff output) as Hnil.
  destruct (survivors output) as [|k K] eqn:E; cbn [snd].
  - split; [|split].
    + split; [intros _; right; apply Hnil; reflexivity | discriminate].
    + reflexivity.
    + reflexivity.
  - assert (Hnot : ~ Forall dropped (Split output newline)).
    { intros H. apply Hnil in H. discriminate. }
    split; [|split].
    + split; [congruence|]. intros [->|H]; [discriminate E | tauto].
    + congruence.
    + intros H. exfalso. apply Hnot. eapply Forall_impl; [|exact H].
      intros l Hl. right. exact Hl.
Qed.

(** C10: sanitizing is idempotent: a successful result, sanitized again,
    comes back unchanged. *)
Theorem parse_idempotent (output r : bytes) :
  parseGeminiOutput output = (r, None) -> parseGeminiOutput r = (r, None).
Proof.
  intros H.
  destruct (successful_parse_shape output r H) as (Hne & Hsplit & Hr & Hkeep).
  rewrite parseGeminiOutput_spec.
  assert (Hsurv : survivors r = trimEnds (survivors output)).
  { unfold survivors at 1. rewrite Hsplit. apply filter_all.
    intros l Hl. apply (Hkeep l Hl). }
  rewrite Hsurv, trimEnds_idem, <- Hr.
  destruct (trimEnds (survivors output)) eqn:E; [|reflexivity].
  apply (proj1 (trimEnds_nil_iff _)) in E. contradiction.
Qed.

Lemma parse_idempotent_witness :
  parseGeminiOutput (str "Loaded cached credentials." ++ newline :: str "  Hello  ")
    = (str "Hello", None)
  /\ parseGeminiOutput (str "Hello") = (str "Hello", None).
Proof.
  split; [vm_compute; reflexivity|].
  apply (parse_idempotent (str "Loaded cached credentials." ++ newline :: str "  Hello  ")).
  vm_compute. reflexivity.
Defined.

(** ** Construction of clients and commands *)

(** C8: whatever the configuration, the client's timeout is the supplied
    one when that is positive and the 30-second default otherwise, hence
    strictly positive; so is that of [NewClient].  The client is a value
    of the embedding: no operation of [client.go] assigns to the field
    after construction, and none of the embedded operations returns a
    client. *)
Theorem client_timeout_positive (config : Config) :
  timeout (NewClientWithConfig config)
    = (if 0 <? Timeout config then Timeout config else 30 * 1000000000)
  /\ 0 < timeout (NewClientWithConfig config)
  /\ timeout NewClient = 30 * 1000000000
  /\ 0 < timeout NewClient.
Proof.
  assert (H : timeout (NewClientWithConfig config)
              = (if 0 <? Timeout config then Timeout config else 30 * 1000000000)).
  { unfold NewClientWithConfig.
    destruct (ConfigLogger config), (0 <? Timeout config),
      (negb (bytes_eqb (Model config) [])),
      (negb (bytes_eqb (WorkingDirectory config) [])); reflexivity. }
  split; [exact H|]. split; [|split; [reflexivity | reflexivity]].
  rewrite H. destruct (Z.ltb_spec 0 (Timeout config)); lia.
Qed.

Lemma NewClientWithConfig_model (config : Config) :
  model (NewClientWithConfig config)
  = if bytes_eqb (Model config) [] then DefaultModel else Model config.
Proof.
  unfold NewClientWithConfig.
  destruct (ConfigLogger config), (0 <? Timeout config),
    (bytes_eqb (Model config) []),
    (negb (bytes_eqb (WorkingDirectory config) [])); reflexivity.
Qed.

(** C4: for a client built from any configuration, the command is the
    five-element list [gemini -m model -p prompt], where an empty
    configured model is replaced by ["gemini-2.5-flash"]; the model
    argument is never empty and the prompt is the last element, as
    given. *)
Theorem command_with_model (config : Config) (prompt : bytes) :
  buildGeminiCommandWithModel (NewClientWithConfig config) prompt
    = [ str "gemini"; str "-m";
        (if bytes_eqb (Model config) [] then str "gemini-2.5-flash" else Model config);
        str "-p"; prompt ]
  /\ length (buildGeminiCommandWithModel (NewClientWithConfig config) prompt) = 5%nat
  /\ nth 2 (buildGeminiCommandWithModel (NewClientWithConfig config) prompt) [] <> []
  /\ last (buildGeminiCommandWithModel (NewClientWithConfig config) prompt) [] = prompt.
Proof.
  unfold buildGeminiCommandWithModel. rewrite NewClientWithConfig_model.
  split; [reflexivity|]. split; [reflexivity|]. split; [|reflexivity].
  cbn [nth]. destruct (bytes_eqb (Model config) []) eqn:E.
  - discriminate.
  - apply bytes_eqb_nil_false. exact E.
Qed.

(** ** Running programs *)

Lemma run_bind {A B : Type} (world : Oracle) (p : Prog A) (f : A -> Prog B) :
  forall history,
    run world history (bind p f)
    = run world (fst (run world history p)) (f (snd (run world history p))).
Proof.
  induction p as [a|X e k IH]; intros history; simpl; [reflexivity|].
  apply IH.
Qed.

Lemma run_logWith (world : Oracle) (history : list Call) (l : Logger)
    (level : logLevel) (msg : bytes) (kvs : list (bytes * logValue)) :
  snd (run world history (logWith l level msg kvs)) = tt.
Proof. destruct (snd (run world history (logWith l level msg kvs))). reflexivity. Qed.

(** C3: with the empty prompt, [Execute] and [ExecuteWithTimeout] return
    the empty-prompt error at once: in every world the run makes no call
    at all (no directory or executable lookup, no process start, no log
    line) and leaves the history as it found it. *)
Theorem empty_prompt_rejected (caseTable : Z -> Z) (durationString : Duration -> bytes)
    (c : Client) (t : Duration) (world : Oracle) (history : list Call) :
  Execute caseTable durationString c [] = Ret ([], Some (Errorf ErrEmptyPrompt))
  /\ ExecuteWithTimeout caseTable durationString c [] t
     = Ret ([], Some (Errorf ErrEmptyPrompt))
  /\ run world history (Execute caseTable durationString c [])
     = (history, ([], Some (errorString (str "prompt cannot be empty"))))
  /\ run world history (ExecuteWithTimeout caseTable durationString c [] t)
     = (history, ([], Some (errorString (str "prompt cannot be empty")))).
Proof. repeat split. Qed.

(** ** The matcher against the meaning of expressions *)

Lemma last_byte_app (prev : option ascii) (a b : bytes) :
  last_byte prev (a ++ b) = last_byte (last_byte prev a) b.
Proof. revert prev. induction a as [|c a IH]; intros prev; simpl; auto. Qed.

Lemma matchStar_sound (cls : ascii -> bool) (s : bytes) :
  forall prev k e,
    matchStar cls prev s k = Some e ->
    exists m rest, s = m ++ rest /\ Forall (fun c => cls c = true) m
                   /\ k (last_byte prev m) rest = Some e.
Proof.
  induction s as [|c s IH]; intros prev k e H; simpl in H.
  - exists [], []. auto.
  - destruct (cls c) eqn:Ec.
    + destruct (matchStar cls (Some c) s k) as [e'|] eqn:E.
      * injection H as <-. destruct (IH _ _ _ E) as (m & rest & -> & Hm & Hk).
        exists (c :: m), rest. auto.
      * exists [], (c :: s). auto.
    + exists [], (c :: s). auto.
Qed.

Lemma matchStar_complete (cls : ascii -> bool) (s : bytes) :
  forall prev k,
    matchStar cls prev s k = None ->
    forall m rest, s = m ++ rest -> Forall (fun c => cls c = true) m ->
                   k (last_byte prev m) rest = None.
Proof.
  induction s as [|c s IH]; intros prev k H m rest Hs Hm; simpl in H.
  - symmetry in Hs. apply app_eq_nil in Hs as [-> ->]. exact H.
  - destruct m as [|d m]; simpl in Hs.
    + subst rest. simpl. destruct (cls c); [|exact H].
      destruct (matchStar cls (Some c) s k); [discriminate | exact H].
    + injection Hs as <- ->. inversion Hm as [|? ? Hd Hm']; subst.
      rewrite Hd in H. simpl.
      destruct (matchStar cls (Some c) (m ++ rest) k) eqn:E; [discriminate|].
      exact (IH _ _ E m rest eq_refl Hm').
Qed.

Lemma matchRe_sound (r : regex) :
  forall prev s k e,
    matchRe r prev s k = Some e ->
    exists m rest, s = m ++ rest /\ Matches r prev m rest
                   /\ k (last_byte prev m) rest = Some e.
Proof.
  induction r as [l|r1 IH1 r2 IH2|r1 IH1 r2 IH2|cls|cls|];
    intros prev s k e H; simpl in H.
  - destruct (CutPrefix s l) as [s'|] eqn:E; [|discriminate].
    apply CutPrefix_Some in E. exists l, s'. split; [assumption|].
    split; [constructor | assumption].
  - destruct (IH1 _ _ _ _ H) as (m1 & rest1 & -> & H1 & Hk1).
    destruct (IH2 _ _ _ _ Hk1) as (m2 & rest & -> & H2 & Hk2).
    exists (m1 ++ m2), rest. split; [apply app_assoc|].
    split; [constructor; assumption|]. rewrite last_byte_app. exact Hk2.
  - destruct (matchRe r1 prev s k) as [e'|] eqn:E.
    + injection H as <-. destruct (IH1 _ _ _ _ E) as (m & rest & -> & Hm & Hk).
      exists m, rest. split; [reflexivity|]. split; [apply Matches_Left|]; assumption.
    + destruct (IH2 _ _ _ _ H) as (m & rest & -> & Hm & Hk).
      exists m, rest. split; [reflexivity|]. split; [apply Matches_Right|]; assumption.
  - destruct (matchStar_sound _ _ _ _ _ H) as (m & rest & -> & Hm & Hk).
    exists m, rest. split; [reflexivity|]. split; [constructor|]; assumption.
  - destruct s as [|c s]; [discriminate|]. destruct (cls c) eqn:Ec; [|discriminate].
    destruct (matchStar_sound _ _ _ _ _ H) as (m & rest & -> & Hm & Hk).
    exists (c :: m), rest. split; [reflexivity|].
    split; [constructor; [discriminate | constructor; assumption] | assumption].
  - destruct (xorb (isWordBefore prev) (isWordAfter s)) eqn:E; [|discriminate].
    exists [], s. split; [reflexivity|]. split; [constructor|]; assumption.
Qed.

Lemma matchRe_complete (r : regex) (prev : option ascii) (m rest : bytes) :
  Matches r prev m rest ->
  forall k, matchRe r prev (m ++ rest) k = None -> k (last_byte prev m) rest = None.
Proof.
  induction 1 as [l prev rest
                 |r1 r2 prev m1 m2 rest _ IH1 _ IH2
                 |r1 r2 prev m rest _ IH
                 |r1 r2 prev m rest _ IH
                 |cls prev m rest Hm
                 |cls prev m rest Hne Hm
                 |prev rest Hb]; intros k H; simpl in H.
  - rewrite CutPrefix_app in H. exact H.
  - rewrite <- app_assoc in H. apply IH1 in H. apply IH2 in H.
    rewrite last_byte_app. exact H.
  - destruct (matchRe r1 prev (m ++ rest) k) eqn:E; [discriminate|].
    apply IH. exact E.
  - destruct (matchRe r1 prev (m ++ rest) k) eqn:E; [discriminate|].
    apply IH. exact H.
  - exact (matchStar_complete _ _ _ _ H m rest eq_refl Hm).
  - destruct m as [|c m]; [congruence|]. simpl in H.
    inversion Hm as [|? ? Hc Hm']; subst. rewrite Hc in H.
    exact (matchStar_complete _ _ _ _ H m rest eq_refl Hm').
  - rewrite Hb in H. exact H.
Qed.

Lemma matchHere_Some (re : regex) (prev : option ascii) (s m rest : bytes) :
  matchHere re prev s = Some (m, rest) -> s = m ++ rest /\ Matches re prev m rest.
Proof.
  unfold matchHere. intros H.
  destruct (matchRe re prev s (fun _ rest => Some rest)) as [e|] eqn:E; [|discriminate].
  destruct (matchRe_sound _ _ _ _ _ E) as (m' & rest' & -> & Hm & [= ->]).
  rewrite length_app, Nat.add_sub in H.
  rewrite firstn_app, Nat.sub_diag, firstn_all, firstn_O, app_nil_r in H.
  injection H as <- <-. auto.
Qed.

Lemma matchHere_None (re : regex) (prev : option ascii) (s : bytes) :
  matchHere re prev s = None ->
  forall m rest, s = m ++ rest -> ~ Matches re prev m rest.
Proof.
  unfold matchHere. intros H m rest Hs Hm.
  destruct (matchRe re prev s (fun _ rest => Some rest)) as [e|] eqn:E; [discriminate|].
  subst s. pose proof (matchRe_complete _ _ _ _ Hm _ E). discriminate.
Qed.

Lemma findMatch_Some (re : regex) (s : bytes) :
  forall prev g m rest,
    findMatch re prev s = Some (g, m, rest) ->
    s = g ++ m ++ rest
    /\ Matches re (last_byte prev g) m rest
    /\ (forall a b m' rest', g = a ++ b -> b <> [] ->
          b ++ m ++ rest = m' ++ rest' -> ~ Matches re (last_byte prev a) m' rest').
Proof.
  induction s as [|c s IH]; intros prev g m rest H; simpl in H.
  - destruct (matchHere re prev []) as [[m0 rest0]|] eqn:E; [|discriminate].
    injection H as <- <- <-. apply matchHere_Some in E as [Hs Hm].
    split; [assumption|]. split; [assumption|].
    intros a b m' rest' Hab Hb. symmetry in Hab. apply app_eq_nil in Hab as [_ ->].
    congruence.
  - destruct (matchHere re prev (c :: s)) as [[m0 rest0]|] eqn:E.
    + injection H as <- <- <-. apply matchHere_Some in E as [Hs Hm].
      split; [assumption|]. split; [assumption|].
      intros a b m' rest' Hab Hb. symmetry in Hab. apply app_eq_nil in Hab as [_ ->].
      congruence.
    + destruct (findMatch re (Some c) s) as [[[g0 m0] rest0]|] eqn:E'; [|discriminate].
      injection H as <- <- <-.
      destruct (IH _ _ _ _ E') as (Hs & Hm & Hgap).
      split; [simpl; congruence|]. split; [exact Hm|].
      intros a b m' rest' Hab Hb Hsplit.
      destruct a as [|d a]; simpl in Hab.
      * subst b. simpl. apply (matchHere_None _ _ _ E).
        rewrite <- Hsplit. simpl. congruence.
      * injection Hab as <- Hab. simpl. exact (Hgap a b m' rest' Hab Hb Hsplit).
Qed.

Lemma findMatch_None (re : regex) (s : bytes) :
  forall prev,
    findMatch re prev s = None ->
    forall a m rest, s = a ++ m ++ rest -> ~ Matches re (last_byte prev a) m rest.
Proof.
  induction s as [|c s IH]; intros prev H a m rest Hs; simpl in H.
  - destruct (matchHere re prev []) as [[m0 rest0]|] eqn:E; [discriminate|].
    symmetry in Hs. apply app_eq_nil in Hs as [-> Hs].
    apply (matchHere_None _ _ _ E). symmetry. exact Hs.
  - destruct (matchHere re prev (c :: s)) as [[m0 rest0]|] eqn:E; [discriminate|].
    destruct (findMatch re (Some c) s) as [[[g0 m0] rest0]|] eqn:E'; [discriminate|].
    destruct a as [|d a]; simpl in Hs.
    + apply (matchHere_None _ _ _ E). exact Hs.
    + injection Hs as <- Hs. simpl. exact (IH _ E' a m rest Hs).
Qed.

(** ** What [pathPattern] matches *)

Lemma Matches_Lit_inv l prev m rest : Matches (Lit l) prev m rest -> m = l.
Proof. inversion 1. reflexivity. Qed.

Lemma Matches_Concat_inv r1 r2 prev m rest :
  Matches (Concat r1 r2) prev m rest ->
  exists m1 m2, m = m1 ++ m2 /\ Matches r1 prev m1 (m2 ++ rest)
                /\ Matches r2 (last_byte prev m1) m2 rest.
Proof. inversion 1; subst. eauto. Qed.

Lemma Matches_Alternate_inv r1 r2 prev m rest :
  Matches (Alternate r1 r2) prev m rest ->
  Matches r1 prev m rest \/ Matches r2 prev m rest.
Proof. inversion 1; subst; auto. Qed.

Lemma Matches_Star_inv cls prev m rest :
  Matches (StarClass cls) prev m rest -> Forall (fun c => cls c = true) m.
Proof. inversion 1; subst; auto. Qed.

Lemma Matches_Plus_inv cls prev m rest :
  Matches (PlusClass cls) prev m rest ->
  m <> [] /\ Forall (fun c => cls c = true) m.
Proof. inversion 1; subst; auto. Qed.

Lemma Matches_WordBoundary_inv prev m rest :
  Matches WordBoundary prev m rest ->
  m = [] /\ xorb (isWordBefore prev) (isWordAfter rest) = true.
Proof. inversion 1; subst; auto. Qed.

Lemma Matches_alternatives (l : list bytes) prev e rest :
  Matches (alternatives l) prev e rest <-> In e l.
Proof.
  induction l as [|e1 l IH].
  - simpl. split; [|tauto]. intros H. apply Matches_Plus_inv in H as [Hne Hall].
    destruct e as [|c e]; [congruence|]. inversion Hall. discriminate.
  - destruct l as [|e2 l].
    + simpl. split.
      * intros H. apply Matches_Lit_inv in H. auto.
      * intros [<-|[]]. constructor.
    + change (alternatives (e1 :: e2 :: l))
        with (Alternate (Lit e1) (alternatives (e2 :: l))).
      split.
      * intros H. apply Matches_Alternate_inv in H as [H|H].
        -- apply Matches_Lit_inv in H. left. congruence.
        -- right. apply IH. exact H.
      * intros [<-|H].
        -- apply Matches_Left. constructor.
        -- apply Matches_Right. apply IH. exact H.
Qed.

Lemma last_byte_word (prev : option ascii) (e : bytes) :
  e <> [] -> forallb isWordChar e = true -> isWordBefore (last_byte prev e) = true.
Proof.
  revert prev. induction e as [|c e IH]; intros prev Hne Hall; [congruence|].
  simpl in Hall. apply andb_true_iff in Hall as [Hc He].
  destruct e as [|d e]; [simpl; exact Hc|].
  simpl last_byte. apply (IH (Some c)); [discriminate | exact He].
Qed.

Lemma extensions_words :
  forall e, In e extensions -> e <> [] /\ forallb isWordChar e = true.
Proof.
  assert (H : forallb (fun e => negb (bytes_eqb e []) && forallb isWordChar e)
                      extensions = true) by (vm_compute; reflexivity).
  rewrite forallb_forall in H. intros e He. specialize (H e He).
  apply andb_true_iff in H as [H1 H2].
  apply negb_true_iff, bytes_eqb_nil_false in H1. auto.
Qed.

Lemma word_is_pathChar (c : ascii) : isWordChar c = true -> pathChar c = true.
Proof. unfold pathChar. intros ->. reflexivity. Qed.

(** The pattern matches exactly the path-like tokens. *)
Lemma pathPattern_Matches (prev : option ascii) (m rest : bytes) :
  Matches pathPattern prev m rest <-> pathLike m rest.
Proof.
  unfold pathPattern, pathLike. split.
  - intros H. apply Matches_Alternate_inv in H as [H|H].
    + left. apply Matches_Concat_inv in H as (m1 & m2 & -> & H1 & H2).
      apply Matches_Plus_inv in H2 as [Hne Hall].
      exists m2. split; [|auto].
      apply Matches_Alternate_inv in H1 as [H1|H1];
        apply Matches_Lit_inv in H1; subst m1; auto.
    + right. apply Matches_Concat_inv in H as (t & m2 & -> & Ht & H2).
      apply Matches_Star_inv in Ht.
      apply Matches_Concat_inv in H2 as (d & m3 & -> & Hd & H3).
      apply Matches_Lit_inv in Hd. subst d.
      apply Matches_Concat_inv in H3 as (e & m4 & -> & He & H4).
      apply Matches_alternatives in He.
      apply Matches_WordBoundary_inv in H4 as [-> Hb].
      rewrite app_nil_r. split.
      * exists t, e. auto.
      * destruct (extensions_words e He) as [Hne Hw].
        rewrite (last_byte_word _ _ Hne Hw) in Hb.
        destruct (isWordAfter rest); [discriminate | reflexivity].
  - intros [(t & Hm & Hne & Ht)|[(t & e & -> & Ht & He) Hb]].
    + apply Matches_Left. destruct Hm as [-> | ->].
      * apply Matches_Concat; [apply Matches_Left; constructor|].
        constructor; assumption.
      * apply Matches_Concat; [apply Matches_Right; constructor|].
        constructor; assumption.
    + apply Matches_Right. apply Matches_Concat; [constructor; exact Ht|].
      change (dot :: e) with ([dot] ++ e).
      apply Matches_Concat; [constructor|].
      rewrite <- (app_nil_r e) at 1.
      apply Matches_Concat; [apply Matches_alternatives; exact He|].
      constructor. destruct (extensions_words e He) as [Hne Hw].
      rewrite (last_byte_word _ _ Hne Hw), Hb. reflexivity.
Qed.

Lemma pathLike_pathSafe (m rest : bytes) : pathLike m rest -> m <> [] /\ pathSafe m.
Proof.
  intros [(t & Hm & Hne & Ht)|[(t & e & -> & Ht & He) _]].
  - destruct Hm as [-> | ->]; (split; [discriminate|]);
      repeat (constructor; [reflexivity|]); exact Ht.
  - split; [destruct t; discriminate|].
    apply Forall_app. split; [exact Ht|]. constructor; [reflexivity|].
    destruct (extensions_words e He) as [_ Hw]. rewrite forallb_forall in Hw.
    apply Forall_forall. intros c Hc. apply word_is_pathChar, Hw, Hc.
Qed.

(** Path-safe bytes are no white space: [TrimSpace] leaves a token alone. *)
Lemma cutAny_pathSafe (P : list bytes) (m : bytes) :
  forallb (fun p => match p with [] => false | c :: _ => negb (pathChar c) end) P = true ->
  pathSafe m -> cutAny P m = None.
Proof.
  intros HP Hm. destruct (cutAny P m) as [r|] eqn:E; [|reflexivity].
  exfalso. apply cutAny_Some in E as (p & Hp & ->).
  rewrite forallb_forall in HP. specialize (HP p Hp).
  destruct p as [|c p]; [discriminate|].
  inversion Hm as [|? ? Hc _]. rewrite Hc in HP. discriminate.
Qed.

Lemma TrimSpace_pathSafe (m : bytes) : pathSafe m -> TrimSpace m = m.
Proof.
  intros Hm. unfold TrimSpace, TrimRight, TrimLeft.
  rewrite (trim_none spaceEncodings space_nonempty m)
    by (apply cutAny_pathSafe; [vm_compute; reflexivity | exact Hm]).
  rewrite (trim_none _ space_rev_nonempty (rev m)).
  - apply rev_involutive.
  - apply cutAny_pathSafe; [vm_compute; reflexivity|].
    apply Forall_rev. exact Hm.
Qed.

Lemma resolveMatch_token (baseDir m rest : bytes) :
  pathLike m rest -> resolveMatch baseDir m = rewritten baseDir (Token m).
Proof.
  intros H. destruct (pathLike_pathSafe _ _ H) as [Hne Hsafe].
  unfold resolveMatch. rewrite (TrimSpace_pathSafe _ Hsafe).
  apply bytes_eqb_nil_false in Hne. rewrite Hne. reflexivity.
Qed.

(** ** The replacement loop *)

Lemma run_replaceLoop (re : regex) (repl : bytes -> Prog bytes) (f : bytes -> bytes) :
  (forall m world history, snd (run world history (repl m)) = f m) ->
  forall fuel prev src world history,
    snd (run world history (replaceLoop re repl fuel prev src))
    = replaceAll re f fuel prev src.
Proof.
  intros Hrepl. induction fuel as [|fuel IH]; intros prev src world history;
    [reflexivity|].
  cbn [replaceLoop replaceAll].
  destruct (findMatch re prev src) as [[[g m] rest]|]; [|reflexivity].
  rewrite run_bind, Hrepl.
  destruct m as [|c m]; [destruct rest as [|d rest]|].
  - reflexivity.
  - rewrite run_bind, IH. reflexivity.
  - rewrite run_bind, IH. reflexivity.
Qed.

Lemma replaceLoop_ext (re : regex) (repl1 repl2 : bytes -> Prog bytes) :
  (forall m, repl1 m = repl2 m) ->
  forall fuel prev src,
    replaceLoop re repl1 fuel prev src = replaceLoop re repl2 fuel prev src.
Proof.
  intros Hext. induction fuel as [|fuel IH]; intros prev src; [reflexivity|].
  cbn [replaceLoop].
  destruct (findMatch re prev src) as [[[g m] rest]|]; [|reflexivity].
  rewrite Hext.
  destruct m as [|c m]; [destruct rest as [|d rest]|].
  - reflexivity.
  - rewrite IH. reflexivity.
  - rewrite IH. reflexivity.
Qed.

(** ** The cut of a text into tokens *)

(** Two cuts of one text at the same lengths are the same cut. *)
Lemma app_eq_length (a b c d : bytes) :
  a ++ b = c ++ d -> length a = length c -> a = c /\ b = d.
Proof.
  revert c. induction a as [|x a IH]; intros [|y c] H Hl; try discriminate.
  - auto.
  - injection H as -> H. injection Hl as Hl. destruct (IH _ H Hl) as [-> ->]. auto.
Qed.

(** Of two prefixes of one text the shorter is a prefix of the longer. *)
Lemma app_eq_shorter (a b c d : bytes) :
  a ++ b = c ++ d -> (length a <= length c)%nat -> exists x, c = a ++ x /\ b = x ++ d.
Proof.
  revert c. induction a as [|x a IH]; intros c H Hl.
  - exists c. auto.
  - destruct c as [|y c]; [simpl in Hl; lia|]. injection H as -> H.
    simpl in Hl. destruct (IH c H) as (z & -> & ->); [lia|]. exists z. auto.
Qed.

(** The repetition is greedy: the continuation has failed after every
    longer run before it is tried after a shorter one. *)
Lemma matchStar_greedy (cls : ascii -> bool) (s : bytes) :
  forall prev k e,
    matchStar cls prev s k = Some e ->
    exists m rest,
      s = m ++ rest /\ Forall (fun c => cls c = true) m
      /\ k (last_byte prev m) rest = Some e
      /\ (forall m' rest', s = m' ++ rest' -> Forall (fun c => cls c = true) m' ->
            (length m < length m')%nat -> k (last_byte prev m') rest' = None).
Proof.
  induction s as [|c s IH]; intros prev k e H; simpl in H.
  - exists [], []. repeat split; [constructor | exact H |].
    intros m' rest' Hs _ Hl. symmetry in Hs. apply app_eq_nil in Hs as [-> _].
    simpl in Hl. lia.
  - assert (Hshort : k prev (c :: s) = Some e ->
                     (forall m' rest', c :: s = m' ++ rest' ->
                        Forall (fun c => cls c = true) m' ->
                        (0 < length m')%nat -> k (last_byte prev m') rest' = None) ->
                     exists m rest,
                       c :: s = m ++ rest /\ Forall (fun c => cls c = true) m
                       /\ k (last_byte prev m) rest = Some e
                       /\ (forall m' rest', c :: s = m' ++ rest' ->
                             Forall (fun c => cls c = true) m' ->
                             (length m < length m')%nat ->
                             k (last_byte prev m') rest' = None)).
    { intros Hk Hno. exists [], (c :: s). repeat split; [constructor | exact Hk | exact Hno]. }
    destruct (cls c) eqn:Ec.
    + destruct (matchStar cls (Some c) s k) as [e'|] eqn:E.
      * injection H as ->. destruct (IH _ _ _ E) as (m & rest & -> & Hm & Hk & Hno).
        exists (c :: m), rest. repeat split; [constructor; assumption | exact Hk |].
        intros m' rest' Hs Hm' Hl. destruct m' as [|d m']; [simpl in Hl; lia|].
        injection Hs as <- Hs. inversion Hm' as [|? ? _ Hm'']; subst. simpl in Hl.
        apply (Hno m' rest' Hs); [exact Hm'' | lia].
      * apply Hshort; [exact H|]. intros m' rest' Hs Hm' Hl.
        destruct m' as [|d m']; [simpl in Hl; lia|]. injection Hs as <- Hs.
        inversion Hm' as [|? ? _ Hm'']; subst.
        exact (matchStar_complete _ _ _ _ E m' rest' eq_refl Hm'').
    + apply Hshort; [exact H|]. intros m' rest' Hs Hm' Hl.
      destruct m' as [|d m']; [simpl in Hl; lia|]. injection Hs as <- Hs.
      inversion Hm' as [|? ? Hd _]; subst. congruence.
Qed.

(** ** Which match the pattern finds at a position *)

Lemma Matches_explicit (prev : option ascii) (m rest : bytes) :
  explicitRelative m ->
  Matches (Concat (Alternate (Lit (str "./")) (Lit (str "../"))) (PlusClass pathChar))
          prev m rest.
Proof.
  intros (t & Hm & Hne & Ht). destruct Hm as [-> | ->].
  - apply Matches_Concat; [apply Matches_Left; constructor|]. constructor; assumption.
  - apply Matches_Concat; [apply Matches_Right; constructor|]. constructor; assumption.
Qed.

Lemma Matches_extension (prev : option ascii) (e rest : bytes) :
  In e extensions -> isWordAfter rest = false ->
  Matches (Concat (Lit [dot]) (Concat (alternatives extensions) WordBoundary))
          prev (dot :: e) rest.
Proof.
  intros He Hb. change (dot :: e) with ([dot] ++ e).
  apply Matches_Concat; [constructor|].
  rewrite <- (app_nil_r e) at 1.
  apply Matches_Concat; [apply Matches_alternatives; exact He|].
  constructor. destruct (extensions_words e He) as [Hne Hw].
  rewrite (last_byte_word _ _ Hne Hw), Hb. reflexivity.
Qed.

Lemma Matches_extension_inv (prev : option ascii) (m rest : bytes) :
  Matches (Concat (Lit [dot]) (Concat (alternatives extensions) WordBoundary))
          prev m rest ->
  exists e, m = dot :: e /\ In e extensions /\ isWordAfter rest = false.
Proof.
  intros H. apply Matches_Concat_inv in H as (d & m3 & -> & Hd & H3).
  apply Matches_Lit_inv in Hd. subst d.
  apply Matches_Concat_inv in H3 as (e & m4 & -> & He & H4).
  apply Matches_alternatives in He.
  apply Matches_WordBoundary_inv in H4 as [-> Hb].
  rewrite app_nil_r. exists e. split; [reflexivity|]. split; [exact He|].
  destruct (extensions_words e He) as [Hne Hw].
  rewrite (last_byte_word _ _ Hne Hw) in Hb.
  destruct (isWordAfter rest); [discriminate | reflexivity].
Qed.

(** A word character after the token: a later byte of an extension. *)
Lemma isWordAfter_extension (t e x b m : bytes) :
  In e extensions -> m ++ x = t ++ dot :: e -> x <> [] ->
  (length x <= length e)%nat -> isWordAfter (x ++ b) = true.
Proof.
  intros He Hs Hne Hl.
  assert (Hsuf : exists y, e = y ++ x).
  { apply (f_equal (@rev ascii)) in Hs. rewrite !rev_app_distr in Hs.
    cbn [rev] in Hs. rewrite <- app_assoc in Hs.
    destruct (app_eq_shorter (rev x) (rev m) (rev e) ([dot] ++ rev t)) as (z & Hz & _).
    - exact Hs.
    - rewrite !length_rev. exact Hl.
    - exists (rev z). apply (f_equal (@rev ascii)) in Hz.
      rewrite rev_app_distr, !rev_involutive in Hz. exact Hz. }
  destruct Hsuf as [y ->]. destruct x as [|c x]; [congruence|].
  destruct (extensions_words _ He) as [_ Hw]. rewrite forallb_forall in Hw.
  simpl. apply Hw. apply in_or_app. right. left. reflexivity.
Qed.

Lemma matchRe_Alternate (r1 r2 : regex) (prev : option ascii) (s : bytes) (k : cont) :
  matchRe (Alternate r1 r2) prev s k
  = match matchRe r1 prev s k with
    | Some e => Some e
    | None => matchRe r2 prev s k
    end.
Proof. reflexivity. Qed.

Lemma matchRe_Concat (r1 r2 : regex) (prev : option ascii) (s : bytes) (k : cont) :
  matchRe (Concat r1 r2) prev s k
  = matchRe r1 prev s (fun prev' s' => matchRe r2 prev' s' k).
Proof. reflexivity. Qed.

Lemma matchRe_StarClass (cls : ascii -> bool) (prev : option ascii) (s : bytes)
    (k : cont) :
  matchRe (StarClass cls) prev s k = matchStar cls prev s k.
Proof. reflexivity. Qed.

(** The match found at a position is the longest path-like token that
    starts there: the first alternative takes every path-safe byte that
    follows, and the second, tried when the first fails, the longest
    stem. *)
Lemma matchHere_longest (prev : option ascii) (s m rest : bytes) :
  matchHere pathPattern prev s = Some (m, rest) ->
  forall m' b, s = m' ++ b -> pathLike m' b -> (length m' <= length m)%nat.
Proof.
  intros H m' b Hs' Hlike.
  destruct (matchHere_Some _ _ _ _ _ H) as [Hs _].
  unfold matchHere in H.
  destruct (matchRe pathPattern prev s (fun _ rest => Some rest)) as [e|] eqn:E;
    [|discriminate].
  injection H as _ <-.
  destruct (Nat.le_gt_cases (length m') (length m)) as [|Hlong]; [assumption|exfalso].
  destruct (pathLike_pathSafe _ _ Hlike) as [_ Hsafe].
  destruct (app_eq_shorter m e m' b) as (x & Hm' & He); [congruence | lia |].
  assert (Hx : x <> []).
  { intros ->. rewrite app_nil_r in Hm'. subst m'. lia. }
  unfold pathPattern in E. rewrite matchRe_Alternate in E.
  match type of E with
  | match ?a with _ => _ end = _ => destruct a as [e1|] eqn:EA
  end.
  - (* the first alternative *)
    injection E as ->. rewrite matchRe_Concat in EA.
    destruct (matchRe_sound _ _ _ _ _ EA) as (l & y & Hl & _ & Hy).
    cbn [matchRe] in Hy.
    destruct y as [|c y]; [discriminate|]. destruct (pathChar c) eqn:Ec; [|discriminate].
    destruct (matchStar_greedy _ _ _ _ _ Hy) as (r & rest & -> & Hr & [= ->] & Hno).
    assert (Hm : m = l ++ c :: r).
    { apply (app_inv_tail e). rewrite <- Hs, Hl, <- app_assoc. reflexivity. }
    subst m. rewrite <- app_assoc in Hm'. cbn [app] in Hm'.
    assert (Hall : Forall (fun c => pathChar c = true) (r ++ x)).
    { subst m'. apply Forall_app in Hsafe as [_ Hsafe].
      inversion Hsafe as [|? ? _ Hsafe']; subst. exact Hsafe'. }
    specialize (Hno (r ++ x) b). cbv beta in Hno.
    rewrite <- app_assoc, <- He in Hno.
    specialize (Hno eq_refl Hall). rewrite length_app in Hno.
    destruct x; [congruence|]. cbn [length] in Hno.
    assert (Hnone : Some b = None) by (apply Hno; lia). discriminate.
  - (* the second alternative *)
    rewrite matchRe_Concat, matchRe_StarClass in E.
    destruct (matchStar_greedy _ _ _ _ _ E) as (t & r1 & Ht1 & Ht & Hk & Hno).
    cbv beta in Hk.
    destruct (matchRe_sound _ _ _ _ _ Hk) as (mR & rest' & -> & HR & [= ->]).
    apply Matches_extension_inv in HR as (e0 & -> & He0 & Hb0).
    assert (Hm : m = t ++ dot :: e0).
    { apply (app_inv_tail e). rewrite <- Hs, Ht1, <- app_assoc. reflexivity. }
    destruct Hlike as [Hex|[(t' & e' & Hbare & Ht' & He') Hb']].
    + apply (Matches_explicit prev m' b) in Hex.
      rewrite Hs' in EA. apply (matchRe_complete _ _ _ _ Hex) in EA. discriminate.
    + destruct (Nat.le_gt_cases (length t') (length t)) as [Hle|Hgt].
      * rewrite He in Hb0.
        rewrite (isWordAfter_extension t' e' x b m He') in Hb0;
          [discriminate | congruence | exact Hx |].
        apply (f_equal (@length ascii)) in Hm', Hbare.
        rewrite Hbare in Hm'. subst m.
        rewrite !length_app in Hm'. cbn [length] in Hm'.
        destruct (extensions_words _ He0) as [Hne0 _].
        destruct e0; [congruence|]. cbn [length] in Hm'. lia.
      * pose proof (Matches_extension (last_byte prev t') e' b He' Hb') as HR'.
        assert (Hnone : matchRe (Concat (Lit [dot])
                                   (Concat (alternatives extensions) WordBoundary))
                          (last_byte prev t') ((dot :: e') ++ b)
                          (fun _ rest => Some rest) = None).
        { apply (Hno t' ((dot :: e') ++ b)); [|exact Ht'|exact Hgt].
          rewrite Hs', Hbare, <- app_assoc. reflexivity. }
        apply (matchRe_complete _ _ _ _ HR') in Hnone. discriminate.
Qed.

Lemma findMatch_matchHere (re : regex) (s : bytes) :
  forall prev g m rest,
    findMatch re prev s = Some (g, m, rest) ->
    matchHere re (last_byte prev g) (m ++ rest) = Some (m, rest).
Proof.
  induction s as [|c s IH]; intros prev g m rest H; simpl in H.
  - destruct (matchHere re prev []) as [[m0 rest0]|] eqn:E; [|discriminate].
    injection H as <- <- <-. destruct (matchHere_Some _ _ _ _ _ E) as [<- _]. exact E.
  - destruct (matchHere re prev (c :: s)) as [[m0 rest0]|] eqn:E.
    + injection H as <- <- <-. destruct (matchHere_Some _ _ _ _ _ E) as [<- _]. exact E.
    + destruct (findMatch re (Some c) s) as [[[g0 m0] rest0]|] eqn:E'; [|discriminate].
      injection H as <- <- <-. exact (IH _ _ _ _ E').
Qed.

(** A text has one cut. *)
Lemma Scanned_unique (s : bytes) (ps : list piece) :
  Scanned s ps -> forall ps', Scanned s ps' -> ps' = ps.
Proof.
  induction 1 as [s Hnone|g m rest ps Hm Hleft Hlong Hrest IH]; intros ps' H'.
  - inversion H' as [s' _ Hs|g' m' rest' ps0 Hm' _ _ _ Hs]; subst; [reflexivity|].
    exfalso. exact (Hnone g' m' rest' eq_refl Hm').
  - inversion H' as [s0 Hnone Hs0 Hps|g' m' rest' ps0 Hm' Hleft' Hlong' Hrest' Es Hps].
    + exfalso. subst s0. exact (Hnone g m rest eq_refl Hm).
    + assert (Hg : length g' = length g).
      { destruct (Nat.lt_trichotomy (length g') (length g)) as [Hlt|[Heq|Hgt]];
          [exfalso | exact Heq | exfalso].
        - exact (Hleft g' m' rest' (eq_sym Es) Hlt Hm').
        - exact (Hleft' g m rest Es Hgt Hm). }
      destruct (app_eq_length _ _ _ _ Es Hg) as [-> Ems].
      assert (Hl : length m' = length m).
      { apply Nat.le_antisymm.
        - exact (Hlong m' rest' (eq_sym Ems) Hm').
        - exact (Hlong' m rest Ems Hm). }
      destruct (app_eq_length _ _ _ _ Ems Hl) as [-> ->].
      rewrite (IH _ Hrest'). reflexivity.
Qed.

(** One pass of the loop with [pathPattern] cuts the text into pieces as
    [Scanned] describes and rewrites the tokens. *)
Lemma replaceAll_pieces (baseDir : bytes) :
  forall fuel src prev, (length src < fuel)%nat ->
    Scanned src (cutPieces fuel prev src)
    /\ concat (map pieceText (cutPieces fuel prev src)) = src
    /\ replaceAll pathPattern (resolveMatch baseDir) fuel prev src
       = concat (map (rewritten baseDir) (cutPieces fuel prev src)).
Proof.
  induction fuel as [|fuel IH]; intros src prev Hlen; [lia|].
  cbn [replaceAll cutPieces].
  destruct (findMatch pathPattern prev src) as [[[g m] rest]|] eqn:E.
  - pose proof (findMatch_matchHere _ _ _ _ _ _ E) as Hhere.
    apply findMatch_Some in E as (Hs & Hm & Hgap).
    apply pathPattern_Matches in Hm.
    destruct (pathLike_pathSafe _ _ Hm) as [Hne _].
    destruct m as [|c m]; [congruence|].
    assert (Hrest : (length rest < fuel)%nat).
    { subst src. rewrite !length_app in Hlen. simpl in Hlen. lia. }
    destruct (IH rest (last_byte prev (g ++ c :: m)) Hrest) as (Hsc & Htext & Hrw).
    split; [|split].
    + subst src. apply Scanned_token; [exact Hm | | | exact Hsc].
      * intros a m' b Hsplit Ha Hlike.
        assert (Hg : g = a ++ skipn (length a) g).
        { apply (f_equal (firstn (length a))) in Hsplit.
          rewrite !firstn_app, Nat.sub_diag, firstn_O, app_nil_r, firstn_all in Hsplit.
          replace (length a - length g)%nat with 0%nat in Hsplit by lia.
          rewrite firstn_O, app_nil_r in Hsplit.
          rewrite <- Hsplit at 1. symmetry. apply firstn_skipn. }
        apply (Hgap a (skipn (length a) g) m' b Hg).
        -- intros Hnil. apply (f_equal (@length ascii)) in Hg.
           rewrite Hnil, app_nil_r in Hg. lia.
        -- rewrite Hg in Hsplit at 1. rewrite <- app_assoc in Hsplit.
           apply app_inv_head in Hsplit. exact Hsplit.
        -- apply pathPattern_Matches. exact Hlike.
      * exact (matchHere_longest _ _ _ _ Hhere).
    + cbn [map concat pieceText]. rewrite Htext. symmetry. exact Hs.
    + cbn [map concat]. rewrite Hrw, (resolveMatch_token _ _ _ Hm). reflexivity.
  - split; [|split].
    + apply Scanned_end. intros a m b Hs Hlike.
      apply (findMatch_None _ _ _ E a m b Hs). apply pathPattern_Matches. exact Hlike.
    + simpl. apply app_nil_r.
    + simpl. symmetry. apply app_nil_r.
Qed.

(** [pathPattern] has no empty match: the loop never takes the steps kept
    for one. *)
Lemma pathPattern_match_nonempty (prev : option ascii) (s g m rest : bytes) :
  findMatch pathPattern prev s = Some (g, m, rest) -> m <> [].
Proof.
  intros H. apply findMatch_Some in H as (_ & Hm & _).
  apply pathPattern_Matches in Hm. apply (pathLike_pathSafe _ _ Hm).
Qed.

Lemma run_resolveCallback (c : Client) (baseDir m : bytes) (world : Oracle)
    (history : list Call) :
  snd (run world history
         (let match_ := TrimSpace m in
          if bytes_eqb match_ [] then Ret match_
          else if IsAbs match_ then Ret match_
          else
            let resolvedPath := filepath_Join [baseDir; match_] in
            let cleanPath := Clean resolvedPath in
            DebugWith (logger c) (str "Resolved relative path")
              [(str "original", vString match_); (str "resolved", vString cleanPath)] ;;
            Ret cleanPath))
  = resolveMatch baseDir m.
Proof.
  unfold resolveMatch. cbv zeta.
  destruct (bytes_eqb (TrimSpace m) []); [reflexivity|].
  destruct (IsAbs (TrimSpace m)); [reflexivity|].
  rewrite run_bind. reflexivity.
Qed.

Lemma run_resolveRelativePaths (c : Client) (prompt baseDir : bytes)
    (world : Oracle) (history : list Call) :
  snd (run world history (resolveRelativePaths c prompt baseDir))
  = (replaceAll pathPattern (resolveMatch baseDir) (S (length prompt)) None prompt,
     None).
Proof.
  unfold resolveRelativePaths, ReplaceAllStringFunc. rewrite run_bind. cbn [run snd].
  rewrite (run_replaceLoop pathPattern _ (resolveMatch baseDir)); [reflexivity|].
  intros m w h. apply run_resolveCallback.
Qed.

(** ** Joining with the base directory *)

Lemma filepath_Join_base (baseDir m : bytes) :
  baseDir <> [] -> filepath_Join [baseDir; m] = Clean (baseDir ++ Separator :: m).
Proof.
  intros H. apply bytes_eqb_nil_false in H. cbn [filepath_Join]. rewrite H.
  reflexivity.
Qed.

Lemma filepath_Join_empty_base (m : bytes) :
  m <> [] -> filepath_Join [[]; m] = Clean m.
Proof.
  intros H. apply bytes_eqb_nil_false in H. cbn [filepath_Join bytes_eqb negb].
  rewrite H. reflexivity.
Qed.

Lemma cleanLoop_separator (fuel : nat) (rooted : bool) (p out : bytes) (dd : nat) :
  cleanLoop (S fuel) rooted (Separator :: p) out dd = cleanLoop fuel rooted p out dd.
Proof. reflexivity. Qed.

Lemma cleanLoop_dot_element (fuel : nat) (rooted : bool) (p out : bytes) (dd : nat) :
  cleanLoop (S fuel) rooted (dot :: Separator :: p) out dd
  = cleanLoop fuel rooted (Separator :: p) out dd.
Proof. reflexivity. Qed.

(** A leading [./] does not change what a relative path cleans to. *)
Lemma Clean_dot_slash (m : bytes) :
  m <> [] -> IsAbs m = false -> Clean (dot :: Separator :: m) = Clean m.
Proof.
  intros Hne Habs. destruct m as [|c m]; [congruence|].
  assert (Hc : IsPathSeparator c = false).
  { unfold IsAbs, HasPrefix in Habs. simpl in Habs. unfold IsPathSeparator.
    destruct (Ascii.eqb c Separator); [discriminate | reflexivity]. }
  unfold Clean. rewrite Hc.
  change (IsPathSeparator dot) with false. cbv iota.
  change (length (dot :: Separator :: c :: m)) with (S (S (length (c :: m)))).
  rewrite cleanLoop_dot_element, cleanLoop_separator. reflexivity.
Qed.

(** With the empty base directory the callback does what it does with
    the base directory [.]. *)
Lemma resolveCallback_empty_base (c : Client) (m : bytes) :
  (let match_ := TrimSpace m in
   if bytes_eqb match_ [] then Ret match_
   else if IsAbs match_ then Ret match_
   else
     let resolvedPath := filepath_Join [[]; match_] in
     let cleanPath := Clean resolvedPath in
     DebugWith (logger c) (str "Resolved relative path")
       [(str "original", vString match_); (str "resolved", vString cleanPath)] ;;
     Ret cleanPath)
  = (let match_ := TrimSpace m in
     if bytes_eqb match_ [] then Ret match_
     else if IsAbs match_ then Ret match_
     else
       let resolvedPath := filepath_Join [[dot]; match_] in
       let cleanPath := Clean resolvedPath in
       DebugWith (logger c) (str "Resolved relative path")
         [(str "original", vString match_); (str "resolved", vString cleanPath)] ;;
       Ret cleanPath).
Proof.
  cbv zeta. destruct (bytes_eqb (TrimSpace m) []) eqn:E; [reflexivity|].
  destruct (IsAbs (TrimSpace m)) eqn:E'; [reflexivity|].
  apply bytes_eqb_nil_false in E.
  rewrite filepath_Join_empty_base by assumption.
  rewrite filepath_Join_base by discriminate.
  change ([dot] ++ Separator :: TrimSpace m) with (dot :: Separator :: TrimSpace m).
  rewrite Clean_dot_slash by assumption. reflexivity.
Qed.

(** ** Path resolution *)

(** C5: for a non-empty base directory, [resolveRelativePaths] makes one
    left-to-right pass over the prompt.  The prompt falls in exactly one
    way into stretches of text and path-like tokens ([./x], [../x], or
    path-safe bytes ending in a recognized extension at a word boundary)
    such that no path-like token starts in a stretch of text and every
    token is the longest path-like token that starts where it starts.
    The text is returned untouched, a token that is an absolute path is
    returned unchanged, and every other token is replaced by the cleaned
    join of the base directory and the token. *)
Theorem resolve_rewrites_tokens (c : Client) (prompt baseDir : bytes)
    (world : Oracle) (history : list Call) :
  baseDir <> [] ->
  exists pieces,
    Scanned prompt pieces
    /\ (forall other, Scanned prompt other -> other = pieces)
    /\ concat (map pieceText pieces) = prompt
    /\ snd (run world history (resolveRelativePaths c prompt baseDir))
       = (concat (map (rewritten baseDir) pieces), None)
    /\ (forall t, rewritten baseDir (Text t) = t)
    /\ (forall m, IsAbs m = true -> rewritten baseDir (Token m) = m)
    /\ (forall m, IsAbs m = false ->
          rewritten baseDir (Token m) = Clean (Clean (baseDir ++ Separator :: m))).
Proof.
  intros Hbase. rewrite run_resolveRelativePaths.
  destruct (replaceAll_pieces baseDir (S (length prompt)) prompt None
              (Nat.lt_succ_diag_r _)) as (Hsc & Htext & Hrw).
  exists (cutPieces (S (length prompt)) None prompt).
  split; [exact Hsc|]. split; [exact (Scanned_unique _ _ Hsc)|].
  split; [exact Htext|].
  split; [rewrite Hrw; reflexivity|]. split; [reflexivity|]. split.
  - intros m Hm. simpl. rewrite Hm. reflexivity.
  - intros m Hm. simpl. rewrite Hm. unfold normalizedJoin.
    rewrite filepath_Join_base by assumption. reflexivity.
Qed.

Lemma resolve_rewrites_tokens_witness :
  exists pieces,
    Scanned (str "Analyze ./main.go") pieces
    /\ (forall other, Scanned (str "Analyze ./main.go") other -> other = pieces)
    /\ concat (map pieceText pieces) = str "Analyze ./main.go"
    /\ snd (run quietWorld []
              (resolveRelativePaths NewClient (str "Analyze ./main.go")
                 (str "/project/src")))
       = (concat (map (rewritten (str "/project/src")) pieces), None)
    /\ (forall t, rewritten (str "/project/src") (Text t) = t)
    /\ (forall m, IsAbs m = true -> rewritten (str "/project/src") (Token m) = m)
    /\ (forall m, IsAbs m = false ->
          rewritten (str "/project/src") (Token m)
          = Clean (Clean (str "/project/src" ++ Separator :: m))).
Proof.
  apply (resolve_rewrites_tokens NewClient (str "Analyze ./main.go")
           (str "/project/src") quietWorld []).
  discriminate.
Defined.

(** The cut of a prompt can be computed; here the one of the prompt
    above, and a cut that ends the token too early, which is none. *)
Lemma Scanned_cutPieces (prompt : bytes) :
  Scanned prompt (cutPieces (S (length prompt)) None prompt).
Proof.
  apply (replaceAll_pieces [] (S (length prompt)) prompt None (Nat.lt_succ_diag_r _)).
Qed.

Example cut_Analyze_main_go :
  Scanned (str "Analyze ./main.go")
          [Text (str "Analyze "); Token (str "./main.go"); Text []]
  /\ ~ Scanned (str "Analyze ./main.go")
        [Text (str "Analyze "); Token (str "./m"); Text [];
         Token (str "ain.go"); Text []]
  /\ concat (map (rewritten (str "/project/src"))
               [Text (str "Analyze "); Token (str "./main.go"); Text []])
     = str "Analyze /project/src/main.go".
Proof.
  pose proof (Scanned_cutPieces (str "Analyze ./main.go")) as H.
  vm_compute in H. split; [exact H|]. split; [|vm_compute; reflexivity].
  intros H'. apply (Scanned_unique _ _ H) in H'. discriminate.
Qed.

(** The cases of [TestResolveRelativePaths]. *)
Example resolve_test_RelativePathWithDoubleDot :
  snd (run quietWorld []
         (resolveRelativePaths NewClient (str "Check ../config.json") (str "/project/src")))
  = (str "Check /project/config.json", None).
Proof. vm_compute. reflexivity. Qed.

Example resolve_test_MultiplePathsInPrompt :
  snd (run quietWorld []
         (resolveRelativePaths NewClient (str "Compare ./file1.txt and ./file2.txt")
            (str "/project")))
  = (str "Compare /project/file1.txt and /project/file2.txt", None).
Proof. vm_compute. reflexivity. Qed.

Example resolve_test_MixedPathTypes :
  snd (run quietWorld []
         (resolveRelativePaths NewClient
            (str "Compare ./local.txt with /absolute/remote.txt") (str "/project")))
  = (str "Compare /project/local.txt with /absolute/remote.txt", None).
Proof. vm_compute. reflexivity. Qed.

Example resolve_test_NoPathsInPrompt :
  snd (run quietWorld []
         (resolveRelativePaths NewClient (str "What is the weather today?")
            (str "/project")))
  = (str "What is the weather today?", None).
Proof. vm_compute. reflexivity. Qed.

Example resolve_test_SubdirectoryPath :
  snd (run quietWorld []
         (resolveRelativePaths NewClient (str "Check subdir/file.py") (str "/project")))
  = (str "Check /project/subdir/file.py", None).
Proof. vm_compute. reflexivity. Qed.

(** C9: [resolveRelativePaths] never returns an error; and with the empty
    base directory it is the same program as with the base directory
    [.]: relative tokens are still joined and cleaned, the result being
    the path relative to [.]. *)
Theorem resolve_never_fails (c : Client) (prompt baseDir : bytes)
    (world : Oracle) (history : list Call) :
  snd (snd (run world history (resolveRelativePaths c prompt baseDir))) = None
  /\ resolveRelativePaths c prompt [] = resolveRelativePaths c prompt [dot]
  /\ snd (run world history (resolveRelativePaths c (str "./test.txt") []))
     = (str "test.txt", None).
Proof.
  split; [|split].
  - rewrite run_resolveRelativePaths. reflexivity.
  - unfold resolveRelativePaths, ReplaceAllStringFunc.
    rewrite (replaceLoop_ext pathPattern _ _ (resolveCallback_empty_base c)).
    reflexivity.
  - rewrite run_resolveRelativePaths. vm_compute. reflexivity.
Qed.

(** ** Bytes, bits and UTF-8 *)

Lemma b2z_range (c : ascii) : 0 <= b2z c < 256.
Proof.
  unfold b2z. pose proof (N_ascii_bounded c) as H. lia.
Qed.

Lemma b2z_z2b (n : Z) : b2z (z2b n) = n mod 256.
Proof.
  unfold b2z, z2b. pose proof (Z.mod_pos_bound n 256 ltac:(lia)) as H.
  rewrite N_ascii_embedding by lia. lia.
Qed.

Lemma z2b_b2z (c : ascii) : z2b (b2z c) = c.
Proof.
  unfold z2b. pose proof (b2z_range c) as H.
  rewrite Z.mod_small by lia. unfold b2z. rewrite N2Z.id. apply ascii_N_embedding.
Qed.

Lemma b2z_inj (c d : ascii) : b2z c = b2z d -> c = d.
Proof. intros H. rewrite <- (z2b_b2z c), <- (z2b_b2z d), H. reflexivity. Qed.

Lemma lor_ge_l (a b : Z) : 0 <= a -> 0 <= b -> a <= Z.lor a b.
Proof.
  intros Ha Hb. pose proof (Z.sub_lor_l_same_l b a) as H.
  assert (0 <= Z.land b (Z.lnot a)) by (apply Z.land_nonneg; lia). lia.
Qed.

Lemma lor_ge_r (a b : Z) : 0 <= a -> 0 <= b -> b <= Z.lor a b.
Proof. intros. rewrite Z.lor_comm. apply lor_ge_l; assumption. Qed.

Lemma high_bit_byte (n : Z) : Z.testbit n 7 = true -> 0x80 <= b2z (z2b n).
Proof.
  intros H. rewrite b2z_z2b.
  pose proof (Z.mod_pos_bound n 256 ltac:(lia)) as Hm.
  assert (Hb : Z.testbit (n mod 256) 7 = true).
  { change 256 with (2 ^ 8). rewrite Z.mod_pow2_bits_low by lia. exact H. }
  destruct (Z.lt_ge_cases (n mod 256) 0x80) as [Hlt|]; [|assumption].
  exfalso. destruct (Z.eq_dec (n mod 256) 0) as [E|E].
  - rewrite E in Hb. discriminate.
  - rewrite Z.bits_above_log2 in Hb; [discriminate | lia |].
    apply Z.log2_lt_pow2; lia.
Qed.

Lemma lor_high_byte (K y : Z) : Z.testbit K 7 = true -> nonASCII (z2b (Z.lor K y)).
Proof.
  intros H. apply high_bit_byte. rewrite Z.lor_spec, H. reflexivity.
Qed.

Lemma EncodeRune_ascii (r : Z) : 0 <= r <= 0x7F -> EncodeRune r = [z2b r].
Proof.
  intros H. unfold EncodeRune.
  destruct (Z.leb_spec 0 r); [|lia]. destruct (Z.leb_spec r 0x7F); [|lia].
  reflexivity.
Qed.

Lemma EncodeRune_other (r : Z) :
  ~ (0 <= r <= 0x7F) -> EncodeRune r <> [] /\ Forall nonASCII (EncodeRune r).
Proof.
  intros H. unfold EncodeRune, encode3.
  destruct ((0 <=? r) && (r <=? 0x7F)) eqn:E1.
  { apply andb_true_iff in E1 as [E1 E2]. lia. }
  destruct ((0 <=? r) && (r <=? 0x7FF));
    [|destruct ((r <? 0) || (MaxRune <? r) || ((0xD800 <=? r) && (r <=? 0xDFFF)));
      [|destruct (r <=? 0xFFFF)]];
    (split; [discriminate|]);
    repeat (constructor; [apply lor_high_byte; reflexivity|]); constructor.
Qed.

Lemma inRange_cont (lo hi : Z) (c : ascii) :
  0x80 <= lo -> hi <= 0xBF -> inRange lo hi c = true -> isCont c = true.
Proof.
  unfold isCont, inRange. intros Hlo Hhi H.
  apply andb_true_iff in H as [H1 H2]. apply andb_true_iff. split; lia.
Qed.

Lemma leadInfo_Some (x : Z) (sz : nat) (lo hi : Z) :
  leadInfo x = Some (sz, (lo, hi)) ->
  0xC2 <= x <= 0xF4 /\ 0x80 <= lo /\ hi <= 0xBF
  /\ ((sz = 2%nat /\ x < 0xE0)
      \/ (sz = 3%nat /\ 0xE0 <= x < 0xF0 /\ (x = 0xE0 -> lo = 0xA0))
      \/ (sz = 4%nat /\ 0xF0 <= x /\ (x = 0xF0 -> lo = 0x90))).
Proof.
  unfold leadInfo.
  repeat match goal with
         | |- context [?a <? ?b] => destruct (Z.ltb_spec a b)
         | |- context [?a =? ?b] => destruct (Z.eqb_spec a b)
         end; intros [= <- <- <-]; lia.
Qed.

Lemma land_mask (x : Z) (n : Z) : 0 <= n -> Z.land x (Z.ones n) = x mod 2 ^ n.
Proof. apply Z.land_ones. Qed.

Lemma decode2_ge (x y : Z) :
  0xC2 <= x < 0xE0 -> 0 <= y ->
  0x80 <= Z.lor (Z.shiftl (Z.land x 0x1F) 6) (Z.land y 0x3F).
Proof.
  intros Hx Hy.
  assert (H1 : Z.land x 0x1F = x mod 32) by (apply (land_mask x 5); lia).
  assert (H2 : 0 <= Z.land y 0x3F) by (apply Z.land_nonneg; lia).
  rewrite H1, Z.shiftl_mul_pow2 by lia.
  assert (H3 : 2 <= x mod 32) by (Z.div_mod_to_equations; lia).
  etransitivity; [|apply lor_ge_l]; lia.
Qed.

Lemma decode3_ge (x y z : Z) :
  0xE0 <= x < 0xF0 -> (x = 0xE0 -> 0xA0 <= y) -> 0x80 <= y <= 0xBF -> 0 <= z ->
  0x80 <= Z.lor (Z.shiftl (Z.land x 0x0F) 12)
            (Z.lor (Z.shiftl (Z.land y 0x3F) 6) (Z.land z 0x3F)).
Proof.
  intros Hx Hx0 Hy Hz.
  assert (H1 : Z.land x 0x0F = x mod 16) by (apply (land_mask x 4); lia).
  assert (H2 : Z.land y 0x3F = y mod 64) by (apply (land_mask y 6); lia).
  assert (H3 : 0 <= Z.land z 0x3F) by (apply Z.land_nonneg; lia).
  rewrite H1, H2, !Z.shiftl_mul_pow2 by lia.
  assert (H4 : 0 <= x mod 16) by (Z.div_mod_to_equations; lia).
  assert (H5 : 0 <= y mod 64) by (Z.div_mod_to_equations; lia).
  assert (H6 : y mod 64 * 2 ^ 6 <= Z.lor (y mod 64 * 2 ^ 6) (Z.land z 0x3F))
    by (apply lor_ge_l; lia).
  destruct (Z.eq_dec x 0xE0) as [E|E].
  - assert (32 <= y mod 64) by (specialize (Hx0 E); Z.div_mod_to_equations; lia).
    etransitivity; [|apply lor_ge_r]; lia.
  - assert (1 <= x mod 16) by (Z.div_mod_to_equations; lia).
    etransitivity; [|apply lor_ge_l]; lia.
Qed.

Lemma decode4_ge (x y z u : Z) :
  0xF0 <= x <= 0xF4 -> (x = 0xF0 -> 0x90 <= y) -> 0x80 <= y <= 0xBF ->
  0 <= z -> 0 <= u ->
  0x80 <= Z.lor (Z.shiftl (Z.land x 0x07) 18)
            (Z.lor (Z.shiftl (Z.land y 0x3F) 12)
               (Z.lor (Z.shiftl (Z.land z 0x3F) 6) (Z.land u 0x3F))).
Proof.
  intros Hx Hx0 Hy Hz Hu.
  assert (H1 : Z.land x 0x07 = x mod 8) by (apply (land_mask x 3); lia).
  assert (H2 : Z.land y 0x3F = y mod 64) by (apply (land_mask y 6); lia).
  assert (H3 : 0 <= Z.land z 0x3F) by (apply Z.land_nonneg; lia).
  assert (H3' : 0 <= Z.land u 0x3F) by (apply Z.land_nonneg; lia).
  rewrite H1, H2, !Z.shiftl_mul_pow2 by lia.
  assert (H4 : 0 <= x mod 8) by (Z.div_mod_to_equations; lia).
  assert (H5 : 0 <= y mod 64) by (Z.div_mod_to_equations; lia).
  assert (H7 : 0 <= Z.lor (Z.land z 0x3F * 2 ^ 6) (Z.land u 0x3F))
    by (apply Z.lor_nonneg; lia).
  assert (H6 : y mod 64 * 2 ^ 12
               <= Z.lor (y mod 64 * 2 ^ 12)
                    (Z.lor (Z.land z 0x3F * 2 ^ 6) (Z.land u 0x3F)))
    by (apply lor_ge_l; lia).
  destruct (Z.eq_dec x 0xF0) as [E|E].
  - assert (16 <= y mod 64) by (specialize (Hx0 E); Z.div_mod_to_equations; lia).
    etransitivity; [|apply lor_ge_r]; lia.
  - assert (1 <= x mod 8) by (Z.div_mod_to_equations; lia).
    etransitivity; [|apply lor_ge_l]; lia.
Qed.

Lemma inRange_bounds (lo hi : Z) (c : ascii) :
  inRange lo hi c = true -> lo <= b2z c <= hi.
Proof. unfold inRange. intros H. apply andb_true_iff in H as [H1 H2]. lia. Qed.

(** The three ways [DecodeRune] can end on a non-empty string. *)
Lemma DecodeRune_cases (s0 : ascii) (t : bytes) :
  (b2z s0 < 0x80 /\ DecodeRune (s0 :: t) = (b2z s0, 1%nat))
  \/ (0x80 <= b2z s0 /\ DecodeRune (s0 :: t) = (RuneError, 1%nat))
  \/ exists c w tl rest,
       DecodeRune (s0 :: t) = (c, S w) /\ t = tl ++ rest /\ length tl = w
       /\ tl <> [] /\ 0xC2 <= b2z s0 /\ 0x80 <= c
       /\ Forall (fun b => isCont b = true) tl
       /\ forall x, DecodeRune (s0 :: tl ++ x) = (c, S w).
Proof.
  pose proof (b2z_range s0) as R0.
  unfold DecodeRune. cbv zeta.
  destruct (b2z s0 <? RuneSelf) eqn:E0.
  { left. apply Z.ltb_lt in E0. auto. }
  apply Z.ltb_ge in E0. unfold RuneSelf in E0.
  destruct (leadInfo (b2z s0)) as [[sz [lo hi]]|] eqn:EL; [|right; left; auto].
  pose proof (leadInfo_Some _ _ _ _ EL) as (Hx & Hlo & Hhi & Hsz).
  destruct t as [|s1 t1]; [right; left; auto|].
  destruct (inRange lo hi s1) eqn:E1; cbn [negb]; [|right; left; auto].
  pose proof (inRange_bounds _ _ _ E1) as B1.
  pose proof (inRange_cont _ _ _ Hlo Hhi E1) as C1.
  pose proof (b2z_range s1) as R1.
  destruct (sz <=? 2)%nat eqn:Es2.
  { right. right. eexists _, 1%nat, [s1], t1.
    split; [reflexivity|]. split; [reflexivity|]. split; [reflexivity|].
    split; [discriminate|]. split; [lia|]. split.
    - apply decode2_ge; [|lia]. apply Nat.leb_le in Es2. lia.
    - split; [repeat constructor; assumption|].
      intros x. cbn [app]. rewrite E1. reflexivity. }
  destruct t1 as [|s2 t2]; [right; left; auto|].
  destruct (inRange 0x80 0xBF s2) eqn:E2; cbn [negb]; [|right; left; auto].
  pose proof (b2z_range s2) as R2.
  destruct (sz <=? 3)%nat eqn:Es3.
  { right. right. eexists _, 2%nat, [s1; s2], t2.
    split; [reflexivity|]. split; [reflexivity|]. split; [reflexivity|].
    split; [discriminate|]. split; [lia|]. split.
    - apply Nat.leb_gt in Es2. apply Nat.leb_le in Es3.
      apply decode3_ge; lia.
    - split; [repeat constructor; assumption|].
      intros x. cbn [app]. rewrite E1. cbn [negb]. rewrite E2. reflexivity. }
  destruct t2 as [|s3 t3]; [right; left; auto|].
  destruct (inRange 0x80 0xBF s3) eqn:E3; cbn [negb]; [|right; left; auto].
  pose proof (b2z_range s3) as R3.
  right. right. eexists _, 3%nat, [s1; s2; s3], t3.
  split; [reflexivity|]. split; [reflexivity|]. split; [reflexivity|].
  split; [discriminate|]. split; [lia|]. split.
  - apply Nat.leb_gt in Es2. apply Nat.leb_gt in Es3.
    apply decode4_ge; lia.
  - split; [repeat constructor; assumption|].
    intros x. cbn [app]. rewrite E1. cbn [negb]. rewrite E2. cbn [negb].
    rewrite E3. reflexivity.
Qed.

Section Lowering.

Variable caseTable : Z -> Z.
Hypothesis caseTable_RuneError : caseTable RuneError = RuneError.
Hypothesis caseTable_nonneg : forall r, MaxASCII < r -> 0 <= caseTable r.

Let lower := unicode_ToLower caseTable.

Lemma lower_ascii (c : Z) : 0 <= c <= 0x7F -> 0 <= lower c <= 0x7F.
Proof.
  intros H. unfold lower, unicode_ToLower, MaxASCII, isUpperASCII.
  destruct (Z.leb_spec c 0x7F); [|lia].
  destruct (Z.leb_spec 65 c), (Z.leb_spec c 90); simpl; lia.
Qed.

Lemma lower_high (c : Z) : 0x80 <= c -> lower c = caseTable c /\ 0 <= lower c.
Proof.
  intros H. unfold lower, unicode_ToLower, MaxASCII.
  destruct (Z.leb_spec c 0x7F); [lia|].
  split; [reflexivity|]. apply caseTable_nonneg. unfold MaxASCII. lia.
Qed.

Lemma lower_RuneError : lower RuneError = RuneError.
Proof. unfold lower, unicode_ToLower. simpl. apply caseTable_RuneError. Qed.

Lemma DecodeRune_ascii (s0 : ascii) (t : bytes) :
  b2z s0 < 0x80 -> DecodeRune (s0 :: t) = (b2z s0, 1%nat).
Proof.
  intros H. destruct (DecodeRune_cases s0 t) as [[_ E]|[[H' _]|(c & w & tl & rest & _ & _ & _ & _ & H' & _)]];
    [exact E | lia | lia].
Qed.

(** A token with an ASCII image is a valid rune: it reads the same
    whatever follows it, and it does not start with a continuation byte. *)
Lemma asciiImage_token (s : bytes) (c' : ascii) :
  asciiImage lower s = Some c' ->
  s <> []
  /\ (1 <= width s <= length s)%nat
  /\ (forall x, DecodeRune (firstn (width s) s ++ x) = DecodeRune s)
  /\ (match s with b :: _ => isCont b = false | [] => True end).
Proof.
  unfold asciiImage, width. intros H.
  destruct s as [|s0 t].
  { simpl in H. rewrite lower_RuneError in H. discriminate. }
  split; [discriminate|].
  destruct (DecodeRune_cases s0 t)
    as [[H0 E]|[[H0 E]|(c & w & tl & rest & E & -> & Hlen & Hne & H0 & Hc & Hcont & Hloc)]].
  - rewrite E. cbn [fst snd]. split; [simpl; lia|]. split.
    + intros x. simpl. apply DecodeRune_ascii. exact H0.
    + unfold isCont, inRange. destruct (Z.leb_spec 128 (b2z s0)); [lia | reflexivity].
  - rewrite E in H. cbn [fst] in H. rewrite lower_RuneError in H. discriminate.
  - rewrite E. cbn [fst snd]. split; [|split].
    + simpl. rewrite length_app. lia.
    + intros x. cbn [firstn]. rewrite <- Hlen, firstn_app, Nat.sub_diag, firstn_all.
      rewrite firstn_O, app_nil_r, Hlen. apply Hloc.
    + unfold isCont, inRange. destruct (Z.leb_spec (b2z s0) 191); [lia|].
      apply andb_false_r.
Qed.

Lemma width_bounds (s : bytes) : s <> [] -> (1 <= width s <= length s)%nat.
Proof.
  unfold width. destruct s as [|s0 t]; [congruence|]. intros _.
  destruct (DecodeRune_cases s0 t)
    as [[H0 E]|[[H0 E]|(c & w & tl & rest & E & -> & Hlen & Hne & H0 & Hc & Hcont & Hloc)]];
    rewrite E; cbn [snd]; simpl; try lia.
  rewrite length_app. lia.
Qed.

(** Bytes of a token after its first are continuation bytes. *)
Lemma width_continuation (s : bytes) (i : nat) :
  (1 <= i < width s)%nat -> exists b, nth_error s i = Some b /\ isCont b = true.
Proof.
  unfold width. destruct s as [|s0 t]; [simpl; lia|].
  destruct (DecodeRune_cases s0 t)
    as [[H0 E]|[[H0 E]|(c & w & tl & rest & E & -> & Hlen & Hne & H0 & Hc & Hcont & Hloc)]];
    rewrite E; cbn [snd]; try lia.
  intros Hi. destruct i as [|i]; [lia|]. cbn [nth_error].
  rewrite nth_error_app1 by lia.
  destruct (nth_error tl i) as [b|] eqn:Eb.
  - exists b. split; [reflexivity|]. rewrite Forall_forall in Hcont.
    apply Hcont. eapply nth_error_In. exact Eb.
  - apply nth_error_None in Eb. lia.
Qed.

(** The image of a token in the second loop of [Map]. *)
Lemma image_rest (s o : bytes) :
  s <> [] ->
  o = (if 0 <=? lower (fst (DecodeRune s))
       then EncodeRune (lower (fst (DecodeRune s))) else []) ->
  match asciiImage lower s with
  | Some c' => o = [c']
  | None => o <> [] /\ Forall nonASCII o
  end.
Proof.
  intros Hs ->. unfold asciiImage.
  assert (Hc : 0 <= fst (DecodeRune s)).
  { destruct s as [|s0 t]; [congruence|]. pose proof (b2z_range s0).
    destruct (DecodeRune_cases s0 t)
      as [[H0 E]|[[H0 E]|(c & w & tl & rest & E & _ & _ & _ & _ & Hc & _)]];
      rewrite E; cbn [fst]; unfold RuneError; lia. }
  set (c := fst (DecodeRune s)) in *.
  assert (Hr : 0 <= lower c).
  { destruct (Z.le_gt_cases c 0x7F).
    - apply lower_ascii. lia.
    - apply lower_high. lia. }
  destruct (Z.leb_spec 0 (lower c)); [|lia]. cbn [andb].
  unfold MaxASCII. destruct (Z.leb_spec (lower c) 0x7F).
  - apply EncodeRune_ascii. lia.
  - apply EncodeRune_other. lia.
Qed.

(** The image of a token the first loop of [Map] passes over. *)
Lemma image_scan (s : bytes) :
  s <> [] ->
  let c := fst (DecodeRune s) in
  (lower c =? c) && (negb (c =? RuneError) || negb (width s =? 1)%nat) = true ->
  match asciiImage lower s with
  | Some c' => firstn (width s) s = [c']
  | None => firstn (width s) s <> [] /\ Forall nonASCII (firstn (width s) s)
  end.
Proof.
  intros Hs. cbv zeta. unfold asciiImage, width.
  destruct s as [|s0 t]; [congruence|]. pose proof (b2z_range s0) as R0.
  destruct (DecodeRune_cases s0 t)
    as [[H0 E]|[[H0 E]|(c & w & tl & rest & E & -> & Hlen & Hne & H0 & Hc & Hcont & Hloc)]];
    rewrite E; cbn [fst snd]; intros Hcond; apply andb_true_iff in Hcond as [Heq Hvalid].
  - apply Z.eqb_eq in Heq. rewrite Heq.
    destruct (Z.leb_spec 0 (b2z s0)); [|lia]. unfold MaxASCII.
    destruct (Z.leb_spec (b2z s0) 0x7F); [|lia]. cbn [andb].
    rewrite z2b_b2z. reflexivity.
  - rewrite Z.eqb_refl in Hvalid. discriminate.
  - apply Z.eqb_eq in Heq. rewrite Heq. unfold MaxASCII.
    destruct (Z.leb_spec c 0x7F); [lia|]. rewrite andb_false_r.
    cbn [firstn]. rewrite <- Hlen, firstn_app, Nat.sub_diag, firstn_all, firstn_O, app_nil_r.
    split; [discriminate|]. constructor.
    + unfold nonASCII. lia.
    + eapply Forall_impl; [|exact Hcont]. intros b Hb.
      unfold isCont in Hb. apply inRange_bounds in Hb. unfold nonASCII. lia.
Qed.


Lemma skipn_width_length (s : bytes) (fuel : nat) :
  s <> [] -> (length s <= S fuel)%nat -> (length (skipn (width s) s) <= fuel)%nat.
Proof.
  intros Hs Hlen. pose proof (width_bounds s Hs). rewrite length_skipn. lia.
Qed.

Lemma mapRest_Lowered (fuel : nat) :
  forall s, (length s <= fuel)%nat -> Lowered lower s (mapRest lower fuel s).
Proof.
  induction fuel as [|fuel IH]; intros s Hlen.
  - destruct s; [constructor | simpl in Hlen; lia].
  - destruct s as [|s0 t]; [constructor|].
    set (s := s0 :: t) in *. assert (Hs : s <> []) by discriminate.
    assert (E : mapRest lower (S fuel) s
                = (if 0 <=? lower (fst (DecodeRune s))
                   then EncodeRune (lower (fst (DecodeRune s))) else [])
                  ++ mapRest lower fuel (skipn (width s) s)).
    { unfold width. cbn [mapRest]. unfold s at 1. destruct (DecodeRune s). reflexivity. }
    rewrite E.
    specialize (IH (skipn (width s) s) (skipn_width_length s fuel Hs Hlen)).
    match goal with |- Lowered _ _ (?x ++ _) => remember x as o eqn:Eo end.
    pose proof (image_rest s o Hs Eo) as Himg.
    destruct (asciiImage lower s) as [c'|] eqn:Ea.
    + rewrite Himg. apply Lowered_ascii; assumption.
    + destruct Himg. apply Lowered_other; assumption.
Qed.

Lemma mapScan_Lowered (fuel : nat) :
  forall s, (length s <= fuel)%nat ->
    match mapScan lower fuel s with
    | Some out => Lowered lower s out
    | None => Lowered lower s s
    end.
Proof.
  induction fuel as [|fuel IH]; intros s Hlen.
  - destruct s; [constructor | simpl in Hlen; lia].
  - destruct s as [|s0 t]; [constructor|].
    set (s := s0 :: t) in *. assert (Hs : s <> []) by discriminate.
    assert (E : mapScan lower (S fuel) s
                = if (lower (fst (DecodeRune s)) =? fst (DecodeRune s))
                     && (negb (fst (DecodeRune s) =? RuneError)
                         || negb (width s =? 1)%nat)
                  then match mapScan lower fuel (skipn (width s) s) with
                       | None => None
                       | Some out => Some (firstn (width s) s ++ out)
                       end
                  else Some ((if 0 <=? lower (fst (DecodeRune s))
                              then EncodeRune (lower (fst (DecodeRune s))) else [])
                             ++ mapRest lower fuel (skipn (width s) s))).
    { unfold width. cbn [mapScan]. unfold s at 1. destruct (DecodeRune s). reflexivity. }
    rewrite E. clear E.
    pose proof (skipn_width_length s fuel Hs Hlen) as Hlen'.
    destruct ((lower (fst (DecodeRune s)) =? fst (DecodeRune s))
              && (negb (fst (DecodeRune s) =? RuneError) || negb (width s =? 1)%nat))
      eqn:Econd.
    + pose proof (image_scan s Hs Econd) as Himg.
      specialize (IH (skipn (width s) s) Hlen').
      destruct (mapScan lower fuel (skipn (width s) s)) as [out|].
      * destruct (asciiImage lower s) as [c'|] eqn:Ea.
        -- rewrite Himg. apply Lowered_ascii; assumption.
        -- destruct Himg. apply Lowered_other; assumption.
      * rewrite <- (firstn_skipn (width s) s) at 2.
        destruct (asciiImage lower s) as [c'|] eqn:Ea.
        -- rewrite Himg. apply Lowered_ascii; assumption.
        -- destruct Himg. apply Lowered_other; assumption.
    + pose proof (mapRest_Lowered fuel (skipn (width s) s) Hlen') as Hrest.
      match goal with |- Lowered _ _ (?x ++ _) => remember x as o eqn:Eo end.
      pose proof (image_rest s o Hs Eo) as Himg.
      destruct (asciiImage lower s) as [c'|] eqn:Ea.
      * rewrite Himg. apply Lowered_ascii; assumption.
      * destruct Himg. apply Lowered_other; assumption.
Qed.

Lemma Map_Lowered (s : bytes) : Lowered lower s (Map lower s).
Proof.
  unfold Map. pose proof (mapScan_Lowered (length s) s (Nat.le_refl _)) as H.
  destruct (mapScan lower (length s) s); exact H.
Qed.

Lemma lowerByte_lower (c : ascii) :
  b2z c < 0x80 -> lowerByte c = z2b (lower (b2z c)).
Proof.
  intros H. pose proof (b2z_range c).
  unfold lowerByte, lower, unicode_ToLower, MaxASCII.
  destruct (Z.leb_spec (b2z c) 0x7F); [|lia].
  destruct (isUpperASCII (b2z c)); [reflexivity|]. symmetry. apply z2b_b2z.
Qed.

Lemma ascii_Lowered (s : bytes) :
  isASCII s = true -> Lowered lower s (map lowerByte s).
Proof.
  induction s as [|c s IH]; intros H; [constructor|].
  simpl in H. apply andb_true_iff in H as [Hc Hs].
  apply Z.ltb_lt in Hc. unfold RuneSelf in Hc. pose proof (b2z_range c).
  simpl map. apply Lowered_ascii.
  - discriminate.
  - unfold asciiImage. rewrite DecodeRune_ascii by assumption. cbn [fst].
    pose proof (lower_ascii (b2z c) ltac:(lia)) as Hl. fold lower.
    destruct (Z.leb_spec 0 (lower (b2z c))); [|lia]. unfold MaxASCII.
    destruct (Z.leb_spec (lower (b2z c)) 0x7F); [|lia]. cbn [andb].
    rewrite lowerByte_lower by assumption. reflexivity.
  - unfold width. rewrite DecodeRune_ascii by assumption. cbn [snd skipn].
    apply IH. exact Hs.
Qed.

Lemma map_lowerByte_id (s : bytes) :
  existsb (fun c => isUpperASCII (b2z c)) s = false -> map lowerByte s = s.
Proof.
  induction s as [|c s IH]; intros H; [reflexivity|].
  simpl in H. apply orb_false_iff in H as [Hc Hs].
  simpl. unfold lowerByte at 1. rewrite Hc, IH by assumption. reflexivity.
Qed.

(** [ToLower] lowers token by token. *)
Lemma ToLower_Lowered (s : bytes) : Lowered lower s (ToLower caseTable s).
Proof.
  unfold ToLower. destruct (isASCII s) eqn:E; [|apply Map_Lowered].
  destruct (existsb (fun c => isUpperASCII (b2z c)) s) eqn:E'.
  - apply ascii_Lowered. exact E.
  - rewrite <- (map_lowerByte_id s E') at 2. apply ascii_Lowered. exact E.
Qed.

Lemma nonASCII_head (o t k : bytes) (c : ascii) :
  o <> [] -> Forall nonASCII o -> o ++ t = c :: k -> b2z c < 0x80 -> False.
Proof.
  intros Hne Ho E Hc. destruct o as [|d o]; [congruence|].
  injection E as -> _. inversion Ho as [|? ? Hd _]. unfold nonASCII in Hd. lia.
Qed.

(** A source with an ASCII lowering has no other lowering. *)
Lemma Lowered_ascii_unique (u k : bytes) :
  Lowered lower u k -> asciiText k -> forall t, Lowered lower u t -> t = k.
Proof.
  induction 1 as [|s c t Hs Ha Ht IH|s o t Hs Ha Hne Ho Ht IH]; intros Hk t' Ht'.
  - inversion Ht' as [| |]; subst; congruence.
  - inversion Hk as [|? ? Hc Hk']; subst.
    inversion Ht' as [|s' c' t'' Hs' Ha' Ht''|s' o' t'' Hs' Ha' Hne' Ho' Ht'']; subst.
    + congruence.
    + rewrite Ha in Ha'. injection Ha' as <-. f_equal. apply IH; assumption.
    + congruence.
  - exfalso. destruct o as [|d o]; [congruence|].
    inversion Hk as [|? ? Hd _]. inversion Ho as [|? ? Hd' _]. unfold nonASCII in Hd'. lia.
Qed.

Lemma Lowered_ToLower (u k : bytes) :
  Lowered lower u k -> asciiText k -> ToLower caseTable u = k.
Proof.
  intros H Hk. apply (Lowered_ascii_unique u k H Hk). apply ToLower_Lowered.
Qed.

(** A token with an ASCII image keeps it when bytes are put behind it. *)
Lemma asciiImage_app (s x : bytes) (c' : ascii) :
  asciiImage lower s = Some c' ->
  asciiImage lower (s ++ x) = Some c' /\ width (s ++ x) = width s.
Proof.
  intros H. destruct (asciiImage_token s c' H) as (Hs & Hw & Hloc & _).
  assert (E : DecodeRune (s ++ x) = DecodeRune s).
  { rewrite <- (firstn_skipn (width s) s) at 1. rewrite <- app_assoc. apply Hloc. }
  unfold asciiImage, width in *. rewrite E. auto.
Qed.

(** From the front of the lowered text back to the source. *)
Lemma Lowered_prefix (s t : bytes) :
  Lowered lower s t ->
  forall k Y, t = k ++ Y -> asciiText k ->
    exists u b, s = u ++ b /\ Lowered lower u k.
Proof.
  induction 1 as [|s c t Hs Ha Ht IH|s o t Hs Ha Hne Ho Ht IH]; intros k Y E Hk.
  - exists [], []. destruct k; [|discriminate]. split; [reflexivity | constructor].
  - destruct k as [|c0 k].
    + exists [], s. split; [reflexivity | constructor].
    + injection E as <- E. inversion Hk as [|? ? Hc Hk']; subst.
      destruct (IH k Y eq_refl Hk') as (u & b & Hsplit & Hu).
      destruct (asciiImage_token s c Ha) as (_ & Hw & _ & _).
      exists (firstn (width s) s ++ u), b. split.
      * rewrite <- app_assoc, <- Hsplit. symmetry. apply firstn_skipn.
      * assert (Ha' : asciiImage lower (firstn (width s) s) = Some c).
        { unfold asciiImage. destruct (asciiImage_token s c Ha) as (_ & _ & Hloc & _).
          specialize (Hloc []). rewrite app_nil_r in Hloc. rewrite Hloc. exact Ha. }
        assert (Hw' : width (firstn (width s) s) = width s).
        { unfold width at 1. destruct (asciiImage_token s c Ha) as (_ & _ & Hloc & _).
          specialize (Hloc []). rewrite app_nil_r in Hloc. rewrite Hloc. reflexivity. }
        destruct (asciiImage_app _ u c Ha') as [Ha'' Hw''].
        apply Lowered_ascii.
        -- destruct s; [congruence|]. destruct (width (a :: s)) eqn:Ew; [lia|]. discriminate.
        -- exact Ha''.
        -- rewrite Hw'', Hw'. rewrite skipn_app, skipn_all2 by (rewrite length_firstn; lia).
           rewrite length_firstn. replace (width s - Nat.min (width s) (length s))%nat with 0%nat by lia.
           exact Hu.
  - destruct k as [|c0 k].
    + exists [], s. split; [reflexivity | constructor].
    + exfalso. inversion Hk as [|? ? Hc _]; subst.
      exact (nonASCII_head o t (k ++ Y) c0 Hne Ho E Hc).
Qed.


(** From anywhere in the lowered text back to the source. *)
Lemma Lowered_find (s t : bytes) :
  Lowered lower s t ->
  forall X k Y, t = X ++ k ++ Y -> k <> [] -> asciiText k ->
    exists a u b, s = a ++ u ++ b /\ Lowered lower u k.
Proof.
  induction 1 as [|s c t Hs Ha Ht IH|s o t Hs Ha Hne Ho Ht IH];
    intros X k Y E Hk Hascii.
  - exfalso. destruct X; [destruct k; [congruence | discriminate] | discriminate].
  - destruct X as [|x X].
    + destruct (Lowered_prefix s (c :: t) (Lowered_ascii lower s c t Hs Ha Ht)
                  k Y E Hascii) as (u & b & Hsplit & Hu).
      exists [], u, b. auto.
    + injection E as <- E.
      destruct (IH X k Y E Hk Hascii) as (a & u & b & Hsplit & Hu).
      exists (firstn (width s) s ++ a), u, b. split; [|exact Hu].
      rewrite <- app_assoc, <- Hsplit. symmetry. apply firstn_skipn.
  - apply app_eq_app in E as [z [[Ho' Hk']|[HX Ht']]].
    + destruct z as [|z0 z].
      * rewrite app_nil_r in Ho'. subst X. simpl in Hk'.
        destruct (IH [] k Y (eq_sym Hk') Hk Hascii) as (a & u & b & Hsplit & Hu).
        exists (firstn (width s) s ++ a), u, b. split; [|exact Hu].
        rewrite <- app_assoc, <- Hsplit. symmetry. apply firstn_skipn.
      * exfalso. destruct k as [|c0 k]; [congruence|].
        injection Hk' as <- _. inversion Hascii as [|? ? Hc _]; subst.
        apply Forall_app in Ho as [_ Ho].
        inversion Ho as [|? ? Hz _]. unfold nonASCII in Hz. lia.
    + destruct (IH z k Y Ht' Hk Hascii) as (a & u & b & Hsplit & Hu).
      exists (firstn (width s) s ++ a), u, b. split; [|exact Hu].
      rewrite <- app_assoc, <- Hsplit. symmetry. apply firstn_skipn.
Qed.

(** The lowering of [u ++ b] starts with the ASCII lowering of [u]. *)
Lemma Lowered_through (u k : bytes) :
  Lowered lower u k -> asciiText k ->
  forall b t, Lowered lower (u ++ b) t -> exists Y, t = k ++ Y.
Proof.
  induction 1 as [|s c t Hs Ha Ht IH|s o t Hs Ha Hne Ho Ht IH]; intros Hk b t' Ht'.
  - exists t'. reflexivity.
  - inversion Hk as [|? ? Hc Hk']; subst.
    destruct (asciiImage_app s b c Ha) as [Ha' Hw'].
    destruct (asciiImage_token s c Ha) as (_ & Hw & _ & _).
    assert (Hskip : skipn (width (s ++ b)) (s ++ b) = skipn (width s) s ++ b).
    { rewrite Hw', skipn_app. replace (width s - length s)%nat with 0%nat by lia.
      reflexivity. }
    inversion Ht' as [|s' c' t'' Hs' Ha'' Ht''|s' o' t'' Hs' Ha'' Hne' Ho' Ht'']; subst.
    + exfalso. destruct s; [congruence | discriminate].
    + rewrite Ha' in Ha''. injection Ha'' as <-. rewrite Hskip in Ht''.
      destruct (IH Hk' b t'' Ht'') as [Y HY]. exists Y. simpl. congruence.
    + congruence.
  - exfalso. destruct o as [|d o]; [congruence|].
    inversion Hk as [|? ? Hd _]. inversion Ho as [|? ? Hd' _]. unfold nonASCII in Hd'. lia.
Qed.

(** Tokens of what stands before [v] end where [v] starts, when [v]
    does not start with a continuation byte. *)
Lemma Lowered_skip (n : nat) :
  forall a v t, length a = n ->
    match v with b :: _ => isCont b = false | [] => True end ->
    Lowered lower (a ++ v) t -> exists X t', t = X ++ t' /\ Lowered lower v t'.
Proof.
  induction n as [n IH] using lt_wf_ind. intros a v t Hn Hv Ht.
  destruct a as [|a0 a].
  { exists [], t. auto. }
  assert (Hs : (a0 :: a) ++ v <> []) by discriminate.
  pose proof (width_bounds _ Hs) as Hw.
  assert (Hwa : (width ((a0 :: a) ++ v) <= length (a0 :: a))%nat).
  { destruct (Nat.le_gt_cases (width ((a0 :: a) ++ v)) (length (a0 :: a))) as [|Hgt];
      [assumption|]. exfalso.
    destruct (width_continuation ((a0 :: a) ++ v) (length (a0 :: a)))
      as (b & Hb & Hcont); [simpl; simpl in Hgt; lia|].
    rewrite nth_error_app2, Nat.sub_diag in Hb by lia.
    destruct v as [|v0 v]; [discriminate|]. injection Hb as ->. congruence. }
  assert (Hskip : skipn (width ((a0 :: a) ++ v)) ((a0 :: a) ++ v)
                  = skipn (width ((a0 :: a) ++ v)) (a0 :: a) ++ v).
  { rewrite skipn_app.
    replace (width ((a0 :: a) ++ v) - length (a0 :: a))%nat with 0%nat by lia.
    reflexivity. }
  assert (Hshort : (length (skipn (width ((a0 :: a) ++ v)) (a0 :: a)) < n)%nat).
  { rewrite length_skipn. lia. }
  inversion Ht as [|s' c' t'' Hs' Ha'' Ht''|s' o' t'' Hs' Ha'' Hne' Ho' Ht'']; subst.
  - rewrite Hskip in Ht''.
    destruct (IH _ Hshort _ v t'' eq_refl Hv Ht'') as (X & t' & -> & Hv').
    exists (c' :: X), t'. auto.
  - rewrite Hskip in Ht''.
    destruct (IH _ Hshort _ v t'' eq_refl Hv Ht'') as (X & t' & -> & Hv').
    exists (o' ++ X), t'. split; [apply app_assoc | exact Hv'].
Qed.

(** If a substring of the text lowers to an ASCII phrase, the lowered
    text holds the phrase. *)
Lemma Lowered_context (u k : bytes) :
  Lowered lower u k -> k <> [] -> asciiText k ->
  forall a b t, Lowered lower (a ++ u ++ b) t -> exists X Y, t = X ++ k ++ Y.
Proof.
  intros Hu Hk Hascii a b t Ht.
  assert (Hstart : match u ++ b with c :: _ => isCont c = false | [] => True end).
  { inversion Hu as [|s c t' Hs Ha Ht'|s o t' Hs Ha Hne Ho Ht']; subst.
    - congruence.
    - destruct (asciiImage_token u c Ha) as (_ & _ & _ & Hc).
      destruct u; [congruence | exact Hc].
    - exfalso. destruct o as [|d o]; [congruence|].
      inversion Hascii as [|? ? Hd _]. inversion Ho as [|? ? Hd' _].
      unfold nonASCII in Hd'. lia. }
  destruct (Lowered_skip (length a) a (u ++ b) t eq_refl Hstart Ht) as (X & t' & -> & Ht').
  destruct (Lowered_through u k Hu Hascii b t' Ht') as [Y ->].
  exists X, Y. reflexivity.
Qed.

Lemma anyKeyword_true (lowerText : bytes) (keywords : list bytes) :
  anyKeyword lowerText keywords = true <->
  exists keyword X Y, In keyword keywords /\ lowerText = X ++ keyword ++ Y.
Proof.
  induction keywords as [|kw kws IH]; simpl.
  - split; [discriminate | intros (? & ? & ? & [] & _)].
  - destruct (Contains lowerText kw) eqn:E.
    + split; [|reflexivity]. intros _. apply Contains_true in E as (X & Y & H).
      exists kw, X, Y. auto.
    + rewrite IH. split.
      * intros (k & X & Y & Hin & H). exists k, X, Y. auto.
      * intros (k & X & Y & [<-|Hin] & H).
        -- assert (Contains lowerText kw = true) by (apply Contains_true; eauto).
           congruence.
        -- exists k, X, Y. auto.
Qed.

Lemma keywords_lowercase :
  forall kw, In kw getAuthErrorKeywords ->
    kw <> [] /\ asciiText kw /\ ToLower caseTable kw = kw.
Proof.
  intros kw H. simpl in H.
  repeat (destruct H as [<-|H];
          [split; [discriminate|]; split;
           [repeat (constructor; [vm_compute; reflexivity|]); constructor
           |reflexivity]|]).
  destruct H.
Qed.

(** C6: [DetectAuthError] answers true if and only if the output holds
    one of the five phrases as a substring up to case, that is, some
    substring of the output is equal to the phrase once both are lowered
    with [strings.ToLower].  The case table of the Go distribution enters
    through two facts: it leaves [RuneError] alone and returns no negative
    rune. *)
Theorem detect_auth_error_iff (output : bytes) :
  DetectAuthError caseTable output = true <->
  exists phrase,
    In phrase [ str "authentication failed"; str "invalid api key";
                str "permission denied"; str "unauthorized";
                str "access denied" ]
    /\ ContainsIgnoringCase caseTable output phrase.
Proof.
  unfold DetectAuthError, detectAuthError, containsAnyKeyword.
  change [ str "authentication failed"; str "invalid api key";
           str "permission denied"; str "unauthorized"; str "access denied" ]
    with getAuthErrorKeywords.
  unfold ContainsIgnoringCase, EqualIgnoringCase.
  rewrite anyKeyword_true. split.
  - intros (kw & X & Y & Hin & H).
    destruct (keywords_lowercase kw Hin) as (Hne & Hascii & Hlow).
    destruct (Lowered_find _ _ (ToLower_Lowered output) X kw Y H Hne Hascii)
      as (a & u & b & Hsplit & Hu).
    exists kw. split; [exact Hin|]. exists a, u, b. split; [exact Hsplit|].
    rewrite Hlow. apply Lowered_ToLower; assumption.
  - intros (kw & Hin & a & u & b & Hsplit & Hu).
    destruct (keywords_lowercase kw Hin) as (Hne & Hascii & Hlow).
    rewrite Hlow in Hu.
    assert (HL : Lowered lower u kw) by (rewrite <- Hu; apply ToLower_Lowered).
    pose proof (ToLower_Lowered output) as Hout. rewrite Hsplit in Hout at 1.
    destruct (Lowered_context u kw HL Hne Hascii a b _ Hout) as (X & Y & H).
    exists kw, X, Y. auto.
Qed.

End Lowering.

Lemma sampleCaseTable_RuneError : sampleCaseTable RuneError = RuneError.
Proof. reflexivity. Qed.

Lemma sampleCaseTable_nonneg (r : Z) : MaxASCII < r -> 0 <= sampleCaseTable r.
Proof.
  unfold sampleCaseTable, MaxASCII. intros H.
  destruct (r =? 0x130); [lia|]. destruct (r =? 0x212A); [lia|].
  destruct ((0xC0 <=? r) && (r <=? 0xDE) && negb (r =? 0xD7)); lia.
Qed.

Lemma detect_auth_error_iff_witness :
  DetectAuthError sampleCaseTable (str "Error: invalid API key") = true <->
  exists phrase,
    In phrase [ str "authentication failed"; str "invalid api key";
                str "permission denied"; str "unauthorized";
                str "access denied" ]
    /\ ContainsIgnoringCase sampleCaseTable (str "Error: invalid API key") phrase.
Proof.
  apply (detect_auth_error_iff sampleCaseTable).
  - reflexivity.
  - intros r H. unfold sampleCaseTable, MaxASCII in *.
    destruct (r =? 0x130); [lia|]. destruct (r =? 0x212A); [lia|].
    destruct ((0xC0 <=? r) && (r <=? 0xDE) && negb (r =? 0xD7)); lia.
Defined.

(** The cases of [TestDetectAuthError], and two inputs that only a
    Unicode-aware lowering catches. *)
Example detect_test_NoAuthError :
  DetectAuthError sampleCaseTable (str "Normal Gemini response") = false.
Proof. vm_compute. reflexivity. Qed.

Example detect_test_APIKeyError :
  DetectAuthError sampleCaseTable (str "Error: invalid API key") = true.
Proof. vm_compute. reflexivity. Qed.

Example detect_test_PermissionError :
  DetectAuthError sampleCaseTable (str "Error: permission denied") = true.
Proof. vm_compute. reflexivity. Qed.

Example detect_kelvin_sign :
  DetectAuthError sampleCaseTable
    (str "invalid api " ++ [z2b 0xE2; z2b 0x84; z2b 0xAA] ++ str "ey") = true.
Proof. vm_compute. reflexivity. Qed.

Example ToLower_latin1 :
  ToLower sampleCaseTable (str "A" ++ [z2b 0xC3; z2b 0x89; z2b 0xFF] ++ str "B")
  = str "a" ++ [z2b 0xC3; z2b 0xA9; z2b 0xEF; z2b 0xBF; z2b 0xBD] ++ str "b".
Proof. vm_compute. reflexivity. Qed.

(** ** The runner, as far as the embedding sees it

    Which of process and timer wins is an answer of the world; what
    follows the answer is code. *)

Lemma timer_fired_kills_and_reports (caseTable : Z -> Z)
    (durationString : Duration -> bytes) (c : Client) (cmd : Cmd) (t : Duration)
    (world : Oracle) (history : list Call) :
  world _ history (Start cmd) = None ->
  world _ (history ++ [call (Start cmd) None]) (WaitOrTimeout t) = TimerFired ->
  run world history (runCommandWithTimeout caseTable durationString c cmd t)
  = (history ++ [call (Start cmd) None] ++ [call (WaitOrTimeout t) TimerFired]
       ++ [call Kill (world _ ((history ++ [call (Start cmd) None])
                                 ++ [call (WaitOrTimeout t) TimerFired]) Kill)],
     ([], Some (Errorf (ErrCommandTimeout ++ str " after " ++ durationString t)))).
Proof.
  intros Hstart Hrace. unfold runCommandWithTimeout. cbn [bind trigger run].
  rewrite Hstart. cbn [bind trigger run]. rewrite Hrace. cbn [bind trigger run].
  rewrite <- !app_assoc. reflexivity.
Qed.

(** With a prompt that is not empty the world is called: here the lookup
    of the executable, the working directory and its fallbacks, the start
    of the process, the race and the kill. *)
Example execute_calls_the_world :
  map (fun c => match c with
                | call (LookPath _) _ => 1 | call Getwd _ => 2
                | call (Getenv _) _ => 3 | call UserCurrentHomeDir _ => 4
                | call (Start _) _ => 5 | call (WaitOrTimeout _) _ => 6
                | call Kill _ => 7 | call (Log _ _ _ _) _ => 8
                end%nat)
      (fst (run quietWorld []
              (Execute sampleCaseTable (fun _ => str "30s") NewClient (str "hi"))))
  = [1; 2; 3; 4; 5; 6; 7]%nat
  /\ snd (snd (run quietWorld []
                 (Execute sampleCaseTable (fun _ => str "30s") NewClient (str "hi"))))
     = Some (wrapError
               (str "failed to execute Gemini command: command timed out after 30s")
               (errorString (str "command timed out after 30s"))).
Proof. split; vm_compute; reflexivity. Qed.

(* ===================================================================== *)
(** * Part III: further properties of the code                            *)
(* ===================================================================== *)

(** ** The sanitizer, continued *)

Lemma TrimLeft_length (s : bytes) : (length (TrimLeft s) <= length s)%nat.
Proof.
  destruct (TrimLeft_split s) as (a & _ & H).
  apply (f_equal (@length ascii)) in H. rewrite length_app in H. lia.
Qed.

Lemma TrimRight_length (s : bytes) : (length (TrimRight s) <= length s)%nat.
Proof.
  destruct (TrimRight_split s) as (b & _ & H).
  apply (f_equal (@length ascii)) in H. rewrite length_app in H. lia.
Qed.

Lemma TrimSpace_length (s : bytes) : (length (TrimSpace s) <= length s)%nat.
Proof.
  unfold TrimSpace. pose proof (TrimRight_length (TrimLeft s)).
  pose proof (TrimLeft_length s). lia.
Qed.

(** A text is its trimmed text with white space around it. *)
Lemma TrimSpace_split (s : bytes) :
  exists a b, blank spaceEncodings a /\ blank spaceEncodings b
              /\ s = a ++ TrimSpace s ++ b.
Proof.
  destruct (TrimLeft_split s) as (a & Ha & Hs).
  destruct (TrimRight_split (TrimLeft s)) as (b & Hb & Hs').
  exists a, b. split; [exact Ha|]. split; [exact Hb|].
  unfold TrimSpace. rewrite <- Hs'. exact Hs.
Qed.

Lemma filterGeminiOutput_trimEnds (s : bytes) :
  filterGeminiOutput s = Join (trimEnds (survivors s)) [newline].
Proof.
  rewrite filterGeminiOutput_survivors. apply TrimSpace_Join.
  intros l Hl. apply keepLine_nonblank, (survivors_keep _ _ Hl).
Qed.

Lemma filterGeminiOutput_nil_iff (s : bytes) :
  filterGeminiOutput s = [] <-> survivors s = [].
Proof.
  rewrite filterGeminiOutput_trimEnds. split.
  - intros H. destruct (survivors s) as [|k K] eqn:E; [reflexivity|]. exfalso.
    revert H. apply Join_trimEnds_nonempty; [discriminate|].
    intros l Hl. rewrite <- E in Hl. apply keepLine_nonblank, (survivors_keep _ _ Hl).
  - intros ->. reflexivity.
Qed.

Lemma parseGeminiOutput_filter (output : bytes) :
  parseGeminiOutput output =
  if bytes_eqb (filterGeminiOutput output) []
  then ([], Some (Errorf ErrEmptyOutput))
  else (filterGeminiOutput output, None).
Proof.
  rewrite parseGeminiOutput_spec.
  destruct (bytes_eqb (filterGeminiOutput output) []) eqn:E.
  - apply bytes_eqb_nil, filterGeminiOutput_nil_iff in E. rewrite E. reflexivity.
  - apply bytes_eqb_nil_false in E. rewrite filterGeminiOutput_nil_iff in E.
    rewrite filterGeminiOutput_trimEnds.
    destruct (survivors output); [congruence | reflexivity].
Qed.

Lemma successful_parse_trimmed (output r : bytes) :
  parseGeminiOutput output = (r, None) -> r <> [] /\ TrimSpace r = r.
Proof.
  intros H. rewrite parseGeminiOutput_filter in H.
  destruct (bytes_eqb (filterGeminiOutput output) []) eqn:E; [discriminate|].
  injection H as <-. split; [apply bytes_eqb_nil_false; exact E|].
  rewrite filterGeminiOutput_survivors. apply TrimSpace_idem.
Qed.

(** X1: [parseGeminiOutput] is [filterGeminiOutput] followed by the test
    for the empty result: the opening [TrimSpace] and the test of the
    length change nothing. *)
Theorem parse_is_filter (output : bytes) :
  filterGeminiOutput (TrimSpace output) = filterGeminiOutput output
  /\ parseGeminiOutput output =
     (if bytes_eqb (filterGeminiOutput output) []
      then ([], Some (Errorf ErrEmptyOutput))
      else (filterGeminiOutput output, None)).
Proof.
  split; [|apply parseGeminiOutput_filter].
  rewrite !filterGeminiOutput_trimEnds, survivors_TrimSpace. reflexivity.
Qed.

(** X2: a successful result is not empty and has no white space at either
    end: trimming it changes nothing, and it neither starts nor ends with
    the encoding of a white-space rune. *)
Theorem parse_result_has_no_outer_space (output r : bytes) :
  parseGeminiOutput output = (r, None) ->
  r <> [] /\ TrimSpace r = r
  /\ (forall p x, In p spaceEncodings -> r <> p ++ x /\ r <> x ++ p).
Proof.
  intros H. destruct (successful_parse_trimmed output r H) as [Hne Htrim].
  split; [exact Hne|]. split; [exact Htrim|].
  intros p x Hp. pose proof (space_nonempty p Hp) as Hp0.
  pose proof (TrimSpace_length x) as Hlen.
  assert (Hpl : (0 < length p)%nat) by (destruct p; [congruence | simpl; lia]).
  split; intros E.
  - rewrite E, TrimSpace_cons in Htrim by assumption.
    apply (f_equal (@length ascii)) in Htrim. rewrite length_app in Htrim. lia.
  - rewrite E, TrimSpace_snoc in Htrim by assumption.
    apply (f_equal (@length ascii)) in Htrim. rewrite length_app in Htrim. lia.
Qed.

Lemma parse_result_has_no_outer_space_witness :
  str "Hello" <> []
  /\ TrimSpace (str "Hello") = str "Hello"
  /\ (forall p x, In p spaceEncodings -> str "Hello" <> p ++ x /\ str "Hello" <> x ++ p).
Proof.
  apply (parse_result_has_no_outer_space
           (newline :: str " Hello " ++ [newline]) (str "Hello")).
  vm_compute. reflexivity.
Defined.

(** *** Where a phrase can occur *)

Lemma blank_bytes (P : list bytes) (a : bytes) (c : ascii) :
  blank P a -> In c a -> exists p, In p P /\ In c p.
Proof.
  induction 1 as [|p a Hp Ha IH]; [intros []|].
  intros Hc. apply in_app_or in Hc as [Hc|Hc]; [eauto | auto].
Qed.

Lemma app_eq_front (a s x w : bytes) (c : ascii) :
  a ++ s = x ++ c :: w -> ~ In c a -> exists x', x = a ++ x' /\ s = x' ++ c :: w.
Proof.
  intros H Hc. apply app_eq_app in H as [l [[Ha Hl]|[Hx Hs]]].
  - destruct l as [|c' l].
    + exists []. rewrite app_nil_r in Ha. subst a. rewrite app_nil_r.
      split; [reflexivity | symmetry; exact Hl].
    + injection Hl as <- _. exfalso. apply Hc. rewrite Ha.
      apply in_or_app. right. left. reflexivity.
  - exists l. split; assumption.
Qed.

Lemma app_eq_back (s b w y : bytes) (c : ascii) :
  s ++ b = w ++ c :: y -> ~ In c b -> exists y', y = y' ++ b /\ s = w ++ c :: y'.
Proof.
  intros H Hc. apply app_eq_app in H as [l [[Hs Hl]|[Hw Hb]]].
  - destruct l as [|c' l].
    + exfalso. apply Hc. simpl in Hl. rewrite <- Hl. left. reflexivity.
    + injection Hl as <- Hy. exists l. split; assumption.
  - exfalso. apply Hc. rewrite Hb. apply in_or_app. right. left. reflexivity.
Qed.

Lemma solidEnds_spec (phrase : bytes) :
  solidEnds phrase = true ->
  exists c0 mid c1 body,
    phrase = c0 :: mid /\ phrase = body ++ [c1]
    /\ (forall p, In p spaceEncodings -> ~ In c0 p)
    /\ (forall p, In p spaceEncodings -> ~ In c1 p).
Proof.
  unfold solidEnds. destruct phrase as [|c0 mid]; [discriminate|]. intros H.
  rewrite forallb_forall in H.
  assert (Hlast : exists body, c0 :: mid = body ++ [last (c0 :: mid) c0]).
  { destruct (exists_last (l := c0 :: mid)) as (body & c1 & E); [discriminate|].
    exists body. rewrite E at 1. rewrite E, last_last. reflexivity. }
  destruct Hlast as [body Hbody].
  exists c0, mid, (last (c0 :: mid) c0), body.
  split; [reflexivity|]. split; [exact Hbody|].
  split; intros p Hp Hin; specialize (H p Hp); apply andb_true_iff in H as [H0 H1].
  - apply negb_true_iff in H0. rewrite <- not_true_iff_false in H0. apply H0.
    apply existsb_exists. exists c0. split; [exact Hin | apply Ascii.eqb_refl].
  - apply negb_true_iff in H1. rewrite <- not_true_iff_false in H1. apply H1.
    apply existsb_exists. eexists. split; [exact Hin | apply Ascii.eqb_refl].
Qed.

(** A phrase with solid ends that occurs in a line occurs in the trimmed
    line. *)
Lemma occurrence_TrimSpace (line phrase x y : bytes) :
  solidEnds phrase = true -> line = x ++ phrase ++ y ->
  exists x' y', TrimSpace line = x' ++ phrase ++ y'.
Proof.
  intros Hsolid Hline.
  destruct (solidEnds_spec phrase Hsolid) as (c0 & mid & c1 & body & E0 & E1 & H0 & H1).
  destruct (TrimSpace_split line) as (a & b & Ha & Hb & Hs).
  assert (Hc0 : ~ In c0 a).
  { intros Hin. destruct (blank_bytes _ _ _ Ha Hin) as (p & Hp & Hcp). exact (H0 p Hp Hcp). }
  assert (Hc1 : ~ In c1 b).
  { intros Hin. destruct (blank_bytes _ _ _ Hb Hin) as (p & Hp & Hcp). exact (H1 p Hp Hcp). }
  assert (E : a ++ (TrimSpace line ++ b) = x ++ c0 :: (mid ++ y)).
  { rewrite <- Hs, Hline, E0. reflexivity. }
  apply app_eq_front in E as (x' & _ & E); [|exact Hc0].
  assert (E' : TrimSpace line ++ b = (x' ++ body) ++ c1 :: y).
  { rewrite E. change (c0 :: mid ++ y) with ((c0 :: mid) ++ y).
    rewrite <- E0, E1, <- !app_assoc. reflexivity. }
  apply app_eq_back in E' as (y' & _ & E'); [|exact Hc1].
  exists x', y'. rewrite E', E1, <- !app_assoc. reflexivity.
Qed.

(** A phrase without a newline that occurs in a text occurs in one of its
    lines. *)
Lemma occurrence_line (ph : bytes) :
  ~ In newline ph ->
  forall x y, exists line x' y',
    In line (Split (x ++ ph ++ y) newline) /\ line = x' ++ ph ++ y'.
Proof.
  intros Hph x y. induction x as [|c x (line & x' & y' & Hin & Hline)].
  - simpl app. rewrite Split_app_line by assumption.
    exists (ph ++ hd [] (Split y newline)), [], (hd [] (Split y newline)).
    split; [left; reflexivity | reflexivity].
  - simpl app. destruct (Ascii.eqb_spec c newline) as [->|Hne].
    + rewrite Split_sep. exists line, x', y'. split; [right; exact Hin | exact Hline].
    + rewrite Split_other by assumption.
      destruct (Split (x ++ ph ++ y) newline) as [|l0 ls]; [destruct Hin|].
      destruct Hin as [<-|Hin].
      * exists (c :: l0), (c :: x'), y'. split; [left; reflexivity|].
        rewrite Hline. reflexivity.
      * exists line, x', y'. split; [right; exact Hin | exact Hline].
Qed.

Lemma filterPatterns_solid :
  forall phrase, In phrase filterPatterns ->
    solidEnds phrase = true /\ ~ In newline phrase.
Proof.
  assert (H : forallb (fun ph => solidEnds ph && negb (existsb (Ascii.eqb newline) ph))
                      filterPatterns = true) by (vm_compute; reflexivity).
  rewrite forallb_forall in H. intros phrase Hin.
  specialize (H phrase Hin). apply andb_true_iff in H as [H1 H2].
  split; [exact H1|]. intros Hn. apply negb_true_iff in H2.
  rewrite <- not_true_iff_false in H2. apply H2.
  apply existsb_exists. exists newline. split; [exact Hn | apply Ascii.eqb_refl].
Qed.

(** A line that is kept holds no filter phrase, trimmed or not. *)
Lemma keepLine_no_phrase (line phrase : bytes) :
  keepLine line = true -> In phrase filterPatterns -> Contains line phrase = false.
Proof.
  intros Hk Hin. destruct (Contains line phrase) eqn:E; [|reflexivity]. exfalso.
  apply Contains_true in E as (x & y & Hline).
  destruct (filterPatterns_solid phrase Hin) as [Hsolid _].
  destruct (occurrence_TrimSpace line phrase x y Hsolid Hline) as (x' & y' & Ht).
  apply keepLine_true in Hk. apply Hk. right. exists phrase, x', y'. auto.
Qed.

(** X3: a successful result holds none of the seven filter phrases
    anywhere, and none of its lines is blank: blank lines inside the
    response are removed with the system messages. *)
Theorem parse_result_is_clean (output r : bytes) :
  parseGeminiOutput output = (r, None) ->
  (forall phrase, In phrase filterPatterns -> Contains r phrase = false)
  /\ (forall line, In line (Split r newline) -> TrimSpace line <> []).
Proof.
  intros H.
  destruct (successful_parse_shape output r H) as (_ & Hsplit & _ & Hkeep).
  rewrite <- Hsplit in Hkeep. split.
  - intros phrase Hin. destruct (Contains r phrase) eqn:E; [|reflexivity]. exfalso.
    apply Contains_true in E as (x & y & Hr).
    destruct (filterPatterns_solid phrase Hin) as [_ Hnl].
    destruct (occurrence_line phrase Hnl x y) as (line & x' & y' & Hline & Hocc).
    rewrite <- Hr in Hline.
    pose proof (keepLine_no_phrase line phrase (Hkeep line Hline) Hin) as Hno.
    assert (Contains line phrase = true) by (apply Contains_true; eauto).
    congruence.
  - intros line Hline. apply keepLine_nonblank, Hkeep, Hline.
Qed.

Lemma parse_result_is_clean_witness :
  (forall phrase, In phrase filterPatterns ->
     Contains (str "one" ++ newline :: str "two") phrase = false)
  /\ (forall line, In line (Split (str "one" ++ newline :: str "two") newline) ->
        TrimSpace line <> []).
Proof.
  apply (parse_result_is_clean
           (str "Authenticating..." ++ newline :: str "one" ++ newline :: newline
              :: str "two")).
  vm_compute. reflexivity.
Defined.

(** *** Lines that are dropped, and what is left *)

Lemma Split_app_sep (a b : bytes) (sep : ascii) :
  Split (a ++ sep :: b) sep = Split a sep ++ Split b sep.
Proof.
  induction a as [|c a IH].
  - simpl app. apply Split_sep.
  - simpl app. destruct (Ascii.eqb_spec c sep) as [->|Hne].
    + rewrite !Split_sep, IH. reflexivity.
    + rewrite !Split_other by assumption. rewrite IH.
      pose proof (Split_nonempty a sep).
      destruct (Split a sep); [congruence | reflexivity].
Qed.

Lemma Split_line (d : bytes) (sep : ascii) : ~ In sep d -> Split d sep = [d].
Proof.
  intros H. rewrite <- (app_nil_r d) at 1. rewrite Split_app_line by assumption.
  simpl. rewrite app_nil_r. reflexivity.
Qed.

Lemma parseGeminiOutput_survivors (o1 o2 : bytes) :
  survivors o1 = survivors o2 -> parseGeminiOutput o1 = parseGeminiOutput o2.
Proof. intros H. rewrite !parseGeminiOutput_spec, H. reflexivity. Qed.

(** X4: a dropped line, wherever it stands, does not change the outcome:
    with it or without it, between two lines, in front or at the end,
    [parseGeminiOutput] returns the same. *)
Theorem dropped_line_is_ignored (a d b : bytes) :
  dropped d -> ~ In newline d ->
  parseGeminiOutput (a ++ newline :: d ++ newline :: b)
    = parseGeminiOutput (a ++ newline :: b)
  /\ parseGeminiOutput (d ++ newline :: b) = parseGeminiOutput b
  /\ parseGeminiOutput (a ++ newline :: d) = parseGeminiOutput a.
Proof.
  intros Hd Hnl. apply keepLine_false in Hd.
  split; [|split]; apply parseGeminiOutput_survivors; unfold survivors.
  - rewrite !Split_app_sep, (Split_line d) by assumption.
    rewrite !filter_app. cbn [filter app]. rewrite Hd. reflexivity.
  - rewrite Split_app_sep, (Split_line d) by assumption.
    cbn [filter app]. rewrite Hd. reflexivity.
  - rewrite Split_app_sep, (Split_line d) by assumption.
    rewrite filter_app. cbn [filter]. rewrite Hd. apply app_nil_r.
Qed.

Lemma dropped_line_is_ignored_witness :
  parseGeminiOutput (str "one" ++ newline :: str "Using cached token" ++ newline :: str "two")
    = parseGeminiOutput (str "one" ++ newline :: str "two")
  /\ parseGeminiOutput (str "Using cached token" ++ newline :: str "two")
     = parseGeminiOutput (str "two")
  /\ parseGeminiOutput (str "one" ++ newline :: str "Using cached token")
     = parseGeminiOutput (str "one").
Proof.
  apply (dropped_line_is_ignored (str "one") (str "Using cached token") (str "two")).
  - right. exists (str "Using cached token"), [], []. split; [|reflexivity].
    simpl. tauto.
  - vm_compute. intuition discriminate.
Defined.

(** *** The sanitizer only deletes *)

Lemma Subseq_refl (s : bytes) : Subseq s s.
Proof. induction s; [constructor | apply Subseq_take; assumption]. Qed.

Lemma Subseq_nil_l (t : bytes) : Subseq [] t.
Proof. induction t; constructor; assumption. Qed.

Lemma Subseq_trans (s t u : bytes) : Subseq s t -> Subseq t u -> Subseq s u.
Proof.
  intros Hst Htu. revert s Hst. induction Htu as [|c t u Htu IH|c t u Htu IH]; intros s Hst.
  - exact Hst.
  - constructor. apply IH. exact Hst.
  - inversion Hst as [|c' s' t' Hs'|c' s' t' Hs']; subst.
    + apply Subseq_skip. apply IH. assumption.
    + apply Subseq_take. apply IH. assumption.
Qed.

Lemma Subseq_app (s1 t1 s2 t2 : bytes) :
  Subseq s1 t1 -> Subseq s2 t2 -> Subseq (s1 ++ s2) (t1 ++ t2).
Proof.
  induction 1; intros H2; simpl;
    [exact H2 | apply Subseq_skip; auto | apply Subseq_take; auto].
Qed.

Lemma Subseq_length (s t : bytes) : Subseq s t -> (length s <= length t)%nat.
Proof. induction 1; simpl; lia. Qed.

Lemma Subseq_middle (a s b : bytes) : Subseq s (a ++ s ++ b).
Proof.
  rewrite <- (app_nil_l s) at 1. apply Subseq_app; [apply Subseq_nil_l|].
  rewrite <- (app_nil_r s) at 1. apply Subseq_app; [apply Subseq_refl | apply Subseq_nil_l].
Qed.

Lemma Subseq_TrimSpace (s : bytes) : Subseq (TrimSpace s) s.
Proof.
  destruct (TrimSpace_split s) as (a & b & _ & _ & H). rewrite H at 2.
  apply Subseq_middle.
Qed.

(** Splitting a text and joining the lines gives the text back. *)
Lemma Join_Split (s : bytes) (sep : ascii) : Join (Split s sep) [sep] = s.
Proof.
  induction s as [|c s IH]; [reflexivity|].
  pose proof (Split_nonempty s sep) as Hne.
  destruct (Ascii.eqb_spec c sep) as [->|Hc].
  - rewrite Split_sep, Join_cons by assumption. rewrite IH. reflexivity.
  - rewrite Split_other by assumption.
    destruct (Split s sep) as [|l [|l2 ls]]; [congruence| |].
    + simpl in *. rewrite IH. reflexivity.
    + cbn [hd tl]. rewrite Join_cons by discriminate.
      rewrite Join_cons in IH by discriminate. rewrite <- IH. reflexivity.
Qed.

Lemma Subseq_Join_filter (f : bytes -> bool) (L : list bytes) (sep : bytes) :
  Subseq (Join (filter f L) sep) (Join L sep).
Proof.
  induction L as [|x L IH]; [constructor|].
  assert (Hskip : Subseq (Join (filter f L) sep) (Join (x :: L) sep)).
  { destruct L as [|x2 L]; [apply Subseq_nil_l|].
    rewrite (Join_cons x (x2 :: L)) by discriminate.
    apply (Subseq_trans _ _ _ IH).
    rewrite <- (app_nil_l (Join (x2 :: L) sep)) at 1. rewrite app_assoc.
    apply Subseq_app; [apply Subseq_nil_l | apply Subseq_refl]. }
  cbn [filter]. destruct (f x); [|exact Hskip].
  destruct (filter f L) as [|k K] eqn:E.
  - destruct L as [|x2 L]; [apply Subseq_refl|].
    rewrite (Join_cons x (x2 :: L)) by discriminate. cbn [Join].
    rewrite <- (app_nil_r x) at 1. apply Subseq_app; [apply Subseq_refl | apply Subseq_nil_l].
  - assert (HL : L <> []) by (intros ->; discriminate).
    rewrite (Join_cons x (k :: K)), (Join_cons x L) by (assumption || discriminate).
    apply Subseq_app; [apply Subseq_refl|].
    apply Subseq_app; [apply Subseq_refl | exact IH].
Qed.

Lemma Subseq_filterGeminiOutput (s : bytes) : Subseq (filterGeminiOutput s) s.
Proof.
  rewrite filterGeminiOutput_survivors.
  apply (Subseq_trans _ _ _ (Subseq_TrimSpace _)).
  rewrite <- (Join_Split s newline) at 2. apply Subseq_Join_filter.
Qed.

(** X5: the sanitizer only deletes: the text [parseGeminiOutput] returns
    is the output with some bytes left out, nothing added and nothing
    moved; it is never longer than the output. *)
Theorem parse_only_deletes (output : bytes) :
  Subseq (fst (parseGeminiOutput output)) output
  /\ (length (fst (parseGeminiOutput output)) <= length output)%nat.
Proof.
  assert (H : Subseq (fst (parseGeminiOutput output)) output).
  { rewrite parseGeminiOutput_filter.
    destruct (bytes_eqb (filterGeminiOutput output) []);
      [apply Subseq_nil_l | apply Subseq_filterGeminiOutput]. }
  split; [exact H | apply Subseq_length, H].
Qed.

(** X6: the texts that [parseGeminiOutput] returns as they are: those
    without white space at either end all of whose lines are kept, that
    is, no line is blank or holds a filter phrase.  These are exactly the
    results the function can produce. *)
Theorem parse_fixed_points (r : bytes) :
  parseGeminiOutput r = (r, None) <->
  TrimSpace r = r /\ (forall line, In line (Split r newline) -> ~ dropped line).
Proof.
  split.
  - intros H. split; [apply (successful_parse_trimmed r r H)|].
    destruct (successful_parse_shape r r H) as (_ & Hsplit & _ & Hkeep).
    intros line Hline. apply keepLine_true, Hkeep. rewrite <- Hsplit. exact Hline.
  - intros [Htrim Hlines].
    assert (Hsurv : survivors r = Split r newline).
    { apply filter_all. intros l Hl. apply keepLine_true, Hlines, Hl. }
    rewrite parseGeminiOutput_filter, filterGeminiOutput_survivors, Hsurv,
      Join_Split, Htrim.
    destruct (bytes_eqb r []) eqn:E; [|reflexivity]. exfalso.
    apply bytes_eqb_nil in E. subst r.
    apply (Hlines []); [left; reflexivity | left; reflexivity].
Qed.

(** ** Runs and the calls they make *)

Lemma run_history {A : Type} (world : Oracle) (p : Prog A) :
  forall history, fst (run world history p) = history ++ calls world history p.
Proof.
  unfold calls. induction p as [a|X e k IH]; intros history; cbn [run fst].
  - rewrite skipn_all. symmetry. apply app_nil_r.
  - pose proof (IH (world X history e) (history ++ [call e (world X history e)])) as E.
    remember (skipn (length (history ++ [call e (world X history e)]))
                (fst (run world (history ++ [call e (world X history e)])
                        (k (world X history e))))) as t.
    rewrite E, <- app_assoc, skipn_app, skipn_all, Nat.sub_diag. reflexivity.
Qed.

Lemma calls_Ret {A : Type} (world : Oracle) (history : list Call) (a : A) :
  calls world history (Ret a) = [].
Proof. unfold calls. simpl. apply skipn_all. Qed.

Lemma calls_Vis {A X : Type} (world : Oracle) (history : list Call)
    (e : Event X) (k : X -> Prog A) :
  calls world history (Vis e k)
  = call e (world _ history e)
      :: calls world (history ++ [call e (world _ history e)]) (k (world _ history e)).
Proof.
  unfold calls at 1. simpl. rewrite run_history, <- app_assoc.
  rewrite skipn_app, skipn_all, Nat.sub_diag. reflexivity.
Qed.

Lemma calls_bind {A B : Type} (world : Oracle) (history : list Call)
    (p : Prog A) (f : A -> Prog B) :
  calls world history (bind p f)
  = calls world history p
      ++ calls world (history ++ calls world history p) (f (snd (run world history p))).
Proof.
  unfold calls at 1. rewrite run_bind, run_history, run_history, <- app_assoc.
  rewrite skipn_app, skipn_all, Nat.sub_diag. reflexivity.
Qed.

Lemma always_run {A : Type} (p : Prog A) :
  forall (P : list Call -> A -> Prop) (world : Oracle) (history : list Call),
    always p P -> P (calls world history p) (snd (run world history p)).
Proof.
  induction p as [a|X e k IH]; intros P world history H.
  - rewrite calls_Ret. exact H.
  - rewrite calls_Vis. simpl in *.
    apply (IH _ (fun tr a => P (call e (world X history e) :: tr) a)). apply H.
Qed.

Lemma always_bind {A B : Type} (p : Prog A) (f : A -> Prog B) :
  forall P : list Call -> B -> Prop,
    always p (fun tr a => always (f a) (fun tr' b => P (tr ++ tr') b)) ->
    always (bind p f) P.
Proof.
  induction p as [a|X e k IH]; intros P H; simpl in *.
  - exact H.
  - intros x. apply IH. apply H.
Qed.

Lemma always_mono {A : Type} (p : Prog A) :
  forall P Q : list Call -> A -> Prop,
    (forall tr a, P tr a -> Q tr a) -> always p P -> always p Q.
Proof.
  induction p as [a|X e k IH]; intros P Q HPQ H; simpl in *.
  - apply HPQ, H.
  - intros x. apply (IH x (fun tr a => P (call e x :: tr) a)); [|apply H].
    intros tr a. apply HPQ.
Qed.

Lemma always_and {A : Type} (p : Prog A) :
  forall P Q : list Call -> A -> Prop,
    always p P -> always p Q -> always p (fun tr a => P tr a /\ Q tr a).
Proof.
  induction p as [a|X e k IH]; intros P Q HP HQ; simpl in *.
  - split; assumption.
  - intros x. apply (IH x (fun tr a => P (call e x :: tr) a)
                         (fun tr a => Q (call e x :: tr) a)); [apply HP | apply HQ].
Qed.

(** ** Observing a list of calls *)

Ltac observe :=
  unfold lookups, getwds, getenvs, homeDirs, starts, waits, kills, logs in *;
  cbn [flat_map lookupOf getwdOf getenvOf homeDirOf startOf waitOf killOf logOf
       app length fst snd] in *.

Lemma kills_app (a b : list Call) : kills (a ++ b) = (kills a + kills b)%nat.
Proof. unfold kills. rewrite flat_map_app, length_app. reflexivity. Qed.

(** Log lines are no other calls. *)
Lemma logs_only (tr : list Call) :
  filter notLog tr = [] ->
  lookups tr = [] /\ getwds tr = [] /\ getenvs tr = [] /\ homeDirs tr = []
  /\ starts tr = [] /\ waits tr = [] /\ kills tr = 0%nat.
Proof.
  induction tr as [|[X e x] tr IH]; [repeat split|].
  cbn [filter]. destruct e; cbn [notLog]; try discriminate.
  intros H. specialize (IH H). observe. exact IH.
Qed.

(** ** [resolveRelativePaths] and the world *)

Lemma replaceLoop_always (re : regex) (repl : bytes -> Prog bytes)
    (f : bytes -> bytes) (Q : Call -> Prop) :
  (forall m, always (repl m) (fun tr r => Forall Q tr /\ r = f m)) ->
  forall fuel prev src,
    always (replaceLoop re repl fuel prev src)
      (fun tr r => Forall Q tr /\ r = replaceAll re f fuel prev src).
Proof.
  intros Hrepl. induction fuel as [|fuel IH]; intros prev src;
    cbn [replaceLoop replaceAll].
  - split; [constructor | reflexivity].
  - destruct (findMatch re prev src) as [[[g m] rest]|];
      [|split; [constructor | reflexivity]].
    apply always_bind. eapply always_mono; [|apply Hrepl].
    intros tr r [Htr ->].
    destruct m as [|c m]; [destruct rest as [|d rest]|].
    + cbn [always]. rewrite app_nil_r. auto.
    + apply always_bind. eapply always_mono; [|apply IH].
      intros tr' r' [Htr' ->]. cbn [always]. rewrite app_nil_r.
      split; [apply Forall_app; auto | reflexivity].
    + apply always_bind. eapply always_mono; [|apply IH].
      intros tr' r' [Htr' ->]. cbn [always]. rewrite app_nil_r.
      split; [apply Forall_app; auto | reflexivity].
Qed.

Lemma resolveRelativePaths_always (c : Client) (prompt baseDir : bytes) :
  always (resolveRelativePaths c prompt baseDir)
    (fun tr res => Forall (resolveLogLine c baseDir) tr
                   /\ res = (resolved baseDir prompt, None)).
Proof.
  unfold resolveRelativePaths, ReplaceAllStringFunc, resolved.
  apply always_bind.
  eapply always_mono;
    [|apply (replaceLoop_always pathPattern _ (resolveMatch baseDir)
               (resolveLogLine c baseDir))].
  - intros tr r [Htr ->]. cbn [always]. rewrite app_nil_r. auto.
  - intros m. unfold resolveMatch. cbv zeta.
    destruct (bytes_eqb (TrimSpace m) []); [split; [constructor | reflexivity]|].
    destruct (IsAbs (TrimSpace m)) eqn:Habs; [split; [constructor | reflexivity]|].
    unfold DebugWith, logWith. destruct (logger c) as [|id] eqn:Hl; cbn [always bind trigger].
    + split; [constructor | reflexivity].
    + intros []. split; [|reflexivity]. constructor; [|constructor].
      exists id, (TrimSpace m). auto.
Qed.

Lemma resolveLogLine_notLog (c : Client) (baseDir : bytes) (tr : list Call) :
  Forall (resolveLogLine c baseDir) tr -> filter notLog tr = [].
Proof.
  induction 1 as [|entry tr (id & m & _ & _ & ->) _ IH]; [reflexivity|].
  cbn [filter notLog]. exact IH.
Qed.

(** X7: [resolveRelativePaths] is text processing: whatever the prompt
    and the base directory, it asks the world nothing (no directory, no
    file is looked at); the only calls it makes are debug lines of the
    client's logger, one for a token it rewrites, and with the no-op
    logger it makes no call at all. *)
Theorem resolve_only_logs (c : Client) (prompt baseDir : bytes)
    (world : Oracle) (history : list Call) :
  let tr := calls world history (resolveRelativePaths c prompt baseDir) in
  filter notLog tr = []
  /\ Forall (resolveLogLine c baseDir) tr
  /\ (logger c = NoOpLogger -> tr = []).
Proof.
  cbv zeta.
  destruct (always_run (resolveRelativePaths c prompt baseDir) _ world history
              (resolveRelativePaths_always c prompt baseDir)) as [H _].
  split; [apply (resolveLogLine_notLog _ _ _ H)|]. split; [exact H|].
  intros Hl.
  destruct (calls world history (resolveRelativePaths c prompt baseDir))
    as [|entry tr]; [reflexivity|].
  inversion H as [|? ? (id & m & Hid & _) _]. congruence.
Qed.

(** X8: the two tests in front of the callback of [resolveRelativePaths]
    never fire: a match of the pattern is never empty and has no white
    space to trim, so the callback returns an absolute match as it is and
    the cleaned join for any other. *)
Theorem resolve_callback_checks_are_idle (prev : option ascii)
    (s g m rest baseDir : bytes) :
  findMatch pathPattern prev s = Some (g, m, rest) ->
  s = g ++ m ++ rest /\ m <> [] /\ TrimSpace m = m
  /\ resolveMatch baseDir m
     = (if IsAbs m then m else Clean (filepath_Join [baseDir; m])).
Proof.
  intros H. apply findMatch_Some in H as (Hs & Hm & _).
  apply pathPattern_Matches in Hm.
  destruct (pathLike_pathSafe _ _ Hm) as [Hne Hsafe].
  split; [exact Hs|]. split; [exact Hne|].
  split; [apply TrimSpace_pathSafe, Hsafe|].
  rewrite (resolveMatch_token _ _ _ Hm). reflexivity.
Qed.

Lemma resolve_callback_checks_are_idle_witness :
  str "see ./a.go now" = str "see " ++ str "./a.go" ++ str " now"
  /\ str "./a.go" <> [] /\ TrimSpace (str "./a.go") = str "./a.go"
  /\ resolveMatch (str "/work") (str "./a.go")
     = (if IsAbs (str "./a.go") then str "./a.go"
        else Clean (filepath_Join [str "/work"; str "./a.go"])).
Proof.
  apply (resolve_callback_checks_are_idle None (str "see ./a.go now") (str "see ")
           (str "./a.go") (str " now") (str "/work")).
  vm_compute. reflexivity.
Defined.

(** ** [Execute], call by call *)

(** Symbolic execution: every answer of the world is taken apart, every
    test of the program decided. *)
Ltac explore :=
  repeat first
    [ progress cbn [always bind trigger logWith DebugWith InfoWith WarnWith ErrorWith
                    negb hd tl app]
    | match goal with
      | |- forall _ : unit, _ => intros []
      | |- forall _ : option _, _ => intros [?|]
      | |- forall _ : raceResult, _ => intros [[?|] ? ?|]
      | |- forall _ : prod _ _, _ => intros [? ?]
      | |- forall _ : bytes, _ => intros [|? ?]
      | |- always (if ?b then _ else _) _ => destruct b eqn:?
      | |- always (match ?x with _ => _ end) _ => destruct x eqn:?
      | |- always (bind _ _) _ => apply always_bind
      end ].

(** The observations of a trace assembled from pieces. *)
Ltac observations :=
  observe;
  repeat first
    [ rewrite flat_map_app | rewrite length_app | rewrite app_nil_r
    | rewrite Nat.add_0_r
    | progress cbn [flat_map lookupOf getwdOf getenvOf homeDirOf startOf waitOf
                    killOf logOf app length Nat.add] ].

Lemma resolvePrompt_always (c : Client) (prompt : bytes) :
  always (resolvePrompt c prompt) (promptResolved c prompt).
Proof.
  unfold resolvePrompt, promptResolved.
  destruct (bytes_eqb (workingDirectory c) []) eqn:E; cbn [negb always bind trigger].
  - apply bytes_eqb_nil in E. repeat split; try reflexivity. congruence.
  - apply bytes_eqb_nil_false in E. intros [cwd [err|]].
    + unfold WarnWith, logWith. destruct (logger c); cbn [always bind trigger].
      * observe. repeat split; try congruence. intros _. exists cwd, (Some err). auto.
      * intros []. observe. repeat split; try congruence. intros _. exists cwd, (Some err). auto.
    + apply always_bind. eapply always_mono; [|apply resolveRelativePaths_always].
      intros tr res [Htr ->]. cbn [always]. rewrite app_nil_r.
      apply resolveLogLine_notLog, logs_only in Htr.
      destruct Htr as (H1 & H2 & H3 & H4 & H5 & H6 & H7).
      observe. repeat split; try assumption; try congruence.
      intros _. exists cwd, None. rewrite H2. auto.
Qed.

Lemma promptResolved_log (c : Client) (prompt : bytes) (pre : list Call) (rp : bytes)
    (id : nat) (level : logLevel) (msg : bytes) (kvs : list (bytes * logValue)) :
  promptResolved c prompt pre rp ->
  promptResolved c prompt (pre ++ [call (Log id level msg kvs) tt]) rp.
Proof. unfold promptResolved. observations. tauto. Qed.

Lemma setWorkingDirectory_always (c : Client) (cmd0 : Cmd) :
  always (setWorkingDirectory c cmd0)
    (fun tr cmd =>
       lookups tr = [] /\ starts tr = [] /\ waits tr = [] /\ kills tr = 0%nat
       /\ Path cmd = Path cmd0 /\ Args cmd = Args cmd0
       /\ dirChosen c (getwds tr) (getenvs tr) (homeDirs tr) (Dir cmd)).
Proof.
  unfold setWorkingDirectory, dirChosen.
  destruct (bytes_eqb (workingDirectory c) []), (logger c); explore; observations;
    subst; cbn [Path Args Dir set_Dir]; repeat (split; [reflexivity|]);
    try solve [repeat split];
    do 2 eexists; (split; [reflexivity|]);
    first
      [ left; repeat split; (reflexivity || discriminate)
      | right; (split; [(left; discriminate) || (right; reflexivity)|]);
        eexists; (split; [reflexivity|]);
        first
          [ left; repeat split; (reflexivity || discriminate)
          | right; (split; [reflexivity|]); do 2 eexists; split; reflexivity ] ].
Qed.

Section CallByCall.
Variable caseTable : Z -> Z.
Variable durationString : Duration -> bytes.

Lemma runCommandWithTimeout_always (c : Client) (cmd : Cmd) (t : Duration) :
  always (runCommandWithTimeout caseTable durationString c cmd t)
    (fun tr res =>
       lookups tr = [] /\ getwds tr = [] /\ getenvs tr = [] /\ homeDirs tr = []
       /\ ran caseTable durationString cmd t (starts tr) (waits tr) (kills tr) res).
Proof.
  unfold runCommandWithTimeout, ran. explore; observations;
    repeat (split; [reflexivity|]).
  - left. eexists. repeat split.
  - right; right; left. do 3 eexists. repeat (split; [reflexivity|]).
    rewrite Heqb. reflexivity.
  - right; right; left. do 3 eexists. repeat (split; [reflexivity|]).
    rewrite Heqb. cbn [snd].
    destruct (negb (bytes_eqb (TrimSpace stdout) [])),
      (negb (bytes_eqb (TrimSpace stderr) []));
      [ exists (str " | stderr: " ++ TrimSpace stderr
                  ++ str " | stdout: " ++ TrimSpace stdout)
      | exists (str " | stdout: " ++ TrimSpace stdout)
      | exists (str " | stderr: " ++ TrimSpace stderr)
      | exists [] ];
      rewrite ?app_nil_r, <- ?app_assoc; reflexivity.
  - do 3 right. do 2 eexists. repeat split.
  - right; left. repeat split.
Qed.

Lemma lookupRunParse_always (c : Client) (cmdArgs : list bytes) (t : Duration) :
  always (lookupRunParse caseTable durationString c cmdArgs t)
    (lookedUpAndRan caseTable durationString c cmdArgs t).
Proof.
  unfold lookupRunParse, lookedUpAndRan.
  destruct (logger c); explore;
    try (eapply always_mono; [|apply setWorkingDirectory_always];
         intros trd cmd (Hdl & Hds & Hdw & Hdk & Hp & Ha & Hdir); explore;
         eapply always_mono; [|apply runCommandWithTimeout_always];
         intros trr rres (Hrl & Hrg & Hre & Hrh & Hran); explore);
    observations;
    rewrite ?Hdl, ?Hds, ?Hdw, ?Hdk, ?Hrl, ?Hrg, ?Hre, ?Hrh, ?app_nil_r;
    cbn [app Nat.add]; do 2 eexists; (split; [reflexivity|]);
    try solve [repeat split];
    exists cmd; eexists; cbn [exec_Command Path Args] in Hp, Ha;
    (split; [exact Hp|]); (split; [exact Ha|]); (split; [exact Hdir|]);
    (split; [exact Hran|]); unfold finishExecute;
    try match goal with H : parseGeminiOutput _ = _ |- _ => rewrite H end;
    reflexivity.
Qed.

(** [Execute] and [ExecuteWithTimeout], seen from the lookup on. *)
Lemma Execute_always (c : Client) (prompt : bytes)
    (P : list Call -> bytes * option error -> Prop) :
  (prompt = [] -> P [] ([], Some (Errorf ErrEmptyPrompt))) ->
  (prompt <> [] -> forall pre rp tr res,
     promptResolved c prompt pre rp ->
     lookedUpAndRan caseTable durationString c
       (buildGeminiCommandWithModel c rp) (timeout c) tr res ->
     P (pre ++ tr) res) ->
  always (Execute caseTable durationString c prompt) P.
Proof.
  intros Hempty Hrest. unfold Execute.
  destruct (bytes_eqb prompt []) eqn:Ep; [apply Hempty, bytes_eqb_nil, Ep|].
  apply bytes_eqb_nil_false in Ep. specialize (Hrest Ep).
  apply always_bind. eapply always_mono; [|apply resolvePrompt_always].
  intros tr0 rp Hpre. apply always_bind.
  unfold DebugWith, logWith. destruct (logger c); cbn [always bind trigger].
  - eapply always_mono; [|apply lookupRunParse_always].
    intros tr res H. cbn [app]. apply (Hrest _ _ _ _ Hpre H).
  - intros []. eapply always_mono; [|apply lookupRunParse_always].
    intros tr res H. rewrite app_assoc.
    apply (Hrest _ _ _ _ (promptResolved_log _ _ _ _ _ _ _ _ Hpre) H).
Qed.

Lemma ExecuteWithTimeout_always (c : Client) (prompt : bytes) (t : Duration)
    (P : list Call -> bytes * option error -> Prop) :
  (prompt = [] -> P [] ([], Some (Errorf ErrEmptyPrompt))) ->
  (prompt <> [] -> forall pre rp tr res,
     promptResolved c prompt pre rp ->
     lookedUpAndRan caseTable durationString c
       (buildGeminiCommandWithModel c rp) t tr res ->
     P (pre ++ tr) res) ->
  always (ExecuteWithTimeout caseTable durationString c prompt t) P.
Proof.
  intros Hempty Hrest. unfold ExecuteWithTimeout.
  destruct (bytes_eqb prompt []) eqn:Ep; [apply Hempty, bytes_eqb_nil, Ep|].
  apply bytes_eqb_nil_false in Ep. specialize (Hrest Ep).
  apply always_bind. eapply always_mono; [|apply resolvePrompt_always].
  intros tr0 rp Hpre. apply always_bind.
  unfold DebugWith, logWith. destruct (logger c); cbn [always bind trigger].
  - eapply always_mono; [|apply lookupRunParse_always].
    intros tr res H. cbn [app]. apply (Hrest _ _ _ _ Hpre H).
  - intros []. eapply always_mono; [|apply lookupRunParse_always].
    intros tr res H. rewrite app_assoc.
    apply (Hrest _ _ _ _ (promptResolved_log _ _ _ _ _ _ _ _ Hpre) H).
Qed.

End CallByCall.

Lemma parseGeminiOutput_fails (output r : bytes) (e : error) :
  parseGeminiOutput output = (r, Some e) ->
  r = [] /\ e = Errorf ErrEmptyOutput /\ Forall dropped (Split output newline).
Proof.
  rewrite parseGeminiOutput_spec. destruct (survivors output) eqn:E; [|discriminate].
  intros [= <- <-]. repeat split. apply survivors_nil_iff, E.
Qed.

Section ExecuteProperties.
Variable caseTable : Z -> Z.
Variable durationString : Duration -> bytes.

Ltac tidy :=
  cbn [length In]; repeat split; try lia; intros;
  repeat match goal with
         | H : False |- _ => destruct H
         | H : _ \/ _ |- _ => destruct H
         | H : (_, _) = (_, _) |- _ => injection H as ? ?; subst
         | H : exists _, _ |- _ => destruct H
         end;
  try discriminate; try reflexivity; try (eexists; reflexivity);
  try (split; [reflexivity | eexists; reflexivity]).

(** The observations of a run of [Execute] with a prompt that is not
    empty: those of the first block, then those from the lookup on. *)
Ltac from_the_lookup Hpre Hrun :=
  let Hl := fresh "Hl" in let He := fresh "He" in let Hh := fresh "Hh" in
  let Hs := fresh "Hs" in let Hw := fresh "Hw" in let Hk := fresh "Hk" in
  let Hwd0 := fresh "Hwd0" in let Hwd1 := fresh "Hwd1" in
  destruct Hpre as (Hl & He & Hh & Hs & Hw & Hk & Hwd0 & Hwd1);
  unfold lookedUpAndRan in Hrun; observe;
  rewrite ?flat_map_app, ?length_app, ?Hl, ?He, ?Hh, ?Hs, ?Hw, ?Hk;
  cbn [app Nat.add hd tl buildGeminiCommandWithModel] in *.

(** X9: an error of [Execute] tells what happened, and the text returned
    with it is empty.  The prompt was empty and nothing was done; or the
    lookup of [gemini] failed and nothing was started; or the start
    failed and nothing was awaited; or the timer fired and the process
    was killed; or the process ended with an error, reported as the
    authentication error if what it wrote names one and with its exit
    error otherwise; or it ended well and every line of its output is
    dropped by the sanitizer.  The errors of the process are wrapped in
    [ErrCommandFailed], the last one in [ErrParseOutput]. *)
Theorem execute_error_tells (c : Client) (prompt : bytes)
    (world : Oracle) (history : list Call) (e : error) :
  let tr := calls world history (Execute caseTable durationString c prompt) in
  let res := snd (run world history (Execute caseTable durationString c prompt)) in
  snd res = Some e ->
  fst res = []
  /\ ((e = Errorf ErrEmptyPrompt /\ prompt = [] /\ tr = [])
      \/ (exists path cause,
            e = Errorf_wrap (str "gemini command not found") cause
            /\ lookups tr = [(GeminiCommand, (path, Some cause))] /\ starts tr = [])
      \/ (exists cmd cause,
            e = Errorf_wrap ErrCommandFailed (Errorf_wrap ErrCommandStart cause)
            /\ starts tr = [(cmd, Some cause)] /\ waits tr = [])
      \/ (e = Errorf_wrap ErrCommandFailed
                (Errorf (ErrCommandTimeout ++ str " after "
                           ++ durationString (timeout c)))
          /\ waits tr = [(timeout c, TimerFired)] /\ kills tr = 1%nat)
      \/ (exists exit out errOut,
            waits tr = [(timeout c, Completed (Some exit) out errOut)]
            /\ kills tr = 0%nat
            /\ if detectAuthError caseTable (out ++ errOut)
               then e = Errorf_wrap ErrCommandFailed (Errorf ErrAuthFailed)
               else exists detail,
                      e = Errorf_wrap ErrCommandFailed
                            (Errorf (str "command failed: " ++ errorText exit ++ detail)))
      \/ (exists out errOut,
            e = Errorf_wrap ErrParseOutput (Errorf ErrEmptyOutput)
            /\ waits tr = [(timeout c, Completed None out errOut)]
            /\ kills tr = 0%nat
            /\ Forall dropped (Split out newline))).
Proof.
  cbv zeta.
  apply (always_run (Execute caseTable durationString c prompt)
           (fun tr res => snd res = Some e ->
  fst res = []
  /\ ((e = Errorf ErrEmptyPrompt /\ prompt = [] /\ tr = [])
      \/ (exists path cause,
            e = Errorf_wrap (str "gemini command not found") cause
            /\ lookups tr = [(GeminiCommand, (path, Some cause))] /\ starts tr = [])
      \/ (exists cmd cause,
            e = Errorf_wrap ErrCommandFailed (Errorf_wrap ErrCommandStart cause)
            /\ starts tr = [(cmd, Some cause)] /\ waits tr = [])
      \/ (e = Errorf_wrap ErrCommandFailed
                (Errorf (ErrCommandTimeout ++ str " after "
                           ++ durationString (timeout c)))
          /\ waits tr = [(timeout c, TimerFired)] /\ kills tr = 1%nat)
      \/ (exists exit out errOut,
            waits tr = [(timeout c, Completed (Some exit) out errOut)]
            /\ kills tr = 0%nat
            /\ if detectAuthError caseTable (out ++ errOut)
               then e = Errorf_wrap ErrCommandFailed (Errorf ErrAuthFailed)
               else exists detail,
                      e = Errorf_wrap ErrCommandFailed
                            (Errorf (str "command failed: " ++ errorText exit ++ detail)))
      \/ (exists out errOut,
            e = Errorf_wrap ErrParseOutput (Errorf ErrEmptyOutput)
            /\ waits tr = [(timeout c, Completed None out errOut)]
            /\ kills tr = 0%nat
            /\ Forall dropped (Split out newline))))).
  apply Execute_always.
  - intros ->. cbn. intros [= <-]. auto.
  - intros _ pre rp tr res Hpre Hrun. from_the_lookup Hpre Hrun.
    destruct Hrun as (path & [cause|] & Hlook & H).
    + destruct H as (_ & _ & _ & Hst & _ & _ & ->). intros [= <-].
      split; [reflexivity|]. right; left. exists path, cause. auto.
    + destruct H as (cmd & rres & _ & _ & _ & Hran & ->).
      destruct Hran as [(cause & Hst & Hwt & Hkl & ->)
                       |[(Hst & Hwt & Hkl & ->)
                        |[(exit & out & errOut & Hst & Hwt & Hkl & Hout & Herr)
                         |(out & errOut & Hst & Hwt & Hkl & ->)]]];
        cbn [finishExecute].
      * intros [= <-]. split; [reflexivity|]. right; right; left. exists cmd, cause. auto.
      * intros [= <-]. split; [reflexivity|]. do 3 right; left. auto.
      * destruct rres as [o [err|]]; cbn [fst snd finishExecute] in *.
        -- intros [= <-]. split; [reflexivity|]. do 4 right; left.
           exists exit, out, errOut. split; [exact Hwt|]. split; [exact Hkl|].
           destruct (detectAuthError caseTable (out ++ errOut)).
           ++ injection Herr as ->. reflexivity.
           ++ destruct Herr as [detail [= ->]]. exists detail. reflexivity.
        -- destruct (detectAuthError caseTable (out ++ errOut));
             [discriminate | destruct Herr; discriminate].
      * destruct (parseGeminiOutput out) as [r [err|]] eqn:Ep; [|discriminate].
        apply parseGeminiOutput_fails in Ep as (-> & -> & Hdrop).
        intros [= <-]. split; [reflexivity|]. do 5 right.
        exists out, errOut. auto.
Qed.


(** X10: when [Execute] returns no error, [gemini] was found, one process
    was started from the path found and started well, it ended without
    an error before the client's timeout and was not killed, and the text
    returned is its standard output sanitized, which is not empty; what
    the process wrote to standard error plays no part. *)
Theorem execute_success_means (c : Client) (prompt r : bytes)
    (world : Oracle) (history : list Call) :
  snd (run world history (Execute caseTable durationString c prompt)) = (r, None) ->
  let tr := calls world history (Execute caseTable durationString c prompt) in
  exists path cmd stdout stderr,
    lookups tr = [(GeminiCommand, (path, None))]
    /\ starts tr = [(cmd, None)] /\ Path cmd = path
    /\ waits tr = [(timeout c, Completed None stdout stderr)]
    /\ kills tr = 0%nat
    /\ parseGeminiOutput stdout = (r, None)
    /\ r <> [].
Proof.
  cbv zeta.
  apply (always_run (Execute caseTable durationString c prompt)
           (fun tr res => res = (r, None) ->
  exists path cmd stdout stderr,
    lookups tr = [(GeminiCommand, (path, None))]
    /\ starts tr = [(cmd, None)] /\ Path cmd = path
    /\ waits tr = [(timeout c, Completed None stdout stderr)]
    /\ kills tr = 0%nat
    /\ parseGeminiOutput stdout = (r, None)
    /\ r <> [])).
  apply Execute_always; [discriminate|].
  intros _ pre rp tr res Hpre Hrun. from_the_lookup Hpre Hrun.
  destruct Hrun as (path & [cause|] & Hlook & H).
  - destruct H as (_ & _ & _ & _ & _ & _ & ->). discriminate.
  - destruct H as (cmd & rres & Hp & _ & _ & Hran & ->).
    destruct Hran as [(cause & Hst & Hwt & Hkl & ->)
                     |[(Hst & Hwt & Hkl & ->)
                      |[(exit & out & errOut & Hst & Hwt & Hkl & Hout & Herr)
                       |(out & errOut & Hst & Hwt & Hkl & ->)]]];
      cbn [finishExecute]; try discriminate.
    + destruct rres as [o [err|]]; cbn [fst snd finishExecute] in *; [discriminate|].
      destruct (detectAuthError caseTable (out ++ errOut));
        [discriminate | destruct Herr; discriminate].
    + destruct (parseGeminiOutput out) as [r' [err|]] eqn:Ep; [discriminate|].
      intros [= ->]. exists path, cmd, out, errOut.
      repeat (split; [assumption|]).
      apply (successful_parse_trimmed out r Ep).
Qed.

(** X11: one call of [Execute] looks up at most one executable, which is
    [gemini], starts at most one process, awaits it at most once and
    kills at most once: nothing is retried.  A process is started only
    after the lookup succeeded, awaited only after it started well and
    under the client's timeout, and killed exactly when the timer fired
    first. *)
Theorem execute_one_process (c : Client) (prompt : bytes)
    (world : Oracle) (history : list Call) :
  let tr := calls world history (Execute caseTable durationString c prompt) in
  (length (lookups tr) <= 1)%nat /\ (length (starts tr) <= 1)%nat
  /\ (length (waits tr) <= 1)%nat /\ (kills tr <= 1)%nat
  /\ (forall file ans, In (file, ans) (lookups tr) -> file = GeminiCommand)
  /\ (forall cmd err, In (cmd, err) (starts tr) ->
        exists path, lookups tr = [(GeminiCommand, (path, None))])
  /\ (forall t outcome, In (t, outcome) (waits tr) ->
        t = timeout c /\ exists cmd, starts tr = [(cmd, None)])
  /\ (kills tr = 1%nat <-> exists t, waits tr = [(t, TimerFired)]).
Proof.
  cbv zeta.
  apply (always_run (Execute caseTable durationString c prompt)
           (fun tr _ =>
  (length (lookups tr) <= 1)%nat /\ (length (starts tr) <= 1)%nat
  /\ (length (waits tr) <= 1)%nat /\ (kills tr <= 1)%nat
  /\ (forall file ans, In (file, ans) (lookups tr) -> file = GeminiCommand)
  /\ (forall cmd err, In (cmd, err) (starts tr) ->
        exists path, lookups tr = [(GeminiCommand, (path, None))])
  /\ (forall t outcome, In (t, outcome) (waits tr) ->
        t = timeout c /\ exists cmd, starts tr = [(cmd, None)])
  /\ (kills tr = 1%nat <-> exists t, waits tr = [(t, TimerFired)]))).
  apply Execute_always.
  - intros _. observe. tidy.
  - intros _ pre rp tr res Hpre Hrun. from_the_lookup Hpre Hrun.
    destruct Hrun as (path & [cause|] & Hlook & H); rewrite Hlook.
    + destruct H as (_ & _ & _ & -> & -> & -> & _). tidy.
    + destruct H as (cmd & rres & _ & _ & _ & Hran & _).
      destruct Hran as [(cause & -> & -> & -> & _)
                       |[(-> & -> & -> & _)
                        |[(exit & out & errOut & -> & -> & -> & _)
                         |(out & errOut & -> & -> & -> & _)]]];
        tidy.
Qed.


(** X12: the process [Execute] starts is the executable the lookup found,
    with the arguments [-m model -p prompt'].  Without a configured
    working directory [prompt'] is the prompt as given.  With one, the
    process runs in that directory and [prompt'] is the prompt with its
    path-like tokens resolved against the current directory of the
    caller, as [os.Getwd] reports it, not against the configured
    directory; if [os.Getwd] fails, the prompt is passed as given. *)
Theorem execute_command_line (c : Client) (prompt : bytes)
    (world : Oracle) (history : list Call) (cmd : Cmd) (err : option error) :
  let tr := calls world history (Execute caseTable durationString c prompt) in
  In (cmd, err) (starts tr) ->
  exists path rp,
    lookups tr = [(GeminiCommand, (path, None))]
    /\ Path cmd = path
    /\ Args cmd = [path; str "-m"; model c; str "-p"; rp]
    /\ (workingDirectory c = [] -> rp = prompt)
    /\ (workingDirectory c <> [] ->
        Dir cmd = workingDirectory c
        /\ exists cwd e,
             getwds tr = [(cwd, e)]
             /\ rp = match e with
                     | None => resolved cwd prompt
                     | Some _ => prompt
                     end).
Proof.
  cbv zeta.
  apply (always_run (Execute caseTable durationString c prompt)
           (fun tr _ => In (cmd, err) (starts tr) ->
  exists path rp,
    lookups tr = [(GeminiCommand, (path, None))]
    /\ Path cmd = path
    /\ Args cmd = [path; str "-m"; model c; str "-p"; rp]
    /\ (workingDirectory c = [] -> rp = prompt)
    /\ (workingDirectory c <> [] ->
        Dir cmd = workingDirectory c
        /\ exists cwd e,
             getwds tr = [(cwd, e)]
             /\ rp = match e with
                     | None => resolved cwd prompt
                     | Some _ => prompt
                     end))).
  apply Execute_always; [intros _ []|].
  intros _ pre rp tr res Hpre Hrun. from_the_lookup Hpre Hrun.
  destruct Hrun as (path & [cause|] & Hlook & H).
  - destruct H as (_ & _ & _ & -> & _). intros [].
  - destruct H as (cmd' & rres & Hp & Ha & Hdir & Hran & _). intros Hin.
    assert (E : cmd = cmd').
    { destruct Hran as [(cause & Hst & _)
                       |[(Hst & _)
                        |[(exit & out & errOut & Hst & _)
                         |(out & errOut & Hst & _)]]];
        rewrite Hst in Hin; destruct Hin as [[= -> _]|[]]; reflexivity. }
    subst cmd'. exists path, rp. split; [exact Hlook|]. split; [exact Hp|].
    split; [exact Ha|]. split; [intros Hwd; apply (Hwd0 Hwd)|].
    intros Hwd. unfold dirChosen in Hdir.
    destruct (bytes_eqb (workingDirectory c) []) eqn:E;
      [apply bytes_eqb_nil in E; contradiction|].
    destruct Hdir as (Hg & _ & _ & Hd). split; [exact Hd|].
    destruct (Hwd1 Hwd) as (cwd & e & Hpg & Hrp). exists cwd, e.
    rewrite Hg, Hpg. auto.
Qed.

(** X13: without a configured working directory, the process runs in the
    current directory if [os.Getwd] gives one; only if it gives an error
    or nothing is [$HOME] consulted, and only if that is empty the home
    directory of the current user; if that fails too, the process is
    still started, with no directory set. *)
Theorem execute_default_directory (c : Client) (prompt : bytes)
    (world : Oracle) (history : list Call) (cmd : Cmd) (err : option error) :
  let tr := calls world history (Execute caseTable durationString c prompt) in
  workingDirectory c = [] ->
  In (cmd, err) (starts tr) ->
  exists dir e,
    getwds tr = [(dir, e)]
    /\ ((e = None /\ dir <> [] /\ Dir cmd = dir /\ getenvs tr = [] /\ homeDirs tr = [])
        \/ ((e <> None \/ dir = [])
            /\ exists home,
                 getenvs tr = [(str "HOME", home)]
                 /\ ((home <> [] /\ Dir cmd = home /\ homeDirs tr = [])
                     \/ (home = []
                         /\ exists userHome e',
                              homeDirs tr = [(userHome, e')]
                              /\ Dir cmd = match e' with
                                           | None => userHome
                                           | Some _ => []
                                           end)))).
Proof.
  cbv zeta. intros Hwd.
  apply (always_run (Execute caseTable durationString c prompt)
           (fun tr _ => In (cmd, err) (starts tr) ->
  exists dir e,
    getwds tr = [(dir, e)]
    /\ ((e = None /\ dir <> [] /\ Dir cmd = dir /\ getenvs tr = [] /\ homeDirs tr = [])
        \/ ((e <> None \/ dir = [])
            /\ exists home,
                 getenvs tr = [(str "HOME", home)]
                 /\ ((home <> [] /\ Dir cmd = home /\ homeDirs tr = [])
                     \/ (home = []
                         /\ exists userHome e',
                              homeDirs tr = [(userHome, e')]
                              /\ Dir cmd = match e' with
                                           | None => userHome
                                           | Some _ => []
                                           end)))))).
  apply Execute_always; [intros _ []|].
  intros _ pre rp tr res Hpre Hrun. from_the_lookup Hpre Hrun.
  destruct (Hwd0 Hwd) as [Hpg _]. rewrite Hpg. cbn [app].
  destruct Hrun as (path & [cause|] & Hlook & H).
  - destruct H as (_ & _ & _ & -> & _). intros [].
  - destruct H as (cmd' & rres & Hp & Ha & Hdir & Hran & _). intros Hin.
    assert (E : cmd = cmd').
    { destruct Hran as [(cause & Hst & _)
                       |[(Hst & _)
                        |[(exit & out & errOut & Hst & _)
                         |(out & errOut & Hst & _)]]];
        rewrite Hst in Hin; destruct Hin as [[= -> _]|[]]; reflexivity. }
    subst cmd'. unfold dirChosen in Hdir. rewrite Hwd in Hdir. exact Hdir.
Qed.

(** Every lookup in the calls of a run was answered by the world. *)
Lemma lookups_answered {A : Type} (world : Oracle) (p : Prog A) :
  forall history file ans,
    In (file, ans) (lookups (calls world history p)) ->
    exists h, ans = world _ h (LookPath file).
Proof.
  induction p as [a|X e k IH]; intros history file ans.
  - rewrite calls_Ret. intros [].
  - rewrite calls_Vis. unfold lookups. cbn [flat_map]. intros H.
    apply in_app_or in H as [H|H]; [|apply (IH _ _ _ _ H)].
    destruct e; cbn in H; try contradiction.
    destruct H as [[= <- <-]|[]]. eauto.
Qed.

(** X14: [ValidateAvailable] predicts [Execute]: in a world that answers
    the lookup of [gemini] the same way every time, [ValidateAvailable]
    returns no error exactly when [Execute], on a prompt that is not
    empty, does not fail with "gemini command not found". *)
Theorem validate_available_predicts (c c' : Client) (prompt : bytes)
    (world : Oracle) (h h' : list Call) :
  (forall h1 h2, world _ h1 (LookPath GeminiCommand)
                 = world _ h2 (LookPath GeminiCommand)) ->
  prompt <> [] ->
  (snd (run world h (ValidateAvailable c)) = None <->
   forall cause,
     snd (snd (run world h' (Execute caseTable durationString c' prompt)))
     <> Some (Errorf_wrap (str "gemini command not found") cause)).
Proof.
  intros Hworld Hne.
  assert (Hv : snd (run world h (ValidateAvailable c)) = None
               <-> snd (world _ h (LookPath GeminiCommand)) = None).
  { unfold ValidateAvailable. cbn [run bind trigger].
    destruct (world _ h (LookPath GeminiCommand)) as [p [e|]]; cbn; split;
      congruence. }
  rewrite Hv. clear Hv.
  assert (He : exists path lerr,
             lookups (calls world h' (Execute caseTable durationString c' prompt))
             = [(GeminiCommand, (path, lerr))]
             /\ match lerr with
                | Some cause =>
                    snd (snd (run world h' (Execute caseTable durationString c' prompt)))
                    = Some (Errorf_wrap (str "gemini command not found") cause)
                | None =>
                    forall cause,
                      snd (snd (run world h' (Execute caseTable durationString c' prompt)))
                      <> Some (Errorf_wrap (str "gemini command not found") cause)
                end).
  { apply (always_run (Execute caseTable durationString c' prompt)
             (fun tr res =>
                exists path lerr,
                  lookups tr = [(GeminiCommand, (path, lerr))]
                  /\ match lerr with
                     | Some cause =>
                         snd res = Some (Errorf_wrap (str "gemini command not found") cause)
                     | None =>
                         forall cause,
                           snd res <> Some (Errorf_wrap (str "gemini command not found") cause)
                     end)).
    apply Execute_always; [contradiction|].
    intros _ pre rp tr res Hpre Hrun. from_the_lookup Hpre Hrun.
    destruct Hrun as (path & [cause|] & Hlook & H); exists path; eexists;
      (split; [exact Hlook|]).
    - destruct H as (_ & _ & _ & _ & _ & _ & ->). reflexivity.
    - destruct H as (cmd & [out [err|]] & _ & _ & _ & _ & ->); cbn [finishExecute].
      + intros cause. discriminate.
      + destruct (parseGeminiOutput out) as [r [err|]]; intros cause; discriminate. }
  destruct He as (path & lerr & Hlook & Hres).
  assert (Hans : (path, lerr) = world _ h (LookPath GeminiCommand)).
  { destruct (lookups_answered world (Execute caseTable durationString c' prompt)
                h' GeminiCommand (path, lerr)) as [h1 E].
    - rewrite Hlook. left. reflexivity.
    - rewrite E. apply Hworld. }
  rewrite <- Hans. cbn [snd]. destruct lerr as [cause|].
  - split; [discriminate|]. intros H. exfalso. exact (H cause Hres).
  - split; [intros _; exact Hres | reflexivity].
Qed.

(** [Execute] waits under the timeout of its client. *)
Lemma Execute_waits (c : Client) (prompt : bytes) (d : Duration)
    (outcome : raceResult) (world : Oracle) (history : list Call) :
  In (d, outcome)
     (waits (calls world history (Execute caseTable durationString c prompt))) ->
  d = timeout c.
Proof.
  apply (always_run (Execute caseTable durationString c prompt)
           (fun tr _ => In (d, outcome) (waits tr) -> d = timeout c)).
  apply Execute_always; [intros _ []|].
  intros _ pre rp tr res Hpre Hrun. from_the_lookup Hpre Hrun.
  destruct Hrun as (path & [cause|] & Hlook & H).
  - destruct H as (_ & _ & _ & _ & -> & _). intros [].
  - destruct H as (cmd & rres & _ & _ & _ & Hran & _).
    destruct Hran as [(cause & _ & -> & _)
                     |[(_ & -> & _)
                      |[(exit & out & errOut & _ & -> & _)
                       |(out & errOut & _ & -> & _)]]];
      tidy.
Qed.

(** X15: [ExecuteWithTimeout] validates nothing: the race is run under
    the timeout it is given, whatever that is; no default takes the place
    of a zero or negative one, as it does when a client is built. *)
Theorem execute_with_timeout_waits_as_told (c : Client) (prompt : bytes)
    (t d : Duration) (outcome : raceResult) (world : Oracle) (history : list Call) :
  In (d, outcome)
     (waits (calls world history
               (ExecuteWithTimeout caseTable durationString c prompt t))) ->
  d = t.
Proof.
  apply (always_run (ExecuteWithTimeout caseTable durationString c prompt t)
           (fun tr _ => In (d, outcome) (waits tr) -> d = t)).
  apply ExecuteWithTimeout_always; [intros _ []|].
  intros _ pre rp tr res Hpre Hrun. from_the_lookup Hpre Hrun.
  destruct Hrun as (path & [cause|] & Hlook & H).
  - destruct H as (_ & _ & _ & _ & -> & _). intros [].
  - destruct H as (cmd & rres & _ & _ & _ & Hran & _).
    destruct Hran as [(cause & _ & -> & _)
                     |[(_ & -> & _)
                      |[(exit & out & errOut & _ & -> & _)
                       |(out & errOut & _ & -> & _)]]];
      tidy.
Qed.

End ExecuteProperties.

Lemma execute_error_tells_witness :
  let e := Errorf_wrap ErrCommandFailed
             (Errorf (ErrCommandTimeout ++ str " after " ++ str "30s")) in
  let c := NewClient in
  let tr := calls quietWorld []
              (Execute sampleCaseTable (fun _ => str "30s") c (str "hi")) in
  let res := snd (run quietWorld []
                    (Execute sampleCaseTable (fun _ => str "30s") c (str "hi"))) in
  fst res = []
  /\ ((e = Errorf ErrEmptyPrompt /\ str "hi" = [] /\ tr = [])
      \/ (exists path cause,
            e = Errorf_wrap (str "gemini command not found") cause
            /\ lookups tr = [(GeminiCommand, (path, Some cause))] /\ starts tr = [])
      \/ (exists cmd cause,
            e = Errorf_wrap ErrCommandFailed (Errorf_wrap ErrCommandStart cause)
            /\ starts tr = [(cmd, Some cause)] /\ waits tr = [])
      \/ (e = Errorf_wrap ErrCommandFailed
                (Errorf (ErrCommandTimeout ++ str " after " ++ str "30s"))
          /\ waits tr = [(timeout c, TimerFired)] /\ kills tr = 1%nat)
      \/ (exists exit out errOut,
            waits tr = [(timeout c, Completed (Some exit) out errOut)]
            /\ kills tr = 0%nat
            /\ if detectAuthError sampleCaseTable (out ++ errOut)
               then e = Errorf_wrap ErrCommandFailed (Errorf ErrAuthFailed)
               else exists detail,
                      e = Errorf_wrap ErrCommandFailed
                            (Errorf (str "command failed: " ++ errorText exit ++ detail)))
      \/ (exists out errOut,
            e = Errorf_wrap ErrParseOutput (Errorf ErrEmptyOutput)
            /\ waits tr = [(timeout c, Completed None out errOut)]
            /\ kills tr = 0%nat
            /\ Forall dropped (Split out newline))).
Proof.
  apply (execute_error_tells sampleCaseTable (fun _ => str "30s") NewClient (str "hi")
           quietWorld []).
  vm_compute. reflexivity.
Defined.

Lemma execute_success_means_witness :
  let world := scriptedWorld (str "/usr/bin/gemini", None)
                 (Completed None (str "Authenticating" ++ newline :: str "Hello") []) in
  let tr := calls world []
              (Execute sampleCaseTable (fun _ => str "30s") NewClient (str "hi")) in
  exists path cmd stdout stderr,
    lookups tr = [(GeminiCommand, (path, None))]
    /\ starts tr = [(cmd, None)] /\ Path cmd = path
    /\ waits tr = [(timeout NewClient, Completed None stdout stderr)]
    /\ kills tr = 0%nat
    /\ parseGeminiOutput stdout = (str "Hello", None)
    /\ str "Hello" <> [].
Proof.
  apply (execute_success_means sampleCaseTable (fun _ => str "30s") NewClient (str "hi")
           (str "Hello")
           (scriptedWorld (str "/usr/bin/gemini", None)
              (Completed None (str "Authenticating" ++ newline :: str "Hello") []))
           []).
  vm_compute. reflexivity.
Defined.

Lemma execute_command_line_witness :
  let world := scriptedWorld (str "/usr/bin/gemini", None) TimerFired in
  let c := set_workingDirectory NewClient (str "/proj") in
  let cmd := {| Path := str "/usr/bin/gemini";
                Args := [str "/usr/bin/gemini"; str "-m"; str "gemini-2.5-flash";
                         str "-p"; str "read /work/a.go"];
                Dir := str "/proj" |} in
  let tr := calls world []
              (Execute sampleCaseTable (fun _ => str "30s") c (str "read ./a.go")) in
  exists path rp,
    lookups tr = [(GeminiCommand, (path, None))]
    /\ Path cmd = path
    /\ Args cmd = [path; str "-m"; model c; str "-p"; rp]
    /\ (workingDirectory c = [] -> rp = str "read ./a.go")
    /\ (workingDirectory c <> [] ->
        Dir cmd = workingDirectory c
        /\ exists cwd e,
             getwds tr = [(cwd, e)]
             /\ rp = match e with
                     | None => resolved cwd (str "read ./a.go")
                     | Some _ => str "read ./a.go"
                     end).
Proof.
  apply (execute_command_line sampleCaseTable (fun _ => str "30s")
           (set_workingDirectory NewClient (str "/proj")) (str "read ./a.go")
           (scriptedWorld (str "/usr/bin/gemini", None) TimerFired) []
           {| Path := str "/usr/bin/gemini";
              Args := [str "/usr/bin/gemini"; str "-m"; str "gemini-2.5-flash";
                       str "-p"; str "read /work/a.go"];
              Dir := str "/proj" |}
           None).
  vm_compute. left. reflexivity.
Defined.

Lemma execute_default_directory_witness :
  let world := scriptedWorld (str "/usr/bin/gemini", None) TimerFired in
  let cmd := {| Path := str "/usr/bin/gemini";
                Args := [str "/usr/bin/gemini"; str "-m"; str "gemini-2.5-flash";
                         str "-p"; str "hi"];
                Dir := str "/work" |} in
  let tr := calls world []
              (Execute sampleCaseTable (fun _ => str "30s") NewClient (str "hi")) in
  exists dir e,
    getwds tr = [(dir, e)]
    /\ ((e = None /\ dir <> [] /\ Dir cmd = dir /\ getenvs tr = [] /\ homeDirs tr = [])
        \/ ((e <> None \/ dir = [])
            /\ exists home,
                 getenvs tr = [(str "HOME", home)]
                 /\ ((home <> [] /\ Dir cmd = home /\ homeDirs tr = [])
                     \/ (home = []
                         /\ exists userHome e',
                              homeDirs tr = [(userHome, e')]
                              /\ Dir cmd = match e' with
                                           | None => userHome
                                           | Some _ => []
                                           end)))).
Proof.
  apply (execute_default_directory sampleCaseTable (fun _ => str "30s") NewClient
           (str "hi") (scriptedWorld (str "/usr/bin/gemini", None) TimerFired) []
           {| Path := str "/usr/bin/gemini";
              Args := [str "/usr/bin/gemini"; str "-m"; str "gemini-2.5-flash";
                       str "-p"; str "hi"];
              Dir := str "/work" |}
           None).
  - reflexivity.
  - vm_compute. left. reflexivity.
Defined.

Lemma validate_available_predicts_witness :
  let world := scriptedWorld ([], Some (errorString (str "not found"))) TimerFired in
  snd (run world [] (ValidateAvailable NewClient)) = None <->
  forall cause,
    snd (snd (run world []
                (Execute sampleCaseTable (fun _ => str "30s") NewClient (str "hi"))))
    <> Some (Errorf_wrap (str "gemini command not found") cause).
Proof.
  apply (validate_available_predicts sampleCaseTable (fun _ => str "30s")
           NewClient NewClient (str "hi")
           (scriptedWorld ([], Some (errorString (str "not found"))) TimerFired) [] []).
  - reflexivity.
  - discriminate.
Defined.

Lemma execute_with_timeout_waits_as_told_witness : (-5) = (-5).
Proof.
  apply (execute_with_timeout_waits_as_told sampleCaseTable (fun _ => str "-5ns")
           NewClient (str "hi") (-5) (-5) TimerFired quietWorld []).
  vm_compute. left. reflexivity.
Defined.

(** ** [runCommandWithTimeout] *)

Ltac settle :=
  repeat split; intros;
  repeat match goal with
         | H : _ \/ False |- _ => destruct H as [H|[]]
         | H : False |- _ => destruct H
         | H : exists _, _ |- _ => destruct H
         | H : _ /\ _ |- _ => destruct H
         end;
  try lia; try contradiction; try discriminate; try congruence; eauto.

Section Runner.
Variable caseTable : Z -> Z.
Variable durationString : Duration -> bytes.

(** X16: [runCommandWithTimeout] starts the command it is given, once.
    If the start fails, nothing is awaited or killed and the error wraps
    the cause in [ErrCommandStart].  Otherwise the race is run under the
    timeout given.  The process is killed exactly when the timer fired
    first, which is exactly when the timeout error is returned, and never
    otherwise.  Output is returned only with a nil error, and then it is
    what a process that ended without error wrote to standard output. *)
Theorem runner_kills_only_on_timeout (c : Client) (cmd : Cmd) (t : Duration)
    (world : Oracle) (history : list Call) :
  let tr := calls world history (runCommandWithTimeout caseTable durationString c cmd t) in
  let res := snd (run world history (runCommandWithTimeout caseTable durationString c cmd t)) in
  (exists err, starts tr = [(cmd, err)])
  /\ (forall e, starts tr = [(cmd, Some e)] ->
        waits tr = [] /\ kills tr = 0%nat
        /\ res = ([], Some (Errorf_wrap ErrCommandStart e)))
  /\ (starts tr = [(cmd, None)] -> exists outcome, waits tr = [(t, outcome)])
  /\ (kills tr = 1%nat <-> waits tr = [(t, TimerFired)])
  /\ (kills tr = 1%nat <->
      res = ([], Some (Errorf (ErrCommandTimeout ++ str " after " ++ durationString t))))
  /\ (kills tr <> 1%nat -> kills tr = 0%nat)
  /\ (forall out, res = (out, None) ->
        exists errOut, waits tr = [(t, Completed None out errOut)])
  /\ (snd res <> None -> fst res = []).
Proof.
  cbv zeta.
  apply (always_run (runCommandWithTimeout caseTable durationString c cmd t)
           (fun tr res =>
  (exists err, starts tr = [(cmd, err)])
  /\ (forall e, starts tr = [(cmd, Some e)] ->
        waits tr = [] /\ kills tr = 0%nat
        /\ res = ([], Some (Errorf_wrap ErrCommandStart e)))
  /\ (starts tr = [(cmd, None)] -> exists outcome, waits tr = [(t, outcome)])
  /\ (kills tr = 1%nat <-> waits tr = [(t, TimerFired)])
  /\ (kills tr = 1%nat <->
      res = ([], Some (Errorf (ErrCommandTimeout ++ str " after " ++ durationString t))))
  /\ (kills tr <> 1%nat -> kills tr = 0%nat)
  /\ (forall out, res = (out, None) ->
        exists errOut, waits tr = [(t, Completed None out errOut)])
  /\ (snd res <> None -> fst res = []))).
  unfold runCommandWithTimeout. explore; observe; settle.
  - destruct (negb (bytes_eqb (TrimSpace stdout) [])),
      (negb (bytes_eqb (TrimSpace stderr) [])); discriminate.
  - match goal with H : (_, _) = (_, _) |- _ => injection H as -> end. eauto.
Qed.

End Runner.

Section AuthDetection.
Variable caseTable : Z -> Z.
Variable durationString : Duration -> bytes.
Hypothesis caseTable_RuneError : caseTable RuneError = RuneError.
Hypothesis caseTable_nonneg : forall r, MaxASCII < r -> 0 <= caseTable r.

Lemma detectAuthError_contains (output : bytes) :
  detectAuthError caseTable output = true <->
  exists phrase,
    In phrase getAuthErrorKeywords /\ ContainsIgnoringCase caseTable output phrase.
Proof.
  unfold detectAuthError, containsAnyKeyword, ContainsIgnoringCase, EqualIgnoringCase.
  rewrite anyKeyword_true. split.
  - intros (kw & X & Y & Hin & H).
    destruct (keywords_lowercase caseTable kw Hin) as (Hne & Hascii & Hlow).
    destruct (Lowered_find caseTable caseTable_RuneError _ _
                (ToLower_Lowered caseTable caseTable_nonneg output) X kw Y H Hne Hascii)
      as (a & u & b & Hsplit & Hu).
    exists kw. split; [exact Hin|]. exists a, u, b. split; [exact Hsplit|].
    rewrite Hlow. apply Lowered_ToLower; assumption.
  - intros (kw & Hin & a & u & b & Hsplit & Hu).
    destruct (keywords_lowercase caseTable kw Hin) as (Hne & Hascii & Hlow).
    rewrite Hlow in Hu.
    assert (HL : Lowered (unicode_ToLower caseTable) u kw)
      by (rewrite <- Hu; apply ToLower_Lowered; assumption).
    pose proof (ToLower_Lowered caseTable caseTable_nonneg output) as Hout.
    rewrite Hsplit in Hout at 1.
    destruct (Lowered_context caseTable caseTable_RuneError u kw HL Hne Hascii a b _ Hout)
      as (X & Y & H).
    exists kw, X, Y. auto.
Qed.

Lemma detection_survives_context (x a y : bytes) :
  detectAuthError caseTable a = true ->
  detectAuthError caseTable (x ++ a ++ y) = true.
Proof.
  rewrite !detectAuthError_contains.
  intros (phrase & Hin & a1 & u & b1 & -> & Hu).
  exists phrase. split; [exact Hin|].
  exists (x ++ a1), u, (b1 ++ y). split; [|exact Hu].
  rewrite <- !app_assoc. reflexivity.
Qed.

(** X17: detection survives context: if a text holds an authentication
    phrase, so does any text around it; hence the runner, which looks at
    standard output followed by standard error, sees whatever either of
    them shows.  It sees more: a phrase that starts at the end of the one
    and ends in the other is found in the two together and in neither
    alone. *)
Theorem detect_auth_error_in_context (x a y out errOut : bytes) :
  (detectAuthError caseTable a = true ->
   detectAuthError caseTable (x ++ a ++ y) = true)
  /\ (detectAuthError caseTable out = true \/ detectAuthError caseTable errOut = true ->
      detectAuthError caseTable (out ++ errOut) = true)
  /\ detectAuthError caseTable (str "unauth" ++ str "orized") = true
  /\ detectAuthError caseTable (str "unauth") = false
  /\ detectAuthError caseTable (str "orized") = false.
Proof.
  split; [apply detection_survives_context|]. split.
  - intros [Hd|Hd].
    + rewrite <- (app_nil_l (out ++ errOut)). apply detection_survives_context.
      exact Hd.
    + rewrite <- (app_nil_r errOut). apply (detection_survives_context out errOut []).
      exact Hd.
  - repeat split; vm_compute; reflexivity.
Qed.

(** X18: when the process ends with an error, the runner returns the
    authentication error exactly when what the process wrote, standard
    output followed by standard error, holds one of the five phrases up
    to case; the exit error and the rest of the output are then left
    out. *)
Theorem runner_reports_auth_failure (c : Client) (cmd : Cmd) (t : Duration)
    (world : Oracle) (history : list Call) (exit : error) (out errOut : bytes) :
  let tr := calls world history (runCommandWithTimeout caseTable durationString c cmd t) in
  let res := snd (run world history (runCommandWithTimeout caseTable durationString c cmd t)) in
  waits tr = [(t, Completed (Some exit) out errOut)] ->
  (res = ([], Some (Errorf ErrAuthFailed)) <->
   exists phrase,
     In phrase getAuthErrorKeywords
     /\ ContainsIgnoringCase caseTable (out ++ errOut) phrase)
  /\ (detectAuthError caseTable out = true \/ detectAuthError caseTable errOut = true ->
      res = ([], Some (Errorf ErrAuthFailed))).
Proof.
  cbv zeta. intros Hw.
  assert (H : snd (run world history
                     (runCommandWithTimeout caseTable durationString c cmd t))
              = ([], Some (Errorf ErrAuthFailed))
              <-> detectAuthError caseTable (out ++ errOut) = true).
  { revert Hw.
    apply (always_run (runCommandWithTimeout caseTable durationString c cmd t)
             (fun tr res =>
                waits tr = [(t, Completed (Some exit) out errOut)] ->
                res = ([], Some (Errorf ErrAuthFailed))
                <-> detectAuthError caseTable (out ++ errOut) = true)).
    unfold runCommandWithTimeout. explore; observe; intros [= <- <- <-] || discriminate.
    - split; [intros _; assumption | reflexivity].
    - split; [|congruence].
      destruct (negb (bytes_eqb (TrimSpace stdout) [])),
        (negb (bytes_eqb (TrimSpace stderr) [])); discriminate. }
  split.
  - rewrite H. apply detectAuthError_contains.
  - intros Hd. apply H. destruct Hd as [Hd|Hd].
    + rewrite <- (app_nil_l (out ++ errOut)). apply detection_survives_context.
      exact Hd.
    + rewrite <- (app_nil_r errOut). apply (detection_survives_context out errOut []).
      exact Hd.
Qed.

End AuthDetection.

Lemma detect_auth_error_in_context_witness :
  (detectAuthError sampleCaseTable (str "Unauthorized") = true ->
   detectAuthError sampleCaseTable (str "Error: " ++ str "Unauthorized" ++ str "!") = true)
  /\ (detectAuthError sampleCaseTable (str "ok") = true
      \/ detectAuthError sampleCaseTable (str "Access Denied") = true ->
      detectAuthError sampleCaseTable (str "ok" ++ str "Access Denied") = true)
  /\ detectAuthError sampleCaseTable (str "unauth" ++ str "orized") = true
  /\ detectAuthError sampleCaseTable (str "unauth") = false
  /\ detectAuthError sampleCaseTable (str "orized") = false.
Proof.
  apply (detect_auth_error_in_context sampleCaseTable).
  - reflexivity.
  - intros r H. unfold sampleCaseTable, MaxASCII in *.
    destruct (r =? 0x130); [lia|]. destruct (r =? 0x212A); [lia|].
    destruct ((0xC0 <=? r) && (r <=? 0xDE) && negb (r =? 0xD7)); lia.
Defined.

Lemma runner_reports_auth_failure_witness :
  let world := scriptedWorld (str "/usr/bin/gemini", None)
                 (Completed (Some (errorString (str "exit status 1")))
                    [] (str "Error: Invalid API key")) in
  let cmd := exec_Command (str "/usr/bin/gemini") [str "-p"; str "hi"] in
  let res := snd (run world []
                    (runCommandWithTimeout sampleCaseTable (fun _ => str "30s")
                       NewClient cmd DefaultTimeout)) in
  (res = ([], Some (Errorf ErrAuthFailed)) <->
   exists phrase,
     In phrase getAuthErrorKeywords
     /\ ContainsIgnoringCase sampleCaseTable ([] ++ str "Error: Invalid API key") phrase)
  /\ (detectAuthError sampleCaseTable [] = true
      \/ detectAuthError sampleCaseTable (str "Error: Invalid API key") = true ->
      res = ([], Some (Errorf ErrAuthFailed))).
Proof.
  apply (runner_reports_auth_failure sampleCaseTable (fun _ => str "30s"))
    with (exit := errorString (str "exit status 1")).
  - reflexivity.
  - intros r H. unfold sampleCaseTable, MaxASCII in *.
    destruct (r =? 0x130); [lia|]. destruct (r =? 0x212A); [lia|].
    destruct ((0xC0 <=? r) && (r <=? 0xDE) && negb (r =? 0xD7)); lia.
  - vm_compute. reflexivity.
Defined.

(** ** Programs that differ in their log lines *)

Lemma upToLogs_refl {A : Type} (p : Prog A) : upToLogs p p.
Proof. induction p; [constructor | apply upToLogs_Vis; assumption]. Qed.

Lemma upToLogs_bind {A B : Type} (p q : Prog A) (f g : A -> Prog B) :
  upToLogs p q -> (forall a, upToLogs (f a) (g a)) ->
  upToLogs (bind p f) (bind q g).
Proof.
  induction 1; intros Hfg; simpl;
    [apply Hfg | apply upToLogs_left; auto | apply upToLogs_right; auto
    | apply upToLogs_Vis; auto].
Qed.

Lemma upToLogs_logWith (l l' : Logger) (level level' : logLevel) (msg msg' : bytes)
    (kvs kvs' : list (bytes * logValue)) :
  upToLogs (logWith l level msg kvs) (logWith l' level' msg' kvs').
Proof.
  destruct l, l'; simpl.
  - constructor.
  - apply upToLogs_right. constructor.
  - apply upToLogs_left. constructor.
  - apply upToLogs_left, upToLogs_right. constructor.
Qed.

Lemma notLog_snoc (h : list Call) (id : nat) (level : logLevel) (msg : bytes)
    (kvs : list (bytes * logValue)) (x : unit) :
  filter notLog (h ++ [call (Log id level msg kvs) x]) = filter notLog h.
Proof. rewrite filter_app. cbn. apply app_nil_r. Qed.

(** In a world that ignores the log, two such programs return the same
    and make the same calls, log lines apart. *)
Lemma upToLogs_run {A : Type} (world : Oracle) (p q : Prog A) :
  ignoresLogs world -> upToLogs p q ->
  forall h h', filter notLog h = filter notLog h' ->
    snd (run world h p) = snd (run world h' q)
    /\ filter notLog (fst (run world h p)) = filter notLog (fst (run world h' q)).
Proof.
  intros Hw H. induction H as [a|id level msg kvs k q H IH|id level msg kvs p k H IH
                              |X e k k' H IH]; intros h h' Hh; cbn [run].
  - cbn. auto.
  - destruct (world unit h (Log id level msg kvs)).
    apply IH. rewrite notLog_snoc. exact Hh.
  - destruct (world unit h' (Log id level msg kvs)).
    apply IH. rewrite notLog_snoc. exact Hh.
  - assert (E : world X h e = world X h' e).
    { rewrite (Hw X h), (Hw X h'), Hh. reflexivity. }
    rewrite E. apply IH. rewrite !filter_app, Hh. reflexivity.
Qed.

Lemma upToLogs_calls {A : Type} (world : Oracle) (p q : Prog A) (history : list Call) :
  ignoresLogs world -> upToLogs p q ->
  snd (run world history p) = snd (run world history q)
  /\ filter notLog (calls world history p) = filter notLog (calls world history q).
Proof.
  intros Hw H. destruct (upToLogs_run world p q Hw H history history eq_refl) as [Hv Hc].
  split; [exact Hv|].
  rewrite !run_history, !filter_app in Hc. exact (app_inv_head _ _ _ Hc).
Qed.

Lemma upToLogs_replaceLoop (re : regex) (repl1 repl2 : bytes -> Prog bytes) :
  (forall m, upToLogs (repl1 m) (repl2 m)) ->
  forall fuel prev src,
    upToLogs (replaceLoop re repl1 fuel prev src) (replaceLoop re repl2 fuel prev src).
Proof.
  intros Hrepl. induction fuel as [|fuel IH]; intros prev src; cbn [replaceLoop].
  - constructor.
  - destruct (findMatch re prev src) as [[[g m] rest]|]; [|constructor].
    apply upToLogs_bind; [apply Hrepl|]. intros r.
    destruct m as [|c m]; [destruct rest as [|d rest]|].
    + constructor.
    + apply upToLogs_bind; [apply IH | intros; constructor].
    + apply upToLogs_bind; [apply IH | intros; constructor].
Qed.

Lemma upToLogs_resolveRelativePaths (c c' : Client) (prompt baseDir : bytes) :
  upToLogs (resolveRelativePaths c prompt baseDir)
           (resolveRelativePaths c' prompt baseDir).
Proof.
  unfold resolveRelativePaths, ReplaceAllStringFunc.
  apply upToLogs_bind; [|intros; constructor].
  apply upToLogs_replaceLoop. intros m. cbv zeta.
  destruct (bytes_eqb (TrimSpace m) []); [constructor|].
  destruct (IsAbs (TrimSpace m)); [constructor|].
  apply upToLogs_bind; [apply upToLogs_logWith | intros; constructor].
Qed.

Ltac similar :=
  repeat first
    [ apply upToLogs_refl
    | apply upToLogs_logWith
    | apply upToLogs_resolveRelativePaths
    | apply upToLogs_bind; [|intros ?]
    | apply upToLogs_Vis; intros ?
    | match goal with
      | |- upToLogs (if ?b then _ else _) (if ?b then _ else _) => destruct b
      | |- upToLogs (match ?x with _ => _ end) (match ?x with _ => _ end) => destruct x
      end ].

Section Loggers.
Variable caseTable : Z -> Z.
Variable durationString : Duration -> bytes.

Lemma upToLogs_lookupRunParse (c c' : Client) (cmdArgs : list bytes) (t : Duration) :
  workingDirectory c = workingDirectory c' ->
  upToLogs (lookupRunParse caseTable durationString c cmdArgs t)
           (lookupRunParse caseTable durationString c' cmdArgs t).
Proof.
  intros Hwd.
  unfold lookupRunParse, setWorkingDirectory, DebugWith, ErrorWith, trigger.
  rewrite <- Hwd. similar.
Qed.

Lemma upToLogs_resolvePrompt (c c' : Client) (prompt : bytes) :
  workingDirectory c = workingDirectory c' ->
  upToLogs (resolvePrompt c prompt) (resolvePrompt c' prompt).
Proof.
  intros Hwd. unfold resolvePrompt, WarnWith, trigger. rewrite <- Hwd. similar.
Qed.

Lemma upToLogs_Execute (c c' : Client) (prompt : bytes) :
  timeout c = timeout c' -> model c = model c' ->
  workingDirectory c = workingDirectory c' ->
  upToLogs (Execute caseTable durationString c prompt)
           (Execute caseTable durationString c' prompt).
Proof.
  intros Ht Hm Hwd. unfold Execute, buildGeminiCommandWithModel, DebugWith.
  rewrite <- Ht, <- Hm.
  destruct (bytes_eqb prompt []); [constructor|].
  apply upToLogs_bind; [apply upToLogs_resolvePrompt, Hwd|]. intros rp.
  apply upToLogs_bind; [apply upToLogs_logWith|]. intros _.
  apply upToLogs_lookupRunParse, Hwd.
Qed.

Lemma upToLogs_ExecuteWithTimeout (c c' : Client) (prompt : bytes) (t : Duration) :
  timeout c' = t -> model c = model c' ->
  workingDirectory c = workingDirectory c' ->
  upToLogs (ExecuteWithTimeout caseTable durationString c prompt t)
           (Execute caseTable durationString c' prompt).
Proof.
  intros Ht Hm Hwd. unfold ExecuteWithTimeout, Execute, buildGeminiCommandWithModel, DebugWith.
  rewrite Ht, <- Hm.
  destruct (bytes_eqb prompt []); [constructor|].
  apply upToLogs_bind; [apply upToLogs_resolvePrompt, Hwd|]. intros rp.
  apply upToLogs_bind; [apply upToLogs_logWith|]. intros _.
  apply upToLogs_lookupRunParse, Hwd.
Qed.

(** X19: the logger is written to and nothing else: in a world whose
    answers do not depend on the log, [Execute] returns the same and
    makes the same calls, log lines apart, whichever logger the client
    has. *)
Theorem execute_logger_is_silent (c : Client) (l : Logger) (prompt : bytes)
    (world : Oracle) (history : list Call) :
  ignoresLogs world ->
  snd (run world history (Execute caseTable durationString c prompt))
    = snd (run world history (Execute caseTable durationString (set_logger c l) prompt))
  /\ filter notLog (calls world history (Execute caseTable durationString c prompt))
     = filter notLog
         (calls world history (Execute caseTable durationString (set_logger c l) prompt)).
Proof.
  intros Hw. apply upToLogs_calls; [exact Hw|].
  apply upToLogs_Execute; reflexivity.
Qed.

(** X20: [ExecuteWithTimeout c prompt t] is [Execute] on the client [c]
    with its timeout set to [t]: the two return the same and make the
    same calls, log lines apart.  The timeout is taken as it is, zero and
    negative values included. *)
Theorem execute_with_timeout_is_execute (c : Client) (prompt : bytes) (t : Duration)
    (world : Oracle) (history : list Call) :
  ignoresLogs world ->
  snd (run world history (ExecuteWithTimeout caseTable durationString c prompt t))
    = snd (run world history (Execute caseTable durationString (set_timeout c t) prompt))
  /\ filter notLog
       (calls world history (ExecuteWithTimeout caseTable durationString c prompt t))
     = filter notLog
         (calls world history (Execute caseTable durationString (set_timeout c t) prompt)).
Proof.
  intros Hw. apply upToLogs_calls; [exact Hw|].
  apply upToLogs_ExecuteWithTimeout; reflexivity.
Qed.

End Loggers.

Lemma execute_logger_is_silent_witness :
  let world := scriptedWorld (str "/usr/bin/gemini", None)
                 (Completed None (str "Hello") []) in
  let quiet := Execute sampleCaseTable (fun _ => str "30s") NewClient (str "hi") in
  let loud := Execute sampleCaseTable (fun _ => str "30s")
                (set_logger NewClient (UserLogger 7)) (str "hi") in
  snd (run world [] quiet) = snd (run world [] loud)
  /\ filter notLog (calls world [] quiet) = filter notLog (calls world [] loud).
Proof.
  apply (execute_logger_is_silent sampleCaseTable (fun _ => str "30s") NewClient
           (UserLogger 7) (str "hi")
           (scriptedWorld (str "/usr/bin/gemini", None) (Completed None (str "Hello") []))
           []).
  intros X history e. reflexivity.
Defined.

Lemma execute_with_timeout_is_execute_witness :
  let world := scriptedWorld (str "/usr/bin/gemini", None)
                 (Completed None (str "Hello") []) in
  let c := set_logger NewClient (UserLogger 7) in
  let p := ExecuteWithTimeout sampleCaseTable (fun _ => str "30s") c (str "hi") (-1) in
  let q := Execute sampleCaseTable (fun _ => str "30s") (set_timeout c (-1)) (str "hi") in
  snd (run world [] p) = snd (run world [] q)
  /\ filter notLog (calls world [] p) = filter notLog (calls world [] q).
Proof.
  apply (execute_with_timeout_is_execute sampleCaseTable (fun _ => str "30s")
           (set_logger NewClient (UserLogger 7)) (str "hi") (-1)
           (scriptedWorld (str "/usr/bin/gemini", None) (Completed None (str "Hello") []))
           []).
  intros X history e. reflexivity.
Defined.

(** ** The convenience functions *)

Section Convenience.
Variable caseTable : Z -> Z.
Variable durationString : Duration -> bytes.

(** X21: each package-level function that executes a prompt is
    [Execute] on a fresh client with the no-op logger.  [Execute] has the
    default timeout, the default model and no working directory;
    [ExecuteWithModel], [ExecuteWithModelAndTimeout],
    [ExecuteWithWorkingDirectory], [ExecuteWithWorkingDirectoryAndTimeout]
    and [ExecuteWithFullConfig] take the timeout given if it is positive
    and 30 seconds otherwise, the model given if it is not empty and the
    default model otherwise, and the working directory given.
    [ExecuteWithTimeout] is the exception: its timeout is taken as it
    is, so with a timeout that is not positive it waits under that
    timeout where [ExecuteWithFullConfig] waits 30 seconds. *)
Theorem convenience_functions_defaults (prompt m d : bytes) (t : Duration) :
  let client t' m' d' :=
    {| logger := NoOpLogger; timeout := t'; model := m'; workingDirectory := d' |} in
  let positive t := if 0 <? t then t else DefaultTimeout in
  let named m := if bytes_eqb m [] then DefaultModel else m in
  let run_ c := Execute caseTable durationString c prompt in
  Execute_ caseTable durationString prompt = run_ (client DefaultTimeout DefaultModel [])
  /\ ExecuteWithModel caseTable durationString prompt m
     = run_ (client DefaultTimeout (named m) [])
  /\ ExecuteWithModelAndTimeout caseTable durationString prompt m t
     = run_ (client (positive t) (named m) [])
  /\ ExecuteWithWorkingDirectory caseTable durationString prompt d
     = run_ (client DefaultTimeout DefaultModel d)
  /\ ExecuteWithWorkingDirectoryAndTimeout caseTable durationString prompt d t
     = run_ (client (positive t) DefaultModel d)
  /\ ExecuteWithFullConfig caseTable durationString prompt m d t
     = run_ (client (positive t) (named m) d)
  /\ ExecuteWithTimeout_ caseTable durationString prompt t
     = run_ (client t DefaultModel [])
  /\ (forall world history waited outcome,
        In (waited, outcome)
           (waits (calls world history
                     (ExecuteWithTimeout_ caseTable durationString prompt t))) ->
        waited = t)
  /\ (forall world history waited outcome,
        In (waited, outcome)
           (waits (calls world history
                     (ExecuteWithFullConfig caseTable durationString prompt m d t))) ->
        waited = positive t).
Proof.
  cbv zeta.
  assert (Hfull : forall m d t,
            ExecuteWithFullConfig caseTable durationString prompt m d t
            = Execute caseTable durationString
                {| logger := NoOpLogger;
                   timeout := if 0 <? t then t else DefaultTimeout;
                   model := if bytes_eqb m [] then DefaultModel else m;
                   workingDirectory := d |} prompt).
  { clear. intros m d t. unfold ExecuteWithFullConfig, NewClientWithConfig.
    cbn [ConfigLogger Timeout Model WorkingDirectory].
    destruct (0 <? t), (bytes_eqb m []), (bytes_eqb d []) eqn:Ed;
      cbn [negb set_logger set_timeout set_model set_workingDirectory
           logger timeout model workingDirectory];
      try reflexivity; apply bytes_eqb_nil in Ed; subst d; reflexivity. }
  assert (Hwith : ExecuteWithTimeout_ caseTable durationString prompt t
                  = Execute caseTable durationString
                      {| logger := NoOpLogger; timeout := t; model := DefaultModel;
                         workingDirectory := [] |} prompt).
  { reflexivity. }
  split; [reflexivity|].
  split; [exact (Hfull m [] 0)|].
  split; [exact (Hfull m [] t)|].
  split; [exact (Hfull [] d 0)|].
  split; [exact (Hfull [] d t)|].
  split; [exact (Hfull m d t)|].
  split; [exact Hwith|]. split.
  - intros world history waited outcome H. rewrite Hwith in H.
    exact (Execute_waits _ _ _ _ _ _ _ _ H).
  - intros world history waited outcome H. rewrite Hfull in H.
    exact (Execute_waits _ _ _ _ _ _ _ _ H).
Qed.

End Convenience.

(** ** [filepath.Clean] keeps a path rooted or not *)

Lemma backtrack_suffix (out : bytes) (dotdot : nat) :
  exists x, out = x ++ backtrack out dotdot.
Proof.
  induction out as [|c out IH]; [exists []; reflexivity|].
  cbn [backtrack].
  destruct ((dotdot <? length out)%nat && negb (IsPathSeparator c)).
  - destruct IH as [x Hx]. exists (c :: x). cbn. congruence.
  - exists [c]. reflexivity.
Qed.

Lemma backtrack_length (out : bytes) (dotdot : nat) :
  (dotdot < length out)%nat -> (dotdot <= length (backtrack out dotdot))%nat.
Proof.
  induction out as [|c out IH]; cbn [backtrack length]; [lia|]. intros H.
  destruct (dotdot <? length out)%nat eqn:E; cbn [andb].
  - apply Nat.ltb_lt in E. destruct (negb (IsPathSeparator c)); [auto | lia].
  - lia.
Qed.

Lemma rootedBuffer_suffix (rooted : bool) (x out : bytes) :
  rootedBuffer rooted (x ++ out) -> (rooted = true -> out <> []) ->
  rootedBuffer rooted out.
Proof.
  destruct rooted; cbn [rootedBuffer].
  - intros [y Hy] Hne. specialize (Hne eq_refl).
    destruct (exists_last Hne) as (o & c & ->).
    rewrite app_assoc in Hy. apply app_inj_tail in Hy as [_ ->]. eauto.
  - intros [H|(y & c & Hy & Hc)] _.
    + apply app_eq_nil in H as [_ ->]. left; reflexivity.
    + destruct out as [|o out]; [left; reflexivity|]. right.
      assert (Hne : o :: out <> []) by discriminate.
      destruct (exists_last Hne) as (o' & c' & E). rewrite E in *.
      rewrite app_assoc in Hy. apply app_inj_tail in Hy as [_ ->]. eauto.
Qed.

Lemma rootedBuffer_app (rooted : bool) (x out : bytes) :
  out <> [] -> rootedBuffer rooted out -> rootedBuffer rooted (x ++ out).
Proof.
  destruct rooted; cbn [rootedBuffer].
  - intros _ [y ->]. exists (x ++ y). now rewrite app_assoc.
  - intros Hne [->|(y & c & -> & Hc)]; [congruence|]. right.
    exists (x ++ y), c. now rewrite app_assoc.
Qed.

Lemma element_cons (c : ascii) (path : bytes) :
  IsPathSeparator c = false ->
  exists e rest, element (c :: path) = (c :: e, rest).
Proof.
  intros H. cbn [element]. rewrite H. destruct (element path) as [e rest]. eauto.
Qed.

Lemma cleanLoop_rootedBuffer (fuel : nat) (rooted : bool) :
  forall (path out : bytes) (dotdot : nat),
    rootedBuffer rooted out -> (rooted = true -> (1 <= dotdot)%nat) ->
    rootedBuffer rooted (cleanLoop fuel rooted path out dotdot).
Proof.
  induction fuel as [|fuel IH]; intros path out dotdot Hout Hdd; [exact Hout|].
  cbn [cleanLoop]. destruct path as [|c p1]; [exact Hout|].
  destruct (IsPathSeparator c) eqn:Ec; [apply IH; assumption|].
  match goal with |- context [if ?b then cleanLoop fuel rooted p1 out dotdot else _] =>
    destruct b end; [apply IH; assumption|].
  match goal with |- context [if ?b then _ else _] => destruct b end.
  - (* .. *)
    destruct (dotdot <? length out)%nat eqn:El.
    + apply Nat.ltb_lt in El. apply IH; [|assumption].
      destruct (backtrack_suffix out dotdot) as [x Hx].
      apply (rootedBuffer_suffix rooted x).
      * rewrite <- Hx. exact Hout.
      * intros Hr E. specialize (Hdd Hr).
        pose proof (backtrack_length out dotdot El) as Hlen.
        rewrite E in Hlen. cbn in Hlen. lia.
    + destruct rooted; cbn [negb]; [apply IH; assumption|].
      apply IH; [|discriminate].
      destruct out as [|o out]; cbn [length Nat.ltb Nat.leb].
      * right. exists [dot], dot. split; reflexivity.
      * apply (rootedBuffer_app false [dot; dot; Separator]); [discriminate | exact Hout].
  - (* a real element *)
    destruct (element_cons c p1 Ec) as (e & rest & ->). apply IH; [|assumption].
    destruct rooted; cbn [andb orb negb].
    + assert (Hne : out <> []).
      { destruct Hout as [x ->]. destruct x; discriminate. }
      destruct (negb (length out =? 1)%nat).
      * apply (rootedBuffer_app true (rev (c :: e) ++ [Separator]) out Hne) in Hout.
        rewrite <- app_assoc in Hout. exact Hout.
      * apply rootedBuffer_app; assumption.
    + destruct out as [|o out]; cbn [length Nat.eqb negb].
      * right. exists (rev e), c. rewrite app_nil_r. split; [reflexivity | exact Ec].
      * apply (rootedBuffer_app false (rev (c :: e) ++ [Separator]) (o :: out)) in Hout;
          [|discriminate].
        rewrite <- app_assoc in Hout. exact Hout.
Qed.

(** [Clean] returns a rooted path for a rooted one and no other. *)
Lemma IsAbs_cons (c : ascii) (p : bytes) : IsAbs (c :: p) = IsPathSeparator c.
Proof.
  unfold IsAbs, IsPathSeparator.
  destruct (Ascii.eqb c Separator) eqn:E.
  - apply Ascii.eqb_eq in E as ->. apply HasPrefix_true. exists p. reflexivity.
  - destruct (HasPrefix (c :: p) [Separator]) eqn:H; [|reflexivity].
    apply HasPrefix_true in H as [r Hr]. injection Hr as -> _.
    rewrite Ascii.eqb_refl in E. discriminate.
Qed.

Lemma IsAbs_Clean (path : bytes) : IsAbs (Clean path) = IsAbs path.
Proof.
  destruct path as [|c p1]; [reflexivity|]. rewrite IsAbs_cons. unfold Clean.
  destruct (IsPathSeparator c) eqn:Ec.
  - pose proof (cleanLoop_rootedBuffer (length (c :: p1)) true p1 [Separator] 1) as H.
    destruct H as [x Hx]; [exists []; reflexivity | intros _; lia |].
    rewrite Hx. destruct (x ++ [Separator]) eqn:E; [destruct x; discriminate|].
    rewrite <- E, rev_app_distr. reflexivity.
  - pose proof (cleanLoop_rootedBuffer (length (c :: p1)) false (c :: p1) [] 0) as H.
    destruct H as [->|(x & a & -> & Ha)]; [left; reflexivity | discriminate | reflexivity |].
    destruct (x ++ [a]) eqn:E; [destruct x; discriminate|].
    rewrite <- E, rev_app_distr. cbn [rev app]. rewrite IsAbs_cons. exact Ha.
Qed.

(** X22: what the callback of [resolveRelativePaths] returns is an
    absolute path exactly when the token is one or the base directory
    is.  Against an absolute base, as [os.Getwd] gives it, every token
    becomes absolute; against a relative base a relative token stays
    relative, whatever [..] elements it holds. *)
Theorem resolved_token_absolute_iff (baseDir m : bytes) :
  TrimSpace m <> [] ->
  IsAbs (resolveMatch baseDir m) = IsAbs (TrimSpace m) || IsAbs baseDir.
Proof.
  intros Hm. unfold resolveMatch. cbv zeta.
  rewrite (proj2 (bytes_eqb_nil_false _) Hm).
  destruct (IsAbs (TrimSpace m)) eqn:Ea; [exact Ea|]. cbn [orb].
  rewrite IsAbs_Clean.
  destruct baseDir as [|c baseDir].
  - transitivity (IsAbs (Clean (TrimSpace m))).
    + apply f_equal, filepath_Join_empty_base, Hm.
    + rewrite IsAbs_Clean. exact Ea.
  - transitivity (IsAbs (Clean ((c :: baseDir) ++ Separator :: TrimSpace m))).
    + apply f_equal, filepath_Join_base. discriminate.
    + rewrite IsAbs_Clean. cbn [app]. rewrite !IsAbs_cons. reflexivity.
Qed.

Lemma resolved_token_absolute_iff_witness :
  IsAbs (resolveMatch (str "/work") (str "../src/main.go"))
  = IsAbs (TrimSpace (str "../src/main.go")) || IsAbs (str "/work").
Proof.
  apply (resolved_token_absolute_iff (str "/work") (str "../src/main.go")).
  vm_compute. discriminate.
Defined.
